(** * Smith-Waterman local alignment: scoring scheme and alignment engine

    A shallow embedding of [scoring_scheme.py] and [smith_waterman.py].

    Modelling choices.
    - A Python [str] is a [list ascii]; a one-character string is a
      one-element list.  [py "ACGT"] turns a literal into that form.
    - A Python [float] is an exact rational [Q].  [==] on floats is
      [Qeq_bool], [>] is [Qlt_bool], and results are compared with [Qeq]
      ([==] in [Q_scope]).  Rounding, infinities and NaN are outside the
      model.
    - A raised exception is [Raise e]; a normal return is [Ok v].  Code that
      mutates [self] before raising returns the mutated object next to the
      exception.
    - The [dict] [index_by_symbol] is a [gmap] keyed by strings; the numpy
      arrays are lists of rows, read with [!!] and written with [<[_:=_]>],
      with numpy's [IndexError] written out for indices past the end. *)

From Stdlib Require Import QArith Qabs Lqa Ascii String.
From stdpp Require Import base option list gmap strings.

Open Scope Q_scope.

(** ** Python values *)

Definition py (s : string) : list ascii := list_ascii_of_string s.

Inductive exn : Set :=
  | ValueError
  | AssertionError
  | IndexError
  | KeyError
  | TypeError.

Inductive result (A : Type) : Type :=
  | Ok (a : A)
  | Raise (e : exn).

Arguments Ok {A} a.
Arguments Raise {A} e.

#[global] Instance exn_eq_dec : EqDecision exn.
Proof. solve_decision. Defined.

#[global] Instance result_ret : MRet result := @Ok.

#[global] Instance result_bind : MBind result :=
  λ A B f m, match m with Ok a => f a | Raise e => Raise e end.

(** [for x in xs: st = body x st], stopping at the first exception. *)
Fixpoint for_each {X S : Type} (body : X → S → result S) (xs : list X) (st : S)
  : result S :=
  match xs with
  | [] => Ok st
  | x :: xs' => st' ← body x st; for_each body xs' st'
  end.

(** [range(lo, hi)] *)
Definition range (lo hi : nat) : list nat := seq lo (hi - lo).

(** [s[k]] on a string: a one-character string, or [IndexError]. *)
Definition item (s : list ascii) (k : nat) : result (list ascii) :=
  match s !! k with
  | Some c => Ok [c]
  | None => Raise IndexError
  end.

(** Float comparison [a > b], written [Qlt_bool b a]. *)
Definition Qlt_bool (a b : Q) : bool := negb (Qle_bool b a).

(** Python's [max] keeps its first argument unless a later one is strictly
    greater. *)
Definition pymax (a b : Q) : Q := if Qlt_bool a b then b else a.

Definition max4 (a b c d : Q) : Q := pymax (pymax (pymax a b) c) d.

(** ** scoring_scheme.py *)

Definition gap : ascii := "-"%char.

Record ScoringScheme : Type := mkScoringScheme {
  match_score : Q;
  mismatch_penalty : Q;
  gap_penalty : Q;
  gap_start_penalty : Q;
  index_by_symbol : option (gmap (list ascii) nat);
  scoring_matrix : option (list (list Q))
}.

(** [ScoringScheme()] with the constructor's default arguments. *)
Definition default_scheme : ScoringScheme :=
  mkScoringScheme 1 (-1) (-1) 0 None None.

Definition set_gap_penalty (g : Q) (sch : ScoringScheme) : ScoringScheme :=
  mkScoringScheme (match_score sch) (mismatch_penalty sch) g
    (gap_start_penalty sch) (index_by_symbol sch) (scoring_matrix sch).

Definition set_gap_start_penalty (g : Q) (sch : ScoringScheme) : ScoringScheme :=
  mkScoringScheme (match_score sch) (mismatch_penalty sch) (gap_penalty sch)
    g (index_by_symbol sch) (scoring_matrix sch).

(** [scoring_matrix[row][col]] on a numpy array. *)
Definition matrix_get (m : list (list Q)) (row col : nat) : result Q :=
  match m !! row with
  | None => Raise IndexError
  | Some r => match r !! col with
              | None => Raise IndexError
              | Some v => Ok v
              end
  end.

(** The conditional expression
    [gap_start_penalty if (i > 0) and sequence[i - 1] != "-" else 0.0]. *)
Definition gap_start_term (sch : ScoringScheme) (sequence : list ascii) (i : nat) : Q :=
  if bool_decide (0 < i)%nat && bool_decide (sequence !! (i - 1)%nat ≠ Some gap)
  then gap_start_penalty sch else 0.

(** One iteration of the loop of [ScoringScheme.score]: column [i] holds
    [symbol1] over [symbol2]; the running [score] is updated. *)
Definition score_column (sch : ScoringScheme) (sequence1 sequence2 : list ascii)
    (i : nat) (symbol1 symbol2 : ascii) (score : Q) : result Q :=
  if bool_decide (symbol1 = gap) && bool_decide (symbol2 = gap) then
    Raise ValueError
  else if bool_decide (symbol1 = gap) then
    let score := score + gap_penalty sch in
    Ok (score + gap_start_term sch sequence1 i)
  else if bool_decide (symbol2 = gap) then
    let score := score + gap_penalty sch in
    Ok (score + gap_start_term sch sequence2 i)
  else
    match scoring_matrix sch with
    | Some m =>
        match index_by_symbol sch with
        | None => Raise TypeError
        | Some idx =>
            match idx !! [symbol1] with
            | None => Raise AssertionError
            | Some row =>
                match idx !! [symbol2] with
                | None => Raise AssertionError
                | Some col => v ← matrix_get m row col; Ok (score + v)
                end
            end
        end
    | None =>
        Ok (score + (if bool_decide (symbol1 = symbol2)
                     then match_score sch else mismatch_penalty sch))
    end.

(** The loop [for i, (symbol1, symbol2) in enumerate(zip(...))], entered at
    index [i] with the columns [cols] still to visit. *)
Fixpoint score_loop (sch : ScoringScheme) (sequence1 sequence2 : list ascii)
    (i : nat) (cols : list (ascii * ascii)) (score : Q) : result Q :=
  match cols with
  | [] => Ok score
  | (symbol1, symbol2) :: cols' =>
      score' ← score_column sch sequence1 sequence2 i symbol1 symbol2 score;
      score_loop sch sequence1 sequence2 (S i) cols' score'
  end.

(** [ScoringScheme.score] (also [ScoringScheme.__call__]). *)
Definition score (sch : ScoringScheme) (sequence1 sequence2 : list ascii) : result Q :=
  score_loop sch sequence1 sequence2 0 (zip sequence1 sequence2) 0.

(** [A[i, j]] *)
Definition A_get (A : list (list Q)) (i j : nat) : result Q := matrix_get A i j.

(** [A[i, j] = v] *)
Definition A_set (A : list (list Q)) (i j : nat) (v : Q) : result (list (list Q)) :=
  match A !! i with
  | None => Raise IndexError
  | Some r => if bool_decide (j < length r)%nat
              then Ok (<[i := <[j := v]> r]> A)
              else Raise IndexError
  end.

(** *** load_matrix

    The open file is the list of its remaining lines, each as [readline]
    returns it (with its line terminator); characters are code points below
    256. *)

(** [f.readline()]: the next line, or the empty string at the end of file. *)
Definition readline (f : list (list ascii)) : list ascii * list (list ascii) :=
  match f with
  | [] => ([], [])
  | line :: f' => (line, f')
  end.

(** [str.isspace] on one character. *)
Definition isspace (c : ascii) : bool :=
  let n := nat_of_ascii c in
  ((9 <=? n)%nat && (n <=? 13)%nat) || ((28 <=? n)%nat && (n <=? 32)%nat)
  || (n =? 133)%nat || (n =? 160)%nat.

(** [str.split()] without arguments; [cur] is the word being read. *)
Fixpoint split_go (cur : list ascii) (s : list ascii) : list (list ascii) :=
  match s with
  | [] => match cur with [] => [] | _ => [cur] end
  | c :: s' =>
      if isspace c
      then match cur with [] => split_go [] s' | _ => cur :: split_go [] s' end
      else split_go (cur ++ [c]) s'
  end.

Definition split (s : list ascii) : list (list ascii) := split_go [] s.

Fixpoint lstrip (s : list ascii) : list ascii :=
  match s with
  | [] => []
  | c :: s' => if isspace c then lstrip s' else s
  end.

(** [str.strip()] *)
Definition strip (s : list ascii) : list ascii :=
  reverse (lstrip (reverse (lstrip s))).

(** [enumerate(xs)] *)
Definition enumerate {X : Type} (xs : list X) : list (nat * X) :=
  zip (seq 0 (length xs)) xs.

(** The loop [while headline[0] == "#": headline = f.readline()]; indexing
    the empty string returned at the end of file raises [IndexError]. *)
Fixpoint skip_comments (headline : list ascii) (f : list (list ascii))
  : result (list ascii * list (list ascii)) :=
  match headline with
  | [] => Raise IndexError
  | c :: _ =>
      if bool_decide (c = "#"%char)
      then match f with
           | [] => Raise IndexError
           | line :: f' => skip_comments line f'
           end
      else Ok (headline, f)
  end.

(** The header line and the lines left in the file after it. *)
Definition read_header (f : list (list ascii))
  : result (list ascii * list (list ascii)) :=
  let '(headline, f) := readline f in skip_comments headline f.

(** The dict comprehension
    [{symbol.strip(): i for i, symbol in enumerate(headline.split())}]:
    a later occurrence of a key overwrites the earlier one. *)
Definition header_index (headline : list ascii) : gmap (list ascii) nat :=
  foldl (λ d '(i, symbol), <[strip symbol := i]> d) ∅ (enumerate (split headline)).

(** [np.zeros((n, n))] *)
Definition zeros (n : nat) : list (list Q) := replicate n (replicate n 0).

(** [for x in xs: body], where the body mutates an object in place: when an
    exception is raised the object keeps the changes made so far. *)
Fixpoint for_each_keep {X S : Type} (body : X → S → S * option exn)
    (xs : list X) (st : S) : S * option exn :=
  match xs with
  | [] => (st, None)
  | x :: xs' =>
      match body x st with
      | (st', None) => for_each_keep body xs' st'
      | (st', Some e) => (st', Some e)
      end
  end.

Section load_matrix.
(** The built-in [float(val)] on a string; [None] is its [ValueError]. *)
Variable float : list ascii → option Q.

(** [self.scoring_matrix[i][j] = float(val)]: the right-hand side is
    evaluated first. *)
Definition store_value (i : nat) (jval : nat * list ascii) (m : list (list Q))
  : list (list Q) * option exn :=
  let '(j, val) := jval in
  match float val with
  | None => (m, Some ValueError)
  | Some v =>
      match A_set m i j v with
      | Ok m' => (m', None)
      | Raise e => (m, Some e)
      end
  end.

(** Body of [for line in f]. *)
Definition load_row (index_by_symbol : gmap (list ascii) nat) (line : list ascii)
    (m : list (list Q)) : list (list Q) * option exn :=
  match split line with
  | [] => (m, Some IndexError)
  | symbol :: row =>
      match index_by_symbol !! symbol with
      | None => (m, Some KeyError)
      | Some i => for_each_keep (store_value i) (enumerate row) m
      end
  end.

(** [ScoringScheme.load_matrix]: the scheme after the call, and the
    exception if one was raised. *)
Definition load_matrix (f : list (list ascii)) (self : ScoringScheme)
  : ScoringScheme * option exn :=
  match read_header f with
  | Raise e => (self, Some e)
  | Ok (headline, f) =>
      let idx := header_index headline in
      let n_symbols := size idx in
      let '(m, e) := for_each_keep (load_row idx) f (zeros n_symbols) in
      (mkScoringScheme (match_score self) (mismatch_penalty self)
         (gap_penalty self) (gap_start_penalty self) (Some idx) (Some m), e)
  end.
End load_matrix.

(** A fragment of [float()] used to run [load_matrix] on sample files:
    an optional sign, digits, and an optional fractional part. *)
Definition digit_value (c : ascii) : option Z :=
  let n := nat_of_ascii c in
  if (48 <=? n)%nat && (n <=? 57)%nat then Some (Z.of_nat (n - 48)) else None.

Fixpoint digits_value (acc : Z) (s : list ascii) : option Z :=
  match s with
  | [] => Some acc
  | c :: s' => match digit_value c with
               | Some d => digits_value (10 * acc + d) s'
               | None => None
               end
  end.

Fixpoint split_point (s : list ascii) : list ascii * option (list ascii) :=
  match s with
  | [] => ([], None)
  | c :: s' =>
      if bool_decide (c = "."%char) then ([], Some s')
      else let '(a, b) := split_point s' in (c :: a, b)
  end.

Definition unsigned_decimal (s : list ascii) : option Q :=
  let '(ip, fp) := split_point s in
  let fp := default [] fp in
  match ip ++ fp with
  | [] => None
  | ds => match digits_value 0 ds with
          | Some n => Some (Qmake n (Z.to_pos (10 ^ Z.of_nat (length fp))%Z))
          | None => None
          end
  end.

Definition decimal_float (s : list ascii) : option Q :=
  match s with
  | "-"%char :: s' => Qopp <$> unsigned_decimal s'
  | "+"%char :: s' => unsigned_decimal s'
  | _ => unsigned_decimal s
  end.

Definition nl : list ascii := ["010"%char].

(** ** smith_waterman.py *)

Abbreviation alignment := (list ascii * list ascii)%type (only parsing).
Abbreviation partial := (list ascii * list ascii * nat * nat)%type (only parsing).

(** The state of the fill: the matrix, [best_score] and [best_locations]. *)
Abbreviation fill_state := (list (list Q) * Q * list (nat * nat))%type (only parsing).

(** Body of the inner loop at cell [(i, j)]. *)
Definition fill_cell (sequence1 sequence2 : list ascii) (scoring_scheme : ScoringScheme)
    (gap_penalty : Q) (i j : nat) (st : fill_state) : result fill_state :=
  let '(A, best_score, best_locations) := st in
  d ← A_get A (i - 1) (j - 1);
  symbol1 ← item sequence1 (i - 1);
  symbol2 ← item sequence2 (j - 1);
  s ← score scoring_scheme symbol1 symbol2;
  u ← A_get A (i - 1) j;
  l ← A_get A i (j - 1);
  A ← A_set A i j (max4 (d + s) (u + gap_penalty) (l + gap_penalty) 0);
  a ← A_get A i j;
  let best_locations :=
    if Qeq_bool a best_score then best_locations ++ [(i, j)] else best_locations in
  if Qlt_bool best_score a then Ok (A, a, [(i, j)])
  else Ok (A, best_score, best_locations).

(** The two nested [for] loops that populate the matrix.  [np.empty] leaves
    the interior unspecified; every interior cell is written before it is
    read, and the model starts it at 0.  Row 0 and column 0 are set to 0. *)
Definition populate (sequence1 sequence2 : list ascii) (scoring_scheme : ScoringScheme)
  : result fill_state :=
  let gap_penalty := gap_penalty scoring_scheme in
  let max_i := (length sequence1 + 1)%nat in
  let max_j := (length sequence2 + 1)%nat in
  let A := replicate max_i (replicate max_j 0) in
  for_each
    (λ i st, for_each (fill_cell sequence1 sequence2 scoring_scheme gap_penalty i)
               (range 1 max_j) st)
    (range 1 max_i) (A, 0, []).

(** Body of the loop over [partials] in one round of the backtrace.  The
    state is [alignments] and [next_partials].  A cell with a non-zero value
    has [i >= 1] and [j >= 1] (lemma [populate_boundary]), so [i - 1] and
    [j - 1] never go below zero. *)
Definition backtrace_partial (A : list (list Q)) (sequence1 sequence2 : list ascii)
    (scoring_scheme : ScoringScheme) (gap_penalty : Q)
    (p : partial) (st : list alignment * list partial)
  : result (list alignment * list partial) :=
  let '(alignment1, alignment2, i, j) := p in
  let '(alignments, next_partials) := st in
  a ← A_get A i j;
  if Qeq_bool a 0 then Ok (alignments ++ [(alignment1, alignment2)], next_partials)
  else
    d ← A_get A (i - 1) (j - 1);
    symbol1 ← item sequence1 (i - 1);
    symbol2 ← item sequence2 (j - 1);
    s ← score scoring_scheme symbol1 symbol2;
    next_partials ←
      (if Qeq_bool a (d + s)
       then s1 ← item sequence1 (i - 1);
            s2 ← item sequence2 (j - 1);
            Ok (next_partials ++ [(s1 ++ alignment1, s2 ++ alignment2, (i - 1)%nat, (j - 1)%nat)])
       else Ok next_partials);
    u ← A_get A (i - 1) j;
    next_partials ←
      (if Qeq_bool a (u + gap_penalty)
       then s1 ← item sequence1 (i - 1);
            Ok (next_partials ++ [(s1 ++ alignment1, gap :: alignment2, (i - 1)%nat, j)])
       else Ok next_partials);
    l ← A_get A i (j - 1);
    next_partials ←
      (if Qeq_bool a (l + gap_penalty)
       then s2 ← item sequence2 (j - 1);
            Ok (next_partials ++ [(gap :: alignment1, s2 ++ alignment2, i, (j - 1)%nat)])
       else Ok next_partials);
    Ok (alignments, next_partials).

(** The [while len(partials) > 0] loop.  [None] means that [fuel] rounds were
    not enough; [smith_waterman_terminates] shows that the fuel given by
    [smith_waterman] always is. *)
Fixpoint backtrace (fuel : nat) (A : list (list Q)) (sequence1 sequence2 : list ascii)
    (scoring_scheme : ScoringScheme) (gap_penalty : Q)
    (partials : list partial) (alignments : list alignment)
  : option (result (list alignment)) :=
  match partials with
  | [] => Some (Ok alignments)
  | _ :: _ =>
      match fuel with
      | O => None
      | S fuel' =>
          match for_each (backtrace_partial A sequence1 sequence2 scoring_scheme gap_penalty)
                  partials (alignments, []) with
          | Raise e => Some (Raise e)
          | Ok (alignments', next_partials) =>
              backtrace fuel' A sequence1 sequence2 scoring_scheme gap_penalty
                next_partials alignments'
          end
      end
  end.

(** [smith_waterman(sequence1, sequence2, scoring_scheme)]: the best score and
    the list of alignments. *)
Definition smith_waterman (sequence1 sequence2 : list ascii) (scoring_scheme : ScoringScheme)
  : option (result (Q * list alignment)) :=
  match populate sequence1 sequence2 scoring_scheme with
  | Raise e => Some (Raise e)
  | Ok (A, best_score, best_locations) =>
      let partials := map (λ '(i, j), ([], [], i, j)) best_locations in
      match backtrace (length sequence1 + length sequence2 + 2) A sequence1 sequence2
              scoring_scheme (gap_penalty scoring_scheme) partials [] with
      | None => None
      | Some (Raise e) => Some (Raise e)
      | Some (Ok alignments) => Some (Ok (best_score, alignments))
      end
  end.

(** * Properties *)

(** ** Comparisons and [max] *)

Lemma Qlt_bool_iff (a b : Q) : Qlt_bool a b = true ↔ a < b.
Proof.
  unfold Qlt_bool. rewrite negb_true_iff. split.
  - intros H. apply Qnot_le_lt. intros Hle.
    apply Qle_bool_iff in Hle. congruence.
  - intros H. destruct (Qle_bool b a) eqn:E; [|done].
    apply Qle_bool_iff in E. lra.
Qed.

Lemma Qlt_bool_false (a b : Q) : Qlt_bool a b = false ↔ b <= a.
Proof.
  unfold Qlt_bool. rewrite negb_false_iff. apply Qle_bool_iff.
Qed.

Lemma Qeq_bool_false (a b : Q) : Qeq_bool a b = false ↔ ¬ a == b.
Proof.
  split.
  - intros H Heq. apply Qeq_bool_iff in Heq. congruence.
  - intros H. destruct (Qeq_bool a b) eqn:E; [|done].
    apply Qeq_bool_iff in E. contradiction.
Qed.

Lemma pymax_spec (a b : Q) :
  (pymax a b = a ∧ b <= a) ∨ (pymax a b = b ∧ a < b).
Proof.
  unfold pymax. destruct (Qlt_bool a b) eqn:E.
  - right. split; [done|]. by apply Qlt_bool_iff.
  - left. split; [done|]. by apply Qlt_bool_false.
Qed.

Lemma pymax_ge_l (a b : Q) : a <= pymax a b.
Proof. destruct (pymax_spec a b) as [[-> ?]|[-> ?]]; lra. Qed.

Lemma pymax_ge_r (a b : Q) : b <= pymax a b.
Proof. destruct (pymax_spec a b) as [[-> ?]|[-> ?]]; lra. Qed.

Lemma pymax_mono (a b a' b' : Q) :
  a <= a' → b <= b' → pymax a b <= pymax a' b'.
Proof.
  intros Ha Hb.
  pose proof (pymax_ge_l a' b'). pose proof (pymax_ge_r a' b').
  destruct (pymax_spec a b) as [[-> ?]|[-> ?]]; lra.
Qed.

Lemma max4_ge (a b c d : Q) :
  a <= max4 a b c d ∧ b <= max4 a b c d ∧ c <= max4 a b c d ∧ d <= max4 a b c d.
Proof.
  unfold max4.
  pose proof (pymax_ge_l a b). pose proof (pymax_ge_r a b).
  pose proof (pymax_ge_l (pymax a b) c). pose proof (pymax_ge_r (pymax a b) c).
  pose proof (pymax_ge_l (pymax (pymax a b) c) d).
  pose proof (pymax_ge_r (pymax (pymax a b) c) d).
  repeat split; lra.
Qed.

Lemma max4_cases (a b c d : Q) :
  max4 a b c d = a ∨ max4 a b c d = b ∨ max4 a b c d = c ∨ max4 a b c d = d.
Proof.
  unfold max4.
  destruct (pymax_spec (pymax (pymax a b) c) d) as [[-> _]|[-> _]]; [|tauto].
  destruct (pymax_spec (pymax a b) c) as [[-> _]|[-> _]]; [|tauto].
  destruct (pymax_spec a b) as [[-> _]|[-> _]]; tauto.
Qed.

Lemma max4_mono (a b c d a' b' c' d' : Q) :
  a <= a' → b <= b' → c <= c' → d <= d' → max4 a b c d <= max4 a' b' c' d'.
Proof. intros. unfold max4. by repeat apply pymax_mono. Qed.

(** ** The scorer on single symbols *)

Lemma score_single (sch : ScoringScheme) (c1 c2 : ascii) :
  score sch [c1] [c2] = score_column sch [c1] [c2] 0 c1 c2 0.
Proof.
  unfold score. simpl.
  by destruct (score_column sch [c1] [c2] 0 c1 c2 0).
Qed.

Lemma gap_start_term_0 (sch : ScoringScheme) (s : list ascii) :
  gap_start_term sch s 0 = 0.
Proof. reflexivity. Qed.

(** C5: what the scorer does on a pair of single symbols. *)
Theorem score_single_symbols (sch : ScoringScheme) (s1 s2 : ascii) :
  (s1 = gap → s2 = gap → score sch [s1] [s2] = Raise ValueError)
  ∧ ((s1 = gap ∧ s2 ≠ gap) ∨ (s1 ≠ gap ∧ s2 = gap) →
       ∃ q, score sch [s1] [s2] = Ok q ∧ q == gap_penalty sch)
  ∧ (s1 ≠ gap → s2 ≠ gap →
       ∀ m idx, scoring_matrix sch = Some m → index_by_symbol sch = Some idx →
         (idx !! [s1] = None ∨ idx !! [s2] = None →
            score sch [s1] [s2] = Raise AssertionError)
         ∧ (∀ row col, idx !! [s1] = Some row → idx !! [s2] = Some col →
              match matrix_get m row col with
              | Ok v => ∃ q, score sch [s1] [s2] = Ok q ∧ q == v
              | Raise e => score sch [s1] [s2] = Raise e
              end))
  ∧ (s1 ≠ gap → s2 ≠ gap → scoring_matrix sch = None →
       ∃ q, score sch [s1] [s2] = Ok q
            ∧ q == if bool_decide (s1 = s2) then match_score sch
                   else mismatch_penalty sch).
Proof.
  rewrite score_single. unfold score_column. rewrite !gap_start_term_0.
  split; [|split; [|split]].
  - intros -> ->. reflexivity.
  - intros [[-> H2]|[H1 ->]].
    + rewrite bool_decide_eq_true_2 by done.
      rewrite (bool_decide_eq_false_2 (s2 = gap)) by done. simpl.
      eexists; split; [reflexivity|]. lra.
    + rewrite (bool_decide_eq_false_2 (s1 = gap)) by done. simpl.
      eexists; split; [reflexivity|]. lra.
  - intros H1 H2 m idx Hm Hidx.
    rewrite (bool_decide_eq_false_2 (s1 = gap)) by done.
    rewrite (bool_decide_eq_false_2 (s2 = gap)) by done. simpl.
    rewrite Hm, Hidx. split.
    + intros [->| Hn]; [done|]. rewrite Hn. by destruct (idx !! [s1]).
    + intros row col -> ->.
      destruct (matrix_get m row col) as [v|e]; simpl; [|done].
      eexists; split; [reflexivity|]. lra.
  - intros H1 H2 Hm.
    rewrite (bool_decide_eq_false_2 (s1 = gap)) by done.
    rewrite (bool_decide_eq_false_2 (s2 = gap)) by done. simpl.
    rewrite Hm. eexists; split; [reflexivity|]. lra.
Qed.

Lemma score_single_symbols_witness :
  score default_scheme [gap] [gap] = Raise ValueError
  ∧ (∃ q, score default_scheme [gap] ["A"%char] = Ok q ∧ q == gap_penalty default_scheme)
  ∧ (∃ q, score (mkScoringScheme 1 (-1) (-1) 0 (Some {[ py "A" := 0%nat ]}) (Some [[5]]))
            ["A"%char] ["A"%char] = Ok q
          ∧ q == 5)
  ∧ score (mkScoringScheme 1 (-1) (-1) 0 (Some {[ py "A" := 0%nat ]}) (Some [[5]]))
      ["A"%char] ["C"%char] = Raise AssertionError
  ∧ (∃ q, score default_scheme ["A"%char] ["C"%char] = Ok q
          ∧ q == mismatch_penalty default_scheme).
Proof.
  split_and!.
  - by apply (proj1 (score_single_symbols default_scheme gap gap)).
  - apply (proj1 (proj2 (score_single_symbols default_scheme gap "A"%char))).
    by left.
  - apply (proj2 (proj1 (proj2 (proj2
             (score_single_symbols
                (mkScoringScheme 1 (-1) (-1) 0 (Some {[ py "A" := 0%nat ]}) (Some [[5]]))
                "A"%char "A"%char)))
             ltac:(done) ltac:(done) [[5]] {[ py "A" := 0%nat ]} eq_refl eq_refl)
             0%nat 0%nat eq_refl eq_refl).
  - apply (proj1 (proj1 (proj2 (proj2
             (score_single_symbols
                (mkScoringScheme 1 (-1) (-1) 0 (Some {[ py "A" := 0%nat ]}) (Some [[5]]))
                "A"%char "C"%char)))
             ltac:(done) ltac:(done) [[5]] {[ py "A" := 0%nat ]} eq_refl eq_refl)).
    by right.
  - by apply (proj2 (proj2 (proj2 (score_single_symbols default_scheme "A"%char "C"%char)))).
Defined.

(** ** Loops *)

(** An invariant indexed by the items already visited; [Bad] collects the
    exceptions the body may raise. *)
Lemma for_each_outcome {X S : Type} (body : X → S → result S)
    (Inv : list X → S → Prop) (Bad : exn → Prop) (xs : list X) (st : S) :
  Inv [] st →
  (∀ pre x post s, xs = pre ++ x :: post → Inv pre s →
     match body x s with
     | Ok s' => Inv (pre ++ [x]) s'
     | Raise e => Bad e
     end) →
  match for_each body xs st with
  | Ok st' => Inv xs st'
  | Raise e => Bad e
  end.
Proof.
  intros H0 Hstep.
  cut (∀ post pre s, xs = pre ++ post → Inv pre s →
         match for_each body post s with
         | Ok st' => Inv xs st'
         | Raise e => Bad e
         end).
  { intros H. by apply (H xs [] st). }
  induction post as [|x post IH]; intros pre s Hxs Hpre; simpl.
  - rewrite app_nil_r in Hxs. by subst.
  - specialize (Hstep pre x post s Hxs Hpre).
    destruct (body x s) as [s'|e]; simpl; [|done].
    apply (IH (pre ++ [x])); [|done].
    by rewrite <- app_assoc.
Qed.

Lemma seq_split (a len : nat) (pre post : list nat) (x : nat) :
  seq a len = pre ++ x :: post →
  pre = seq a (length pre) ∧ x = (a + length pre)%nat ∧ (length pre < len)%nat.
Proof.
  revert a len. induction pre as [|y pre IH]; intros a len H.
  - destruct len; simplify_eq/=. split; [done|]. split; lia.
  - destruct len; [done|]. simpl in H. injection H as <- H.
    destruct (IH _ _ H) as (Hp & Hx & Hl). simpl.
    split; [by f_equal|]. split; lia.
Qed.

Lemma filter_ext_elem {X : Type} (P1 P2 : X → Prop)
    `{!∀ x, Decision (P1 x), !∀ x, Decision (P2 x)} (l : list X) :
  (∀ x, x ∈ l → P1 x ↔ P2 x) → filter P1 l = filter P2 l.
Proof.
  induction l as [|x l IH]; intros Hext; [done|].
  rewrite !filter_cons.
  rewrite IH by (intros y Hy; apply Hext; by right).
  destruct (decide (P1 x)) as [H1|H1], (decide (P2 x)) as [H2|H2]; try done.
  - destruct H2. apply Hext; [by left|done].
  - destruct H1. apply Hext; [by left|done].
Qed.

Lemma filter_none {X : Type} (P : X → Prop) `{!∀ x, Decision (P x)} (l : list X) :
  (∀ x, x ∈ l → ¬ P x) → filter P l = [].
Proof.
  induction l as [|x l IH]; intros Hno; [done|].
  rewrite filter_cons_False by (apply Hno; by left).
  apply IH. intros y Hy. apply Hno. by right.
Qed.

Lemma elem_of_if_singleton {X : Type} (b : bool) (x y : X) :
  x ∈ (if b then [y] else []) → b = true ∧ x = y.
Proof.
  destruct b; [|intros []%elem_of_nil].
  by intros ->%list_elem_of_singleton.
Qed.

(** ** The DP matrix as an array *)

(** The value read at [(i, j)], 0 outside the array. *)
Definition cell (A : list (list Q)) (i j : nat) : Q :=
  match A_get A i j with Ok v => v | Raise _ => 0 end.

Definition dims (A : list (list Q)) (N M : nat) : Prop :=
  length A = N ∧ ∀ i r, A !! i = Some r → length r = M.

Lemma dims_replicate (N M : nat) (x : Q) : dims (replicate N (replicate M x)) N M.
Proof.
  split; [by rewrite length_replicate|].
  intros i r [-> _]%lookup_replicate. by rewrite length_replicate.
Qed.

Lemma cell_replicate (N M i j : nat) : cell (replicate N (replicate M 0)) i j = 0.
Proof.
  unfold cell, A_get, matrix_get.
  destruct (replicate N (replicate M 0) !! i) as [r|] eqn:E; [|done].
  apply lookup_replicate in E as [-> _].
  destruct (replicate M 0 !! j) as [v|] eqn:E; [|done].
  by apply lookup_replicate in E as [-> _].
Qed.

Lemma A_get_ok (A : list (list Q)) (N M i j : nat) :
  dims A N M → (i < N)%nat → (j < M)%nat → A_get A i j = Ok (cell A i j).
Proof.
  intros [HN HM] Hi Hj. unfold cell, A_get, matrix_get.
  destruct (lookup_lt_is_Some_2 A i) as [r Hr]; [lia|]. rewrite Hr.
  destruct (lookup_lt_is_Some_2 r j) as [v Hv]; [rewrite (HM _ _ Hr); lia|].
  by rewrite Hv.
Qed.

Lemma A_set_ok (A : list (list Q)) (N M i j : nat) (v : Q) :
  dims A N M → (i < N)%nat → (j < M)%nat →
  ∃ A', A_set A i j v = Ok A' ∧ dims A' N M ∧ cell A' i j = v
        ∧ ∀ a b, (a, b) ≠ (i, j) → cell A' a b = cell A a b.
Proof.
  intros [HN HM] Hi Hj. unfold A_set.
  destruct (lookup_lt_is_Some_2 A i) as [r Hr]; [lia|]. rewrite Hr.
  pose proof (HM _ _ Hr) as Hlen.
  rewrite bool_decide_eq_true_2 by lia.
  eexists. split; [reflexivity|]. split; [|split].
  - split; [by rewrite length_insert|].
    intros a r' Hr'. destruct (decide (a = i)) as [->|Hne].
    + rewrite list_lookup_insert_eq in Hr' by lia. simplify_eq.
      by rewrite length_insert.
    + rewrite list_lookup_insert_ne in Hr' by done. eauto.
  - unfold cell, A_get, matrix_get.
    rewrite list_lookup_insert_eq by lia.
    by rewrite list_lookup_insert_eq by lia.
  - intros a b Hab. unfold cell, A_get, matrix_get.
    destruct (decide (a = i)) as [->|Hne].
    + rewrite list_lookup_insert_eq by lia. rewrite Hr.
      rewrite list_lookup_insert_ne; [done|]. congruence.
    + by rewrite list_lookup_insert_ne.
Qed.

#[global] Instance Qeq_decision (a b : Q) : Decision (a == b) := Qeq_dec a b.

Lemma bind_Ok {A B : Type} (a : A) (f : A → result B) : (Ok a ≫= f) = f a.
Proof. reflexivity. Qed.

Lemma bind_Raise {A B : Type} (e : exn) (f : A → result B) :
  (Raise e ≫= f) = Raise e.
Proof. reflexivity. Qed.

Lemma item_lookup (s : list ascii) (k : nat) (c : ascii) :
  s !! k = Some c → item s k = Ok [c].
Proof. unfold item. by intros ->. Qed.

(** ** The fill of the DP matrix *)

Section fill.
Variables (sequence1 sequence2 : list ascii) (sch : ScoringScheme).

Local Abbreviation n := (length sequence1).
Local Abbreviation m := (length sequence2).
Local Abbreviation g := (gap_penalty sch).

(** Cell [(a, b)] holds the value the recurrence gives it. *)
Definition recurrence (A : list (list Q)) (a b : nat) : Prop :=
  ∃ c1 c2 s,
    sequence1 !! (a - 1)%nat = Some c1 ∧ sequence2 !! (b - 1)%nat = Some c2
    ∧ score sch [c1] [c2] = Ok s
    ∧ cell A a b = max4 (cell A (a - 1) (b - 1) + s) (cell A (a - 1) b + g)
                     (cell A a (b - 1) + g) 0.

Definition interior (a b : nat) : Prop :=
  (1 ≤ a ≤ n)%nat ∧ (1 ≤ b ≤ m)%nat.

Definition settled (done : list (nat * nat)) (a b : nat) : Prop :=
  (a, b) ∈ done ∨ a = 0%nat ∨ b = 0%nat.

(** What holds once the cells of [done] have been visited, in that order. *)
Record FillInv (done : list (nat * nat)) (A : list (list Q)) (best : Q)
    (locs : list (nat * nat)) : Prop := {
  fi_dims : dims A (n + 1) (m + 1);
  fi_fresh : ∀ a b, (a, b) ∉ done → cell A a b = 0;
  fi_interior : ∀ a b, (a, b) ∈ done → interior a b;
  fi_closed : ∀ a b, (a, b) ∈ done →
    settled done (a - 1) (b - 1) ∧ settled done (a - 1) b ∧ settled done a (b - 1);
  fi_rec : ∀ a b, (a, b) ∈ done → recurrence A a b;
  fi_best_nonneg : 0 <= best;
  fi_best_ub : ∀ a b, (a, b) ∈ done → cell A a b <= best;
  fi_best_attained : best = 0 ∨ ∃ a b, (a, b) ∈ done ∧ best = cell A a b;
  fi_locs : locs = filter (λ ab, cell A ab.1 ab.2 == best) done
}.

Definition fill_inv (done : list (nat * nat)) (st : fill_state) : Prop :=
  let '(A, best, locs) := st in FillInv done A best locs.

(** The exceptions of the fill are those of the pairwise scorer. *)
Definition score_raises (e : exn) : Prop :=
  ∃ c1 c2, c1 ∈ sequence1 ∧ c2 ∈ sequence2 ∧ score sch [c1] [c2] = Raise e.

Lemma settled_not_new (done : list (nat * nat)) (i j a b : nat) :
  (1 ≤ i)%nat → (1 ≤ j)%nat → (i, j) ∉ done → settled done a b → (a, b) ≠ (i, j).
Proof.
  intros Hi Hj Hnew Hs Heq. injection Heq as -> ->.
  destruct Hs as [?|[?|?]]; [done|lia|lia].
Qed.

Lemma fill_cell_inv (done : list (nat * nat)) (i j : nat) (st : fill_state) :
  fill_inv done st → interior i j → (i, j) ∉ done →
  settled done (i - 1) (j - 1) → settled done (i - 1) j → settled done i (j - 1) →
  match fill_cell sequence1 sequence2 sch g i j st with
  | Ok st' => fill_inv (done ++ [(i, j)]) st'
  | Raise e => score_raises e
  end.
Proof.
  destruct st as [[A best] locs]. intros [] [[Hi1 Hi2] [Hj1 Hj2]] Hnew Hd Hu Hl.
  unfold fill_cell.
  rewrite (A_get_ok A (n + 1) (m + 1) (i - 1) (j - 1)) by (done || lia).
  rewrite bind_Ok.
  destruct (lookup_lt_is_Some_2 sequence1 (i - 1)) as [c1 Hc1]; [lia|].
  destruct (lookup_lt_is_Some_2 sequence2 (j - 1)) as [c2 Hc2]; [lia|].
  rewrite (item_lookup _ _ _ Hc1), bind_Ok, (item_lookup _ _ _ Hc2), bind_Ok.
  destruct (score sch [c1] [c2]) as [s|e] eqn:Hs; rewrite ?bind_Ok, ?bind_Raise.
  2:{ exists c1, c2. split; [by eapply list_elem_of_lookup_2|].
      split; [by eapply list_elem_of_lookup_2|done]. }
  rewrite (A_get_ok A (n + 1) (m + 1) (i - 1) j) by (done || lia).
  rewrite bind_Ok.
  rewrite (A_get_ok A (n + 1) (m + 1) i (j - 1)) by (done || lia).
  rewrite bind_Ok.
  set (v := max4 _ _ _ _).
  destruct (A_set_ok A (n + 1) (m + 1) i j v) as (A' & -> & HdA' & Hv & Hother);
    [done|lia|lia|].
  rewrite bind_Ok.
  rewrite (A_get_ok A' (n + 1) (m + 1)) by (done || lia). rewrite bind_Ok.
  rewrite Hv.
  assert (Hold : ∀ a b, (a, b) ∈ done → cell A' a b = cell A a b).
  { intros a b Hab. apply Hother. intros [= -> ->]. done. }
  assert (Hvnn : 0 <= v).
  { subst v. apply max4_ge. }
  assert (Hrec : ∀ a b, (a, b) ∈ done ++ [(i, j)] → recurrence A' a b).
  { intros a b [Hab|Hab%list_elem_of_singleton]%elem_of_app.
    - destruct (fi_rec0 a b Hab) as (d1 & d2 & s' & ? & ? & ? & Hc).
      destruct (fi_closed0 a b Hab) as (Hd' & Hu' & Hl').
      exists d1, d2, s'. split_and!; try done.
      rewrite (Hold a b Hab), Hc.
      rewrite !Hother; [done|by eapply settled_not_new..].
    - simplify_eq. exists c1, c2, s. split_and!; try done.
      rewrite Hv.
      rewrite !Hother; [done|by eapply settled_not_new..]. }
  assert (Hclosed : ∀ a b, (a, b) ∈ done ++ [(i, j)] →
    settled (done ++ [(i, j)]) (a - 1) (b - 1) ∧ settled (done ++ [(i, j)]) (a - 1) b
    ∧ settled (done ++ [(i, j)]) a (b - 1)).
  { assert (∀ a b, settled done a b → settled (done ++ [(i, j)]) a b) as Hmono.
    { intros a b [?|?]; [left; apply elem_of_app; by left|by right]. }
    intros a b [Hab|Hab%list_elem_of_singleton]%elem_of_app.
    - destruct (fi_closed0 a b Hab) as (? & ? & ?). split_and!; by apply Hmono.
    - simplify_eq. split_and!; by apply Hmono. }
  assert (Hint : ∀ a b, (a, b) ∈ done ++ [(i, j)] → interior a b).
  { intros a b [Hab|Hab%list_elem_of_singleton]%elem_of_app; [by eauto|].
    simplify_eq. split; lia. }
  assert (Hfresh : ∀ a b, (a, b) ∉ done ++ [(i, j)] → cell A' a b = 0).
  { intros a b Hab. rewrite Hother.
    - apply fi_fresh0. intros ?. apply Hab, elem_of_app. by left.
    - intros [= -> ->]. apply Hab, elem_of_app. right.
      by apply list_elem_of_singleton. }
  assert (Hfilter : ∀ best',
    filter (λ ab, cell A' ab.1 ab.2 == best') done
    = filter (λ ab, cell A ab.1 ab.2 == best') done).
  { intros best'. apply filter_ext_elem. intros [a b] Hab. simpl.
    by rewrite (Hold a b Hab). }
  destruct (Qlt_bool best v) eqn:Hlt.
  - apply Qlt_bool_iff in Hlt. simpl.
    split; [done|done|done|done|done|lra| | |].
    + intros a b [Hab|Hab%list_elem_of_singleton]%elem_of_app.
      * rewrite (Hold a b Hab). specialize (fi_best_ub0 a b Hab). lra.
      * simplify_eq. rewrite Hv. lra.
    + right. exists i, j. split; [|done].
      apply elem_of_app. right. by apply list_elem_of_singleton.
    + rewrite filter_app, Hfilter.
      rewrite filter_none.
      2:{ intros [a b] Hab. simpl.
          specialize (fi_best_ub0 a b Hab). lra. }
      rewrite filter_cons_True; [done|]. simpl. rewrite Hv. lra.
  - apply Qlt_bool_false in Hlt. simpl.
    split; [done|done|done|done|done|done| | |].
    + intros a b [Hab|Hab%list_elem_of_singleton]%elem_of_app.
      * rewrite (Hold a b Hab). by apply fi_best_ub0.
      * simplify_eq. by rewrite Hv.
    + destruct fi_best_attained0 as [?|(a & b & Hab & Hbest)]; [by left|].
      right. exists a, b. split; [apply elem_of_app; by left|].
      by rewrite (Hold a b Hab).
    + rewrite filter_app, Hfilter, <- fi_locs0.
      destruct (Qeq_bool v best) eqn:Heq.
      * apply Qeq_bool_iff in Heq.
        rewrite filter_cons_True; [done|]. simpl. by rewrite Hv.
      * apply Qeq_bool_false in Heq.
        rewrite filter_cons_False; [by rewrite app_nil_r|]. simpl. by rewrite Hv.
Qed.

(** The cells of row [a], and of rows [1..k], in the order of the sweep. *)
Definition row_cells (a : nat) : list (nat * nat) := map (pair a) (seq 1 m).

Definition rows (k : nat) : list (nat * nat) := flat_map row_cells (seq 1 k).

Lemma elem_of_row_prefix (i k a b : nat) :
  (a, b) ∈ map (pair i) (seq 1 k) ↔ a = i ∧ (1 ≤ b ≤ k)%nat.
Proof.
  rewrite list_elem_of_fmap. split.
  - intros (y & [= -> ->] & Hy%elem_of_seq). split; [done|lia].
  - intros (-> & Hb). exists b. split; [done|]. apply elem_of_seq. lia.
Qed.

Lemma elem_of_rows (k a b : nat) :
  (a, b) ∈ rows k ↔ (1 ≤ a ≤ k)%nat ∧ (1 ≤ b ≤ m)%nat.
Proof.
  unfold rows. rewrite list_elem_of_In, in_flat_map. split.
  - intros (x & Hx%list_elem_of_In%elem_of_seq & Hab%list_elem_of_In).
    apply elem_of_row_prefix in Hab as [-> ?]. split; lia.
  - intros [Ha Hb]. exists a. split.
    + apply list_elem_of_In, elem_of_seq. lia.
    + by apply list_elem_of_In, elem_of_row_prefix.
Qed.

Lemma rows_S (k : nat) : rows (S k) = rows k ++ row_cells (S k).
Proof.
  unfold rows. rewrite seq_S, flat_map_app. simpl. by rewrite app_nil_r.
Qed.

Lemma fill_row_inv (i : nat) (st : fill_state) :
  (1 ≤ i ≤ n)%nat → fill_inv (rows (i - 1)) st →
  match for_each (fill_cell sequence1 sequence2 sch g i) (range 1 (m + 1)) st with
  | Ok st' => fill_inv (rows i) st'
  | Raise e => score_raises e
  end.
Proof.
  intros Hi Hst.
  replace (rows i) with (rows (i - 1) ++ map (pair i) (range 1 (m + 1))).
  2:{ replace i with (S (i - 1)) at 3 by lia. rewrite rows_S.
      unfold row_cells, range. do 3 f_equal; lia. }
  apply (for_each_outcome _
           (λ pre st, fill_inv (rows (i - 1) ++ map (pair i) pre) st)).
  { simpl. by rewrite app_nil_r. }
  intros pre x post s Hsplit Hs.
  unfold range in Hsplit. apply seq_split in Hsplit as (Hpre & -> & Hlen).
  set (k := length pre) in *.
  replace (m + 1 - 1)%nat with m in Hlen by lia.
  pose proof (fill_cell_inv (rows (i - 1) ++ map (pair i) pre) i (1 + k) s Hs)
    as Hstep.
  rewrite map_app, app_assoc. simpl.
  apply Hstep; clear Hstep.
  - split; lia.
  - rewrite elem_of_app, elem_of_rows, Hpre, elem_of_row_prefix. lia.
  - unfold settled.
    rewrite elem_of_app, elem_of_rows, Hpre, elem_of_row_prefix. lia.
  - unfold settled.
    rewrite elem_of_app, elem_of_rows, Hpre, elem_of_row_prefix. lia.
  - unfold settled.
    rewrite elem_of_app, elem_of_rows, Hpre, elem_of_row_prefix. lia.
Qed.

(** Every interior cell, row by row. *)
Definition all_cells : list (nat * nat) := rows n.

Lemma fill_inv_init :
  fill_inv [] (replicate (n + 1) (replicate (m + 1) 0), 0, []).
Proof.
  split; try (intros a b Hab; by apply elem_of_nil in Hab).
  - apply dims_replicate.
  - intros a b _. apply cell_replicate.
  - lra.
  - by left.
  - done.
Qed.

(** Outcome of the fill: either the pairwise scorer raised on some pair of
    symbols, or every interior cell satisfies the recurrence and the best
    score and locations are those of the finished matrix. *)
Lemma populate_outcome :
  match populate sequence1 sequence2 sch with
  | Ok st => fill_inv all_cells st
  | Raise e => score_raises e
  end.
Proof.
  unfold populate, all_cells.
  replace (rows n) with (flat_map row_cells (range 1 (n + 1))).
  2:{ unfold rows, range. do 2 f_equal. lia. }
  apply (for_each_outcome _ (λ pre st, fill_inv (flat_map row_cells pre) st)).
  { apply fill_inv_init. }
  intros pre x post s Hsplit Hs.
  unfold range in Hsplit. apply seq_split in Hsplit as (Hpre & -> & Hlen).
  set (k := length pre) in *.
  replace (n + 1 - 1)%nat with n in Hlen by lia.
  rewrite flat_map_app. simpl. rewrite app_nil_r.
  rewrite Hpre. change (flat_map row_cells (seq 1 k)) with (rows k).
  rewrite <- rows_S.
  apply fill_row_inv; [lia|].
  replace (S k - 1)%nat with k by lia.
  unfold rows. by rewrite <- Hpre.
Qed.
End fill.

(** ** The backtrace *)

Section backtrace.
Variables (sequence1 sequence2 : list ascii) (sch : ScoringScheme).
Variables (A : list (list Q)) (best : Q) (locs : list (nat * nat)).
Hypothesis Hfill : FillInv sequence1 sequence2 sch (all_cells sequence1 sequence2) A best locs.

Local Abbreviation n := (length sequence1).
Local Abbreviation m := (length sequence2).
Local Abbreviation g := (gap_penalty sch).

(** What one partial contributes to [alignments] and to [next_partials]. *)
Definition emit_of (p : partial) : list alignment :=
  let '(alignment1, alignment2, i, j) := p in
  if Qeq_bool (cell A i j) 0 then [(alignment1, alignment2)] else [].

Definition next_of (p : partial) : list partial :=
  let '(alignment1, alignment2, i, j) := p in
  if Qeq_bool (cell A i j) 0 then []
  else
    match sequence1 !! (i - 1)%nat, sequence2 !! (j - 1)%nat with
    | Some c1, Some c2 =>
        match score sch [c1] [c2] with
        | Ok s =>
            (if Qeq_bool (cell A i j) (cell A (i - 1) (j - 1) + s)
             then [(c1 :: alignment1, c2 :: alignment2, (i - 1)%nat, (j - 1)%nat)]
             else [])
            ++ (if Qeq_bool (cell A i j) (cell A (i - 1) j + g)
                then [(c1 :: alignment1, gap :: alignment2, (i - 1)%nat, j)]
                else [])
            ++ (if Qeq_bool (cell A i j) (cell A i (j - 1) + g)
                then [(gap :: alignment1, c2 :: alignment2, i, (j - 1)%nat)]
                else [])
        | Raise _ => []
        end
    | _, _ => []
    end.

(** The alignments collected in [fuel] rounds from the partials [ps]. *)
Fixpoint trace (fuel : nat) (ps : list partial) : list alignment :=
  match fuel with
  | O => []
  | S fuel' => flat_map emit_of ps ++ trace fuel' (flat_map next_of ps)
  end.

Lemma trace_nil (fuel : nat) : trace fuel [] = [].
Proof. induction fuel; [done|]. simpl. done. Qed.

Definition in_range (p : partial) : Prop := (p.1.2 ≤ n)%nat ∧ (p.2 ≤ m)%nat.

Lemma nonzero_interior (i j : nat) :
  Qeq_bool (cell A i j) 0 = false → interior sequence1 sequence2 i j.
Proof.
  intros Hnz. apply (fi_interior _ _ _ _ _ _ _ Hfill).
  destruct (decide ((i, j) ∈ all_cells sequence1 sequence2)) as [|Hout]; [done|].
  apply (fi_fresh _ _ _ _ _ _ _ Hfill) in Hout. by rewrite Hout in Hnz.
Qed.

Lemma backtrace_partial_spec (p : partial) (alignments : list alignment)
    (next_partials : list partial) :
  in_range p →
  backtrace_partial A sequence1 sequence2 sch g p (alignments, next_partials)
  = Ok (alignments ++ emit_of p, next_partials ++ next_of p).
Proof.
  destruct p as [[[al1 al2] i] j]. intros [Hi Hj]. simpl in Hi, Hj.
  pose proof (fi_dims _ _ _ _ _ _ _ Hfill) as Hd.
  unfold backtrace_partial, emit_of, next_of.
  rewrite (A_get_ok A (n + 1) (m + 1) i j) by (done || lia). rewrite bind_Ok.
  destruct (Qeq_bool (cell A i j) 0) eqn:Hz.
  { by rewrite app_nil_r. }
  destruct (nonzero_interior i j Hz) as [Hi' Hj'].
  destruct (fi_rec _ _ _ _ _ _ _ Hfill i j) as (c1 & c2 & s & Hc1 & Hc2 & Hs & _).
  { apply elem_of_rows. lia. }
  rewrite (A_get_ok A (n + 1) (m + 1) (i - 1) (j - 1)) by (done || lia).
  rewrite bind_Ok.
  rewrite Hc1, Hc2, !(item_lookup _ _ _ Hc1), !(item_lookup _ _ _ Hc2).
  rewrite !bind_Ok, Hs, bind_Ok.
  rewrite (A_get_ok A (n + 1) (m + 1) (i - 1) j) by (done || lia).
  rewrite (A_get_ok A (n + 1) (m + 1) i (j - 1)) by (done || lia).
  rewrite app_nil_r.
  destruct (Qeq_bool (cell A i j) (cell A (i - 1) (j - 1) + s));
    rewrite ?bind_Ok;
    destruct (Qeq_bool (cell A i j) (cell A (i - 1) j + g));
    rewrite ?bind_Ok;
    destruct (Qeq_bool (cell A i j) (cell A i (j - 1) + g));
    rewrite ?bind_Ok; simpl; rewrite <- ?app_assoc, ?app_nil_r; reflexivity.
Qed.

Lemma next_of_in_range (p q : partial) :
  in_range p → q ∈ next_of p →
  in_range q ∧ (q.1.2 + q.2 < p.1.2 + p.2)%nat.
Proof.
  destruct p as [[[al1 al2] i] j]. intros [Hi Hj]. simpl in Hi, Hj.
  unfold next_of. destruct (Qeq_bool (cell A i j) 0) eqn:Hz.
  { intros []%elem_of_nil. }
  destruct (nonzero_interior i j Hz) as [Hi' Hj'].
  destruct (sequence1 !! (i - 1)%nat) as [c1|]; [|intros []%elem_of_nil].
  destruct (sequence2 !! (j - 1)%nat) as [c2|]; [|intros []%elem_of_nil].
  destruct (score sch [c1] [c2]) as [s|]; [|intros []%elem_of_nil].
  unfold in_range.
  intros [Hq|[Hq|Hq]%elem_of_app]%elem_of_app;
    apply elem_of_if_singleton in Hq as [_ ->]; simpl; lia.
Qed.

Lemma round_spec (ps : list partial) (alignments : list alignment)
    (next_partials : list partial) :
  Forall in_range ps →
  for_each (backtrace_partial A sequence1 sequence2 sch g) ps
    (alignments, next_partials)
  = Ok (alignments ++ flat_map emit_of ps, next_partials ++ flat_map next_of ps).
Proof.
  revert alignments next_partials.
  induction ps as [|p ps IH]; intros alignments next_partials Hr; simpl.
  - by rewrite !app_nil_r.
  - apply Forall_cons in Hr as [Hp Hps].
    rewrite (backtrace_partial_spec p _ _ Hp), bind_Ok.
    rewrite IH by done. by rewrite <- !app_assoc.
Qed.

(** With more fuel than the largest [i + j] among the partials, the loop
    finishes, raises nothing, and collects [trace]. *)
Lemma backtrace_trace (fuel : nat) (ps : list partial) (alignments : list alignment) :
  Forall (λ p, in_range p ∧ (p.1.2 + p.2 < fuel)%nat) ps →
  backtrace fuel A sequence1 sequence2 sch g ps alignments
  = Some (Ok (alignments ++ trace fuel ps)).
Proof.
  revert ps alignments.
  induction fuel as [|fuel IH]; intros ps alignments Hps.
  - destruct ps as [|p ps]; simpl; [by rewrite app_nil_r|].
    apply Forall_cons in Hps as [[_ Hp] _]. lia.
  - destruct ps as [|p ps].
    { rewrite trace_nil. simpl. by rewrite app_nil_r. }
    remember (p :: ps) as ps' eqn:Hps'.
    assert (backtrace (S fuel) A sequence1 sequence2 sch g ps' alignments
            = match for_each (backtrace_partial A sequence1 sequence2 sch g)
                      ps' (alignments, []) with
              | Raise e => Some (Raise e)
              | Ok (alignments', next_partials) =>
                  backtrace fuel A sequence1 sequence2 sch g next_partials
                    alignments'
              end) as -> by (by subst ps').
    rewrite round_spec by (eapply Forall_impl; [done|by intros ? []]).
    simpl. rewrite IH; [by rewrite <- app_assoc|].
    apply Forall_forall. intros q Hq%list_elem_of_In%in_flat_map.
    destruct Hq as (p' & Hp'%list_elem_of_In & Hq%list_elem_of_In).
    rewrite Forall_forall in Hps. destruct (Hps p' Hp') as [Hr Hlt].
    destruct (next_of_in_range p' q Hr Hq). split; [done|lia].
Qed.
End backtrace.

(** ** The engine as a whole *)

(** The partials the backtrace starts from. *)
Definition initial_partials (best_locations : list (nat * nat)) : list partial :=
  map (λ '(i, j), ([], [], i, j)) best_locations.

Lemma initial_partials_in_range (sequence1 sequence2 : list ascii)
    (ls : list (nat * nat)) (fuel : nat) :
  (∀ a b, (a, b) ∈ ls → interior sequence1 sequence2 a b) →
  (length sequence1 + length sequence2 < fuel)%nat →
  Forall (λ p, in_range sequence1 sequence2 p ∧ (p.1.2 + p.2 < fuel)%nat)
    (initial_partials ls).
Proof.
  intros Hls Hfuel. apply Forall_forall. intros p Hp.
  apply list_elem_of_fmap in Hp as ([a b] & -> & Hab).
  destruct (Hls a b Hab) as [Ha Hb]. unfold in_range. simpl. lia.
Qed.

(** [smith_waterman] never runs out of fuel: it raises what the fill raises,
    and otherwise returns the best score with the traced alignments. *)
Lemma smith_waterman_outcome (sequence1 sequence2 : list ascii) (sch : ScoringScheme) :
  match populate sequence1 sequence2 sch with
  | Raise e => smith_waterman sequence1 sequence2 sch = Some (Raise e)
  | Ok (A, best, locs) =>
      smith_waterman sequence1 sequence2 sch
      = Some (Ok (best, trace sequence1 sequence2 sch A
                          (length sequence1 + length sequence2 + 2)
                          (initial_partials locs)))
  end.
Proof.
  unfold smith_waterman.
  pose proof (populate_outcome sequence1 sequence2 sch) as Hpop.
  destruct (populate sequence1 sequence2 sch) as [[[A best] locs]|e]; [|done].
  simpl in Hpop.
  change (map _ locs) with (initial_partials locs).
  rewrite (backtrace_trace sequence1 sequence2 sch A best locs Hpop); [done|].
  apply initial_partials_in_range; [|lia].
  intros a b Hab. apply (fi_interior _ _ _ _ _ _ _ Hpop).
  rewrite (fi_locs _ _ _ _ _ _ _ Hpop) in Hab.
  by apply list_elem_of_filter in Hab as [_ ?].
Qed.

Lemma smith_waterman_terminates (sequence1 sequence2 : list ascii) (sch : ScoringScheme) :
  ∃ r, smith_waterman sequence1 sequence2 sch = Some r.
Proof.
  pose proof (smith_waterman_outcome sequence1 sequence2 sch) as H.
  destruct (populate sequence1 sequence2 sch) as [[[A best] locs]|e]; eauto.
Qed.

(** A returned result comes from a finished fill. *)
Lemma smith_waterman_Ok_inv (sequence1 sequence2 : list ascii) (sch : ScoringScheme)
    (best : Q) (alignments : list alignment) :
  smith_waterman sequence1 sequence2 sch = Some (Ok (best, alignments)) →
  ∃ A locs,
    populate sequence1 sequence2 sch = Ok (A, best, locs)
    ∧ FillInv sequence1 sequence2 sch (all_cells sequence1 sequence2) A best locs
    ∧ alignments = trace sequence1 sequence2 sch A
                     (length sequence1 + length sequence2 + 2) (initial_partials locs).
Proof.
  intros Hsw.
  pose proof (smith_waterman_outcome sequence1 sequence2 sch) as Hout.
  pose proof (populate_outcome sequence1 sequence2 sch) as Hpop.
  destruct (populate sequence1 sequence2 sch) as [[[A best'] locs]|e].
  - rewrite Hout in Hsw. simplify_eq. by exists A, locs.
  - rewrite Hout in Hsw. done.
Qed.

(** When the pairwise scorer accepts every pair of symbols, the fill
    finishes. *)
Lemma populate_Ok (sequence1 sequence2 : list ascii) (sch : ScoringScheme) :
  (∀ c1 c2, c1 ∈ sequence1 → c2 ∈ sequence2 → ∃ s, score sch [c1] [c2] = Ok s) →
  ∃ A best locs,
    populate sequence1 sequence2 sch = Ok (A, best, locs)
    ∧ FillInv sequence1 sequence2 sch (all_cells sequence1 sequence2) A best locs.
Proof.
  intros Hscore.
  pose proof (populate_outcome sequence1 sequence2 sch) as Hpop.
  destruct (populate sequence1 sequence2 sch) as [[[A best] locs]|e].
  - by exists A, best, locs.
  - destruct Hpop as (c1 & c2 & H1 & H2 & He).
    destruct (Hscore c1 c2 H1 H2) as [s Hs]. congruence.
Qed.

(** ** Values of the cells *)

Section cells.
Variables (sequence1 sequence2 : list ascii) (sch : ScoringScheme).
Variables (A : list (list Q)) (best : Q) (locs : list (nat * nat)).
Hypothesis Hfill : FillInv sequence1 sequence2 sch (all_cells sequence1 sequence2) A best locs.

Local Abbreviation n := (length sequence1).
Local Abbreviation m := (length sequence2).

Lemma cell_cases (a b : nat) :
  (interior sequence1 sequence2 a b ∧ recurrence sequence1 sequence2 sch A a b)
  ∨ (¬ interior sequence1 sequence2 a b ∧ cell A a b = 0).
Proof.
  destruct (decide ((a, b) ∈ all_cells sequence1 sequence2)) as [Hin|Hout].
  - left. split.
    + by apply (fi_interior _ _ _ _ _ _ _ Hfill).
    + by apply (fi_rec _ _ _ _ _ _ _ Hfill).
  - right. split.
    + intros [Ha Hb]. apply Hout, elem_of_rows. lia.
    + by apply (fi_fresh _ _ _ _ _ _ _ Hfill).
Qed.

(** Row 0 and column 0 hold 0. *)
Lemma populate_boundary (a b : nat) : a = 0%nat ∨ b = 0%nat → cell A a b = 0.
Proof.
  intros Hab. destruct (cell_cases a b) as [[[Ha Hb] _]|[_ H]]; [lia|done].
Qed.

(** Every cell is at least 0. *)
Lemma cell_nonneg (a b : nat) : 0 <= cell A a b.
Proof.
  destruct (cell_cases a b) as [[_ (c1 & c2 & s & _ & _ & _ & ->)]|[_ ->]].
  - apply max4_ge.
  - lra.
Qed.

Lemma cell_le_best (a b : nat) : cell A a b <= best.
Proof.
  destruct (cell_cases a b) as [[[Ha Hb] _]|[_ ->]].
  - apply (fi_best_ub _ _ _ _ _ _ _ Hfill), elem_of_rows. lia.
  - apply (fi_best_nonneg _ _ _ _ _ _ _ Hfill).
Qed.

(** With no positive pairwise score and no positive gap penalty, no cell
    is positive. *)
Lemma cells_nonpositive :
  (∀ c1 c2 s, c1 ∈ sequence1 → c2 ∈ sequence2 → score sch [c1] [c2] = Ok s → s <= 0) →
  gap_penalty sch <= 0 →
  ∀ a b, cell A a b <= 0.
Proof.
  intros Hscore Hgap a b.
  remember (a + b)%nat as k eqn:Hk. revert a b Hk.
  induction (lt_wf k) as [k _ IH]. intros a b ->.
  destruct (cell_cases a b) as [[[Ha Hb] (c1 & c2 & s & H1 & H2 & Hs & ->)]|[_ ->]];
    [|lra].
  pose proof (IH (a - 1 + (b - 1))%nat ltac:(lia) _ _ eq_refl).
  pose proof (IH (a - 1 + b)%nat ltac:(lia) _ _ eq_refl).
  pose proof (IH (a + (b - 1))%nat ltac:(lia) _ _ eq_refl).
  assert (s <= 0).
  { eapply Hscore; [by eapply list_elem_of_lookup_2..|done]. }
  destruct (max4_cases (cell A (a - 1) (b - 1) + s)
              (cell A (a - 1) b + gap_penalty sch)
              (cell A a (b - 1) + gap_penalty sch) 0) as [->|[->|[->| ->]]]; lra.
Qed.
End cells.

(** ** C1: no positive cell *)

Lemma filter_all {X : Type} (P : X → Prop) `{!∀ x, Decision (P x)} (l : list X) :
  (∀ x, x ∈ l → P x) → filter P l = l.
Proof.
  induction l as [|x l IH]; intros Hall; [done|].
  rewrite filter_cons_True by (apply Hall; by left).
  f_equal. apply IH. intros y Hy. apply Hall. by right.
Qed.

Lemma length_rows (sequence2 : list ascii) (k : nat) :
  length (rows sequence2 k) = (k * length sequence2)%nat.
Proof.
  induction k as [|k IH]; [done|].
  rewrite rows_S, length_app, IH. unfold row_cells.
  rewrite length_map, length_seq. lia.
Qed.

(** When every cell is 0, each starting partial is flushed at once. *)
Lemma trace_all_zero (sequence1 sequence2 : list ascii) (sch : ScoringScheme)
    (A : list (list Q)) (fuel : nat) (ls : list (nat * nat)) :
  (∀ a b, cell A a b == 0) →
  trace sequence1 sequence2 sch A (S fuel) (initial_partials ls)
  = replicate (length ls) ([], []).
Proof.
  intros Hzero. simpl.
  assert (flat_map (next_of sequence1 sequence2 sch A) (initial_partials ls) = [])
    as ->.
  { induction ls as [|[a b] ls IH]; [done|]. simpl. rewrite IH.
    by rewrite (proj2 (Qeq_bool_iff _ _) (Hzero a b)). }
  rewrite trace_nil, app_nil_r.
  induction ls as [|[a b] ls IH]; [done|]. simpl. rewrite IH.
  by rewrite (proj2 (Qeq_bool_iff _ _) (Hzero a b)).
Qed.

(** C1, as the claim states it, fails: a single mismatch under the default
    scheme ties the initial [best_score] 0.0, so cell (1, 1) is recorded as a
    best location and the empty alignment is returned. *)
Lemma mismatch_returns_empty_pair :
  smith_waterman (py "A") (py "T") default_scheme = Some (Ok (0, [([], [])]))
  ∧ ¬ (∃ best, smith_waterman (py "A") (py "T") default_scheme = Some (Ok (best, []))).
Proof.
  split; [reflexivity|]. intros [best H]. vm_compute in H. discriminate.
Qed.

(** C1 (amended): when every pairwise symbol score and the gap penalty are
    at most 0, so that no cell of the DP matrix is positive, [smith_waterman]
    returns a best score equal to 0 together with one empty alignment pair
    for each interior cell of the matrix: [len(sequence1) * len(sequence2)]
    copies of [("", "")]. *)
Theorem no_positive_cell_result (sequence1 sequence2 : list ascii) (sch : ScoringScheme) :
  (∀ c1 c2, c1 ∈ sequence1 → c2 ∈ sequence2 →
     ∃ s, score sch [c1] [c2] = Ok s ∧ s <= 0) →
  gap_penalty sch <= 0 →
  ∃ best,
    smith_waterman sequence1 sequence2 sch
    = Some (Ok (best, replicate (length sequence1 * length sequence2) ([], [])))
    ∧ best == 0.
Proof.
  intros Hscore Hgap.
  destruct (populate_Ok sequence1 sequence2 sch) as (A & best & locs & Hpop & Hfill).
  { intros c1 c2 H1 H2. destruct (Hscore c1 c2 H1 H2) as (s & Hs & _). eauto. }
  pose proof (smith_waterman_outcome sequence1 sequence2 sch) as Hout.
  rewrite Hpop in Hout.
  assert (Hzero : ∀ a b, cell A a b == 0).
  { intros a b. apply Qle_antisym.
    - apply (cells_nonpositive sequence1 sequence2 sch A best locs Hfill); [|done].
      intros c1 c2 s H1 H2 Hs. destruct (Hscore c1 c2 H1 H2) as (s' & Hs' & Hle).
      congruence.
    - apply (cell_nonneg sequence1 sequence2 sch A best locs Hfill). }
  assert (Hbest : best == 0).
  { destruct (fi_best_attained _ _ _ _ _ _ _ Hfill) as [->|(a & b & _ & ->)];
      [reflexivity|apply Hzero]. }
  assert (Hlocs : locs = all_cells sequence1 sequence2).
  { rewrite (fi_locs _ _ _ _ _ _ _ Hfill). apply filter_all.
    intros [a b] _. simpl. rewrite Hbest. apply Hzero. }
  exists best. split; [|done].
  rewrite Hout. do 3 f_equal.
  replace (length sequence1 + length sequence2 + 2)%nat
    with (S (length sequence1 + length sequence2 + 1)) by lia.
  rewrite (trace_all_zero _ _ _ _ _ _ Hzero), Hlocs.
  unfold all_cells. by rewrite length_rows.
Qed.

Lemma no_positive_cell_result_witness :
  ∃ best,
    smith_waterman (py "AC") (py "T") default_scheme
    = Some (Ok (best, replicate (2 * 1) ([], [])))
    ∧ best == 0.
Proof.
  apply (no_positive_cell_result (py "AC") (py "T") default_scheme).
  - intros c1 c2 H1 H2.
    apply list_elem_of_singleton in H2 as ->.
    apply elem_of_cons in H1 as [->|H1];
      [|apply list_elem_of_singleton in H1 as ->];
      (eexists; split; [reflexivity|done]).
  - done.
Defined.

(** ** C6: the gap penalty *)

(** Changing the gap penalty does not change which pairs the scorer accepts,
    and a larger penalty gives a larger pairwise score. *)
Lemma score_gap_penalty_mono (sch : ScoringScheme) (g1 g2 : Q) (c1 c2 : ascii) :
  g1 <= g2 →
  match score (set_gap_penalty g1 sch) [c1] [c2],
        score (set_gap_penalty g2 sch) [c1] [c2] with
  | Ok s1, Ok s2 => s1 <= s2
  | Raise e1, Raise e2 => e1 = e2
  | _, _ => False
  end.
Proof.
  intros Hg. rewrite !score_single. unfold score_column.
  rewrite !gap_start_term_0. simpl.
  destruct (bool_decide (c1 = gap)), (bool_decide (c2 = gap)); simpl;
    try done; try lra.
  destruct (scoring_matrix sch) as [mx|]; [|lra].
  destruct (index_by_symbol sch) as [idx|]; [|done].
  destruct (idx !! [c1]) as [row|]; [|done].
  destruct (idx !! [c2]) as [col|]; [|done].
  destruct (matrix_get mx row col) as [v|e]; simpl; [lra|done].
Qed.

Section gap_penalty.
Variables (sequence1 sequence2 : list ascii) (sch : ScoringScheme) (g1 g2 : Q).
Variables (A1 A2 : list (list Q)) (best1 best2 : Q) (locs1 locs2 : list (nat * nat)).
Hypothesis Hg : g1 <= g2.
Hypothesis Hfill1 :
  FillInv sequence1 sequence2 (set_gap_penalty g1 sch)
    (all_cells sequence1 sequence2) A1 best1 locs1.
Hypothesis Hfill2 :
  FillInv sequence1 sequence2 (set_gap_penalty g2 sch)
    (all_cells sequence1 sequence2) A2 best2 locs2.

Lemma cell_gap_penalty_mono (a b : nat) : cell A1 a b <= cell A2 a b.
Proof.
  remember (a + b)%nat as k eqn:Hk. revert a b Hk.
  induction (lt_wf k) as [k _ IH]. intros a b ->.
  destruct (cell_cases _ _ _ _ _ _ Hfill1 a b)
    as [[[Ha Hb] (c1 & c2 & s1 & H1 & H2 & Hs1 & ->)]|[Hout ->]].
  2:{ apply (cell_nonneg _ _ _ _ _ _ Hfill2). }
  destruct (cell_cases _ _ _ _ _ _ Hfill2 a b)
    as [[_ (c1' & c2' & s2 & H1' & H2' & Hs2 & ->)]|[Hout _]].
  2:{ destruct Hout. by split. }
  simplify_eq. simpl.
  pose proof (score_gap_penalty_mono sch g1 g2 c1 c2 Hg) as Hs.
  rewrite Hs1, Hs2 in Hs.
  pose proof (IH (a - 1 + (b - 1))%nat ltac:(lia) _ _ eq_refl).
  pose proof (IH (a - 1 + b)%nat ltac:(lia) _ _ eq_refl).
  pose proof (IH (a + (b - 1))%nat ltac:(lia) _ _ eq_refl).
  apply max4_mono; lra.
Qed.

Lemma best_gap_penalty_mono : best1 <= best2.
Proof.
  destruct (fi_best_attained _ _ _ _ _ _ _ Hfill1) as [Hb|(a & b & _ & Hb)];
    rewrite Hb.
  - apply (fi_best_nonneg _ _ _ _ _ _ _ Hfill2).
  - pose proof (cell_gap_penalty_mono a b).
    pose proof (cell_le_best _ _ _ _ _ _ Hfill2 a b). lra.
Qed.
End gap_penalty.

(** C6: for fixed sequences and fixed match, mismatch and matrix
    parameters, if [smith_waterman] returns with gap penalty [g1] then it
    returns with any gap penalty [g2 >= g1], and the best score with [g2] is
    at least the best score with [g1]. *)
Theorem best_score_monotone_in_gap_penalty (sequence1 sequence2 : list ascii)
    (sch : ScoringScheme) (g1 g2 best1 : Q) (alignments1 : list alignment) :
  g1 <= g2 →
  smith_waterman sequence1 sequence2 (set_gap_penalty g1 sch)
  = Some (Ok (best1, alignments1)) →
  ∃ best2 alignments2,
    smith_waterman sequence1 sequence2 (set_gap_penalty g2 sch)
    = Some (Ok (best2, alignments2))
    ∧ best1 <= best2.
Proof.
  intros Hg Hsw1.
  apply smith_waterman_Ok_inv in Hsw1 as (A1 & locs1 & Hpop1 & Hfill1 & _).
  destruct (populate_Ok sequence1 sequence2 (set_gap_penalty g2 sch))
    as (A2 & best2 & locs2 & Hpop2 & Hfill2).
  { intros c1 c2 Hc1 Hc2.
    apply list_elem_of_lookup in Hc1 as [i Hi], Hc2 as [j Hj].
    destruct (fi_rec _ _ _ _ _ _ _ Hfill1 (S i) (S j))
      as (d1 & d2 & s & H1 & H2 & Hs & _).
    { apply elem_of_rows. apply lookup_lt_Some in Hi, Hj. lia. }
    simpl in H1, H2. rewrite Nat.sub_0_r in H1, H2. simplify_eq.
    pose proof (score_gap_penalty_mono sch g1 g2 c1 c2 Hg) as Hmono.
    rewrite Hs in Hmono.
    destruct (score (set_gap_penalty g2 sch) [c1] [c2]); [eauto|done]. }
  pose proof (smith_waterman_outcome sequence1 sequence2 (set_gap_penalty g2 sch))
    as Hout.
  rewrite Hpop2 in Hout.
  eexists _, _. split; [exact Hout|].
  by apply (best_gap_penalty_mono sequence1 sequence2 sch g1 g2 A1 A2 best1 best2
              locs1 locs2).
Qed.

Lemma best_score_monotone_in_gap_penalty_witness :
  ∃ best2 alignments2,
    smith_waterman (py "ACA") (py "AA") (set_gap_penalty (-1 # 2) default_scheme)
    = Some (Ok (best2, alignments2))
    ∧ 1 <= best2.
Proof.
  apply (best_score_monotone_in_gap_penalty (py "ACA") (py "AA") default_scheme
           (-1) (-1 # 2) 1
           [(py "A", py "A"); (py "A", py "A"); (py "A", py "A"); (py "A", py "A")]).
  - done.
  - reflexivity.
Defined.

(** ** C7: a sequence against itself *)

Lemma score_no_matrix_Ok (sch : ScoringScheme) (c1 c2 : ascii) :
  scoring_matrix sch = None → ¬ (c1 = gap ∧ c2 = gap) →
  ∃ s, score sch [c1] [c2] = Ok s.
Proof.
  intros Hm Hgap. rewrite score_single. unfold score_column. rewrite Hm.
  destruct (bool_decide_reflect (c1 = gap)), (bool_decide_reflect (c2 = gap));
    simpl; eauto.
  destruct Hgap. done.
Qed.

Lemma score_no_matrix_match (sch : ScoringScheme) (c : ascii) (s : Q) :
  scoring_matrix sch = None → c ≠ gap →
  score sch [c] [c] = Ok s → s == match_score sch.
Proof.
  intros Hm Hc. rewrite score_single. unfold score_column. rewrite Hm.
  rewrite (bool_decide_eq_false_2 (c = gap)) by done. simpl.
  rewrite bool_decide_eq_true_2 by done. intros [= <-]. lra.
Qed.

(** The identity diagonal: cell [(k, k)] is worth at least [k] matches. *)
Lemma diagonal_lower_bound (sequence : list ascii) (sch : ScoringScheme)
    (A : list (list Q)) (best : Q) (locs : list (nat * nat)) (k : nat) :
  FillInv sequence sequence sch (all_cells sequence sequence) A best locs →
  scoring_matrix sch = None → gap ∉ sequence → (k ≤ length sequence)%nat →
  inject_Z (Z.of_nat k) * match_score sch <= cell A k k.
Proof.
  intros Hfill Hm Hgap. induction k as [|k IH]; intros Hk.
  - rewrite (populate_boundary _ _ _ _ _ _ Hfill) by auto.
    change (inject_Z (Z.of_nat 0)) with 0. lra.
  - destruct (fi_rec _ _ _ _ _ _ _ Hfill (S k) (S k))
      as (c1 & c2 & s & H1 & H2 & Hs & ->).
    { apply elem_of_rows. lia. }
    simpl in *. rewrite Nat.sub_0_r in *. simplify_eq.
    assert (c1 ≠ gap) as Hc.
    { intros ->. apply Hgap. by eapply list_elem_of_lookup_2. }
    pose proof (score_no_matrix_match sch c1 s Hm Hc Hs) as Hsv.
    specialize (IH ltac:(lia)).
    pose proof (max4_ge (cell A k k + s) (cell A k (S k) + gap_penalty sch)
                  (cell A (S k) k + gap_penalty sch) 0) as (Hge & _).
    rewrite Nat2Z.inj_succ. unfold Z.succ. rewrite inject_Z_plus.
    change (inject_Z 1) with 1. lra.
Qed.

(** C7, as the claim states it, fails for a sequence that contains the gap
    symbol: the scorer refuses to align ["-"] with ["-"]. *)
Lemma self_alignment_of_gap_raises :
  py "-" ≠ []
  ∧ smith_waterman (py "-") (py "-") default_scheme = Some (Raise ValueError).
Proof. split; [done|reflexivity]. Qed.

(** C7 (amended): for every non-empty sequence [s] that does not contain the
    gap symbol ["-"], aligning [s] with itself under the default scoring
    scheme returns a best score of at least [len(s) * match_score]. *)
Theorem self_alignment_best_score (s : list ascii) :
  s ≠ [] → gap ∉ s →
  ∃ best alignments,
    smith_waterman s s default_scheme = Some (Ok (best, alignments))
    ∧ inject_Z (Z.of_nat (length s)) * match_score default_scheme <= best.
Proof.
  intros _ Hgap.
  destruct (populate_Ok s s default_scheme) as (A & best & locs & Hpop & Hfill).
  { intros c1 c2 H1 H2. apply score_no_matrix_Ok; [done|].
    intros [-> _]. done. }
  pose proof (smith_waterman_outcome s s default_scheme) as Hout.
  rewrite Hpop in Hout.
  eexists _, _. split; [exact Hout|].
  pose proof (diagonal_lower_bound s default_scheme A best locs (length s)
                Hfill eq_refl Hgap ltac:(lia)).
  pose proof (cell_le_best _ _ _ _ _ _ Hfill (length s) (length s)). lra.
Qed.

Lemma self_alignment_best_score_witness :
  ∃ best alignments,
    smith_waterman (py "ACA") (py "ACA") default_scheme = Some (Ok (best, alignments))
    ∧ inject_Z (Z.of_nat 3) * match_score default_scheme <= best.
Proof.
  apply (self_alignment_best_score (py "ACA")).
  - done.
  - vm_compute. intros H. by repeat (apply elem_of_cons in H as [H|H]; [done|]);
      apply elem_of_nil in H.
Defined.

(** ** C10: the gap symbol inside an input sequence *)

Lemma max4_Qeq (a b c d a' b' c' d' : Q) :
  a == a' → b == b' → c == c' → d == d' → max4 a b c d == max4 a' b' c' d'.
Proof.
  intros Ha Hb Hc Hd. apply Qle_antisym; apply max4_mono; lra.
Qed.

Lemma score_gap_gap (sch : ScoringScheme) :
  score sch [gap] [gap] = Raise ValueError.
Proof. reflexivity. Qed.

Lemma score_one_gap (sch : ScoringScheme) (c1 c2 : ascii) :
  (c1 = gap ∧ c2 ≠ gap) ∨ (c1 ≠ gap ∧ c2 = gap) →
  ∃ s, score sch [c1] [c2] = Ok s ∧ s == gap_penalty sch.
Proof.
  rewrite score_single. unfold score_column. rewrite !gap_start_term_0.
  intros [[-> H2]|[H1 ->]].
  - rewrite (bool_decide_eq_false_2 (c2 = gap)) by done. simpl.
    eexists. split; [reflexivity|lra].
  - rewrite (bool_decide_eq_false_2 (c1 = gap)) by done. simpl.
    eexists. split; [reflexivity|lra].
Qed.

(** C10: a ["-"] inside an input is handled as a gap, not as a symbol.  In a
    finished fill, a cell that compares a ["-"] of one input with a non-gap
    symbol of the other uses [gap_penalty] as the pairwise score, whatever
    the matrix says.  A cell that compares ["-"] with ["-"] raises
    [ValueError]; so when both inputs contain ["-"], [smith_waterman] raises:
    [ValueError], unless a matrix lookup on two non-gap symbols failed in a
    cell visited earlier. *)
Theorem gap_symbol_in_input (sequence1 sequence2 : list ascii) (sch : ScoringScheme) :
  (∀ A best locs a b c1 c2,
     populate sequence1 sequence2 sch = Ok (A, best, locs) →
     (1 ≤ a)%nat → (1 ≤ b)%nat →
     sequence1 !! (a - 1)%nat = Some c1 → sequence2 !! (b - 1)%nat = Some c2 →
     (c1 = gap ∧ c2 ≠ gap) ∨ (c1 ≠ gap ∧ c2 = gap) →
     cell A a b == max4 (cell A (a - 1) (b - 1) + gap_penalty sch)
                     (cell A (a - 1) b + gap_penalty sch)
                     (cell A a (b - 1) + gap_penalty sch) 0)
  ∧ (∀ A best locs i j d,
       sequence1 !! (i - 1)%nat = Some gap → sequence2 !! (j - 1)%nat = Some gap →
       A_get A (i - 1) (j - 1) = Ok d →
       fill_cell sequence1 sequence2 sch (gap_penalty sch) i j (A, best, locs)
       = Raise ValueError)
  ∧ (gap ∈ sequence1 → gap ∈ sequence2 →
       ∃ e, smith_waterman sequence1 sequence2 sch = Some (Raise e)
            ∧ (e = ValueError
               ∨ ∃ c1 c2, c1 ∈ sequence1 ∧ c2 ∈ sequence2 ∧ c1 ≠ gap ∧ c2 ≠ gap
                          ∧ score sch [c1] [c2] = Raise e)).
Proof.
  split; [|split].
  - intros A best locs a b c1 c2 Hpop Ha Hb H1 H2 Hgap.
    pose proof (populate_outcome sequence1 sequence2 sch) as Hfill.
    rewrite Hpop in Hfill. simpl in Hfill.
    destruct (fi_rec _ _ _ _ _ _ _ Hfill a b) as (d1 & d2 & s & H1' & H2' & Hs & ->).
    { apply elem_of_rows. apply lookup_lt_Some in H1, H2. lia. }
    simplify_eq.
    destruct (score_one_gap sch c1 c2 Hgap) as (s' & Hs' & Hv).
    rewrite Hs in Hs'. injection Hs' as <-.
    apply max4_Qeq; lra.
  - intros A best locs i j d H1 H2 Hd. unfold fill_cell.
    rewrite Hd, bind_Ok, (item_lookup _ _ _ H1), bind_Ok.
    by rewrite (item_lookup _ _ _ H2), bind_Ok, score_gap_gap.
  - intros [i Hi]%list_elem_of_lookup [j Hj]%list_elem_of_lookup.
    pose proof (populate_outcome sequence1 sequence2 sch) as Hpop.
    pose proof (smith_waterman_outcome sequence1 sequence2 sch) as Hout.
    destruct (populate sequence1 sequence2 sch) as [[[A best] locs]|e].
    + simpl in Hpop.
      destruct (fi_rec _ _ _ _ _ _ _ Hpop (S i) (S j)) as (d1 & d2 & s & H1 & H2 & Hs & _).
      { apply elem_of_rows. apply lookup_lt_Some in Hi, Hj. lia. }
      simpl in H1, H2. rewrite Nat.sub_0_r in H1, H2. simplify_eq.
    + exists e. split; [done|].
      destruct Hpop as (c1 & c2 & H1 & H2 & He).
      destruct (decide (c1 = gap)) as [->|Hc1], (decide (c2 = gap)) as [->|Hc2].
      * left. rewrite score_gap_gap in He. congruence.
      * destruct (score_one_gap sch gap c2) as (s & Hs & _); [by left|congruence].
      * destruct (score_one_gap sch c1 gap) as (s & Hs & _); [by right|congruence].
      * right. by exists c1, c2.
Qed.

Lemma gap_symbol_in_input_witness :
  (cell [[0; 0]; [0; 0]; [0; 1]] 1 1
   == max4 (cell [[0; 0]; [0; 0]; [0; 1]] (1 - 1) (1 - 1) + gap_penalty default_scheme)
        (cell [[0; 0]; [0; 0]; [0; 1]] (1 - 1) 1 + gap_penalty default_scheme)
        (cell [[0; 0]; [0; 0]; [0; 1]] 1 (1 - 1) + gap_penalty default_scheme) 0)
  ∧ fill_cell (py "A-") (py "-") default_scheme (gap_penalty default_scheme) 2 1
      ([[0; 0]; [0; 0]; [0; 0]], 0, [(1, 1)%nat]) = Raise ValueError
  ∧ ∃ e, smith_waterman (py "A-") (py "-") default_scheme = Some (Raise e)
         ∧ (e = ValueError
            ∨ ∃ c1 c2, c1 ∈ py "A-" ∧ c2 ∈ py "-" ∧ c1 ≠ gap ∧ c2 ≠ gap
                       ∧ score default_scheme [c1] [c2] = Raise e).
Proof.
  split; [|split].
  - apply (proj1 (gap_symbol_in_input (py "-A") (py "A") default_scheme)
             [[0; 0]; [0; 0]; [0; 1]] 1 [(2, 1)%nat] 1%nat 1%nat gap "A"%char);
      [reflexivity|lia|lia|reflexivity|reflexivity|by left].
  - apply (proj1 (proj2 (gap_symbol_in_input (py "A-") (py "-") default_scheme))
             _ _ _ 2%nat 1%nat 0); reflexivity.
  - apply (proj2 (proj2 (gap_symbol_in_input (py "A-") (py "-") default_scheme))).
    + apply list_elem_of_further, list_elem_of_here.
    + apply list_elem_of_here.
Defined.

(** ** C3: the gap-start penalty *)

Lemma score_loop_app (sch : ScoringScheme) (s1 s2 : list ascii) (i : nat)
    (cols cols' : list (ascii * ascii)) (sc : Q) :
  score_loop sch s1 s2 i (cols ++ cols') sc
  = score_loop sch s1 s2 i cols sc
    ≫= score_loop sch s1 s2 (i + length cols) cols'.
Proof.
  revert i sc. induction cols as [|[c1 c2] cols IH]; intros i sc; simpl.
  - by rewrite Nat.add_0_r.
  - destruct (score_column sch s1 s2 i c1 c2 sc) as [sc'|e]; simpl; [|done].
    rewrite IH. by replace (S i + length cols)%nat with (i + S (length cols))%nat by lia.
Qed.

Lemma gap_start_term_prefix (sch : ScoringScheme) (s x : list ascii) (k : nat) :
  (k ≤ length s)%nat → gap_start_term sch (s ++ x) k = gap_start_term sch s k.
Proof.
  intros Hk. unfold gap_start_term.
  destruct (bool_decide_reflect (0 < k)%nat); [|done].
  by rewrite lookup_app_l by lia.
Qed.

Lemma score_column_prefix (sch : ScoringScheme) (s1 s2 x1 x2 : list ascii) (k : nat)
    (c1 c2 : ascii) (sc : Q) :
  (k ≤ length s1)%nat → (k ≤ length s2)%nat →
  score_column sch (s1 ++ x1) (s2 ++ x2) k c1 c2 sc = score_column sch s1 s2 k c1 c2 sc.
Proof.
  intros H1 H2. unfold score_column. by rewrite !gap_start_term_prefix.
Qed.

(** Scoring a prefix does not look at what follows it. *)
Lemma score_loop_prefix (sch : ScoringScheme) (s1 s2 x1 x2 : list ascii) (i : nat)
    (cols : list (ascii * ascii)) (sc : Q) :
  (i + length cols ≤ S (length s1))%nat → (i + length cols ≤ S (length s2))%nat →
  score_loop sch (s1 ++ x1) (s2 ++ x2) i cols sc = score_loop sch s1 s2 i cols sc.
Proof.
  revert i sc. induction cols as [|[c1 c2] cols IH]; intros i sc H1 H2; [done|].
  simpl in *. rewrite score_column_prefix by lia.
  destruct (score_column sch s1 s2 i c1 c2 sc) as [sc'|e]; simpl; [|done].
  apply IH; lia.
Qed.

Lemma score_snoc (sch : ScoringScheme) (a1 a2 : list ascii) (c1 c2 : ascii) (p : Q) :
  length a1 = length a2 → score sch a1 a2 = Ok p →
  score sch (a1 ++ [c1]) (a2 ++ [c2])
  = score_column sch (a1 ++ [c1]) (a2 ++ [c2]) (length a1) c1 c2 p.
Proof.
  intros Hlen Hp. unfold score in *.
  rewrite zip_with_app by done. rewrite score_loop_app.
  rewrite score_loop_prefix, Hp, bind_Ok.
  - simpl. rewrite length_zip_with, <- Hlen, Nat.min_id.
    by destruct (score_column _ _ _ _ _ _ _).
  - rewrite length_zip_with. lia.
  - rewrite length_zip_with. lia.
Qed.

(** In column [length a] of [a ++ [c]], the gap-start term looks at the last
    symbol of [a]. *)
Lemma gap_start_term_snoc (sch : ScoringScheme) (a : list ascii) (c : ascii) :
  gap_start_term sch (a ++ [c]) (length a)
  = if bool_decide (a ≠ [] ∧ last a ≠ Some gap) then gap_start_penalty sch else 0.
Proof.
  unfold gap_start_term. destruct a as [|x a] using rev_ind.
  - reflexivity.
  - rewrite length_app. simpl.
    rewrite bool_decide_eq_true_2 by lia. simpl.
    replace (length a + 1 - 1)%nat with (length a) by lia.
    rewrite <- app_assoc. change ([x] ++ [c]) with (x :: [c]).
    rewrite list_lookup_middle by done.
    rewrite last_snoc.
    destruct (decide (x = gap)) as [->|Hx].
    + rewrite bool_decide_eq_false_2 by (by intros ?).
      by rewrite bool_decide_eq_false_2 by (by intros [_ ?]).
    + rewrite bool_decide_eq_true_2 by congruence.
      rewrite bool_decide_eq_true_2; [done|].
      split; [by destruct a|congruence].
Qed.

(** The engine scores single symbols, where the gap-start term is 0. *)
Lemma score_single_start_penalty (sch : ScoringScheme) (x : Q) (c1 c2 : ascii) :
  score (set_gap_start_penalty x sch) [c1] [c2] = score sch [c1] [c2].
Proof. rewrite !score_single. reflexivity. Qed.

Lemma item_singleton (s : list ascii) (k : nat) (r : list ascii) :
  item s k = Ok r → ∃ c, r = [c].
Proof. unfold item. destruct (s !! k); intros [= <-]; eauto. Qed.

Lemma for_each_ext {X S : Type} (body body' : X → S → result S) (xs : list X) (st : S) :
  (∀ x s, body x s = body' x s) → for_each body xs st = for_each body' xs st.
Proof.
  intros Hext. revert st. induction xs as [|x xs IH]; intros st; [done|].
  simpl. rewrite Hext. destruct (body' x st); simpl; [apply IH|done].
Qed.

Lemma fill_cell_start_penalty (s1 s2 : list ascii) (sch : ScoringScheme) (x g : Q)
    (i j : nat) (st : fill_state) :
  fill_cell s1 s2 (set_gap_start_penalty x sch) g i j st = fill_cell s1 s2 sch g i j st.
Proof.
  destruct st as [[A best] locs]. unfold fill_cell.
  destruct (A_get A (i - 1) (j - 1)); [|done]. rewrite !bind_Ok.
  destruct (item s1 (i - 1)) as [r1|] eqn:H1; [|done].
  destruct (item s2 (j - 1)) as [r2|] eqn:H2; [|done].
  apply item_singleton in H1 as [c1 ->], H2 as [c2 ->].
  by rewrite !bind_Ok, score_single_start_penalty.
Qed.

Lemma backtrace_partial_start_penalty (A : list (list Q)) (s1 s2 : list ascii)
    (sch : ScoringScheme) (x g : Q) (p : partial)
    (st : list alignment * list partial) :
  backtrace_partial A s1 s2 (set_gap_start_penalty x sch) g p st
  = backtrace_partial A s1 s2 sch g p st.
Proof.
  destruct p as [[[al1 al2] i] j], st as [als nps]. unfold backtrace_partial.
  destruct (A_get A i j); [|done]. rewrite !bind_Ok.
  destruct (Qeq_bool a 0); [done|].
  destruct (A_get A (i - 1) (j - 1)); [|done]. rewrite !bind_Ok.
  destruct (item s1 (i - 1)) as [r1|] eqn:H1; [|done].
  destruct (item s2 (j - 1)) as [r2|] eqn:H2; [|done].
  apply item_singleton in H1 as [c1 ->], H2 as [c2 ->].
  by rewrite !bind_Ok, score_single_start_penalty.
Qed.

Lemma backtrace_start_penalty (fuel : nat) (A : list (list Q)) (s1 s2 : list ascii)
    (sch : ScoringScheme) (x g : Q) (ps : list partial) (als : list alignment) :
  backtrace fuel A s1 s2 (set_gap_start_penalty x sch) g ps als
  = backtrace fuel A s1 s2 sch g ps als.
Proof.
  revert ps als. induction fuel as [|fuel IH]; intros ps als.
  - by destruct ps.
  - destruct ps as [|p ps]; [done|].
    cbn [backtrace].
    rewrite (for_each_ext _ (backtrace_partial A s1 s2 sch g))
      by (intros; apply backtrace_partial_start_penalty).
    destruct (for_each _ _ _) as [[als' nps]|e]; [apply IH|done].
Qed.

Lemma smith_waterman_start_penalty (s1 s2 : list ascii) (sch : ScoringScheme) (x : Q) :
  smith_waterman s1 s2 (set_gap_start_penalty x sch) = smith_waterman s1 s2 sch.
Proof.
  unfold smith_waterman, populate. simpl.
  rewrite (for_each_ext _
    (λ i st, for_each (fill_cell s1 s2 sch (gap_penalty sch) i)
               (range 1 (length s2 + 1)) st)).
  2:{ intros i st. apply for_each_ext. intros j st'.
      apply fill_cell_start_penalty. }
  destruct (for_each _ _ _) as [[[A best] locs]|e]; [|done].
  by rewrite backtrace_start_penalty.
Qed.

(** C3, as the claim states it, fails.  With [gap_penalty = -1] and
    [gap_start_penalty = -5]: a gap in column 0 opens a run but is charged
    [gap_penalty] only; and in [("A-", "-A")] the gap of column 1 is charged
    the start penalty although the previous column of the other sequence is a
    gap, because the code looks at the sequence that holds the gap. *)
Lemma leading_gap_has_no_start_penalty :
  score (mkScoringScheme 1 (-1) (-1) (-5) None None) (py "-") (py "A") = Ok (-1)
  ∧ score (mkScoringScheme 1 (-1) (-1) (-5) None None) (py "A-") (py "-A") = Ok (-7)
  ∧ ¬ (∃ q, score (mkScoringScheme 1 (-1) (-1) (-5) None None) (py "-") (py "A") = Ok q
            ∧ q == -1 + -5).
Proof.
  split; [reflexivity|]. split; [reflexivity|].
  intros (q & Hq & Hv). vm_compute in Hq. injection Hq as <-. done.
Qed.

(** C3 (amended): let [alignment1] and [alignment2] be aligned prefixes of
    equal length with score [p], followed by one more column in which exactly
    one sequence has the gap symbol.  The scorer adds [gap_penalty] for that
    column, and adds [gap_start_penalty] as well exactly when the column is
    not column 0 and the previous symbol of the sequence that holds the gap
    is not a gap.  The alignment engine scores single symbols only, so its
    result is the same for every value of [gap_start_penalty]. *)
Theorem gap_column_score (sch : ScoringScheme) (alignment1 alignment2 : list ascii)
    (symbol1 symbol2 : ascii) (p : Q) :
  length alignment1 = length alignment2 →
  score sch alignment1 alignment2 = Ok p →
  (symbol1 = gap → symbol2 ≠ gap →
     ∃ q, score sch (alignment1 ++ [symbol1]) (alignment2 ++ [symbol2]) = Ok q
          ∧ q == p + gap_penalty sch
                 + (if bool_decide (alignment1 ≠ [] ∧ last alignment1 ≠ Some gap)
                    then gap_start_penalty sch else 0))
  ∧ (symbol1 ≠ gap → symbol2 = gap →
       ∃ q, score sch (alignment1 ++ [symbol1]) (alignment2 ++ [symbol2]) = Ok q
            ∧ q == p + gap_penalty sch
                   + (if bool_decide (alignment2 ≠ [] ∧ last alignment2 ≠ Some gap)
                      then gap_start_penalty sch else 0))
  ∧ (∀ sequence1 sequence2 x,
       smith_waterman sequence1 sequence2 (set_gap_start_penalty x sch)
       = smith_waterman sequence1 sequence2 sch).
Proof.
  intros Hlen Hp. split; [|split].
  - intros -> H2. rewrite (score_snoc _ _ _ _ _ p) by done.
    unfold score_column.
    rewrite (bool_decide_eq_false_2 (symbol2 = gap)) by done. simpl.
    rewrite gap_start_term_snoc. eexists. split; [reflexivity|]. lra.
  - intros H1 ->. rewrite (score_snoc _ _ _ _ _ p) by done.
    unfold score_column.
    rewrite (bool_decide_eq_false_2 (symbol1 = gap)) by done. simpl.
    rewrite Hlen, gap_start_term_snoc. eexists. split; [reflexivity|]. lra.
  - intros sequence1 sequence2 x. apply smith_waterman_start_penalty.
Qed.

Lemma gap_column_score_witness :
  (∃ q, score (mkScoringScheme 1 (-1) (-1) (-5) None None) (py "AC" ++ [gap]) (py "AG" ++ ["T"%char])
        = Ok q
        ∧ q == 0 + -1 + -5)
  ∧ (∃ q, score (mkScoringScheme 1 (-1) (-1) (-5) None None) ([] ++ ["T"%char]) ([] ++ [gap])
          = Ok q
          ∧ q == 0 + -1 + 0)
  ∧ smith_waterman (py "AC") (py "AG") (set_gap_start_penalty (-5) default_scheme)
    = smith_waterman (py "AC") (py "AG") default_scheme.
Proof.
  split; [|split].
  - apply (proj1 (gap_column_score (mkScoringScheme 1 (-1) (-1) (-5) None None)
                    (py "AC") (py "AG") gap "T"%char 0 eq_refl eq_refl));
      [reflexivity|done].
  - apply (proj1 (proj2 (gap_column_score (mkScoringScheme 1 (-1) (-1) (-5) None None)
                           [] [] "T"%char gap 0 eq_refl eq_refl)));
      [done|reflexivity].
  - apply (proj2 (proj2 (gap_column_score default_scheme [] [] "T"%char gap 0
                           eq_refl eq_refl))).
Defined.

(** ** C8 and C2: the alignments the backtrace emits *)

(** [alignment.replace("-", "")]: the alignment with its gap symbols deleted. *)
Definition degap (alignment : list ascii) : list ascii :=
  filter (λ c, c ≠ gap) alignment.

(** [t] occurs in [s] as a block of consecutive symbols. *)
Definition substring_of (t s : list ascii) : Prop :=
  ∃ pre suf, s = pre ++ t ++ suf.

(** The two strings of a partial. *)
Definition strings_of (p : partial) : alignment := (p.1.1.1, p.1.1.2).

Lemma take_drop_substring (s : list ascii) (i k : nat) :
  substring_of (take k (drop i s)) s.
Proof.
  exists (take i s), (drop k (drop i s)). by rewrite !take_drop.
Qed.

Section emitted.
Variables (sequence1 sequence2 : list ascii) (sch : ScoringScheme).
Variables (A : list (list Q)) (best : Q) (locs : list (nat * nat)).
Hypothesis Hfill : FillInv sequence1 sequence2 sch (all_cells sequence1 sequence2) A best locs.

Local Abbreviation next_of' := (next_of sequence1 sequence2 sch A).
Local Abbreviation emit_of' := (emit_of A).
Local Abbreviation trace' := (trace sequence1 sequence2 sch A).

(** A successor of a partial moves diagonally, up or left. *)
Lemma next_of_cases (al1 al2 : list ascii) (i j : nat) (q : partial) :
  q ∈ next_of' (al1, al2, i, j) →
  ∃ c1 c2,
    (1 ≤ i)%nat ∧ (1 ≤ j)%nat
    ∧ sequence1 !! (i - 1)%nat = Some c1 ∧ sequence2 !! (j - 1)%nat = Some c2
    ∧ ¬ (c1 = gap ∧ c2 = gap)
    ∧ (q = (c1 :: al1, c2 :: al2, (i - 1)%nat, (j - 1)%nat)
       ∨ q = (c1 :: al1, gap :: al2, (i - 1)%nat, j)
       ∨ q = (gap :: al1, c2 :: al2, i, (j - 1)%nat)).
Proof.
  unfold next_of. destruct (Qeq_bool (cell A i j) 0) eqn:Hz.
  { intros []%elem_of_nil. }
  destruct (nonzero_interior _ _ _ _ _ _ Hfill i j Hz) as [Hi Hj].
  destruct (sequence1 !! (i - 1)%nat) as [c1|]; [|intros []%elem_of_nil].
  destruct (sequence2 !! (j - 1)%nat) as [c2|]; [|intros []%elem_of_nil].
  destruct (score sch [c1] [c2]) as [s|] eqn:Hs; [|intros []%elem_of_nil].
  intros Hq. exists c1, c2. split_and!; try done; try lia.
  - intros [-> ->]. by rewrite score_gap_gap in Hs.
  - apply elem_of_app in Hq as [Hq|Hq%elem_of_app].
    + apply elem_of_if_singleton in Hq as [_ ->]. by left.
    + destruct Hq as [Hq|Hq]; apply elem_of_if_singleton in Hq as [_ ->]; auto.
Qed.

Lemma elem_of_emit_of (p : partial) (al : alignment) :
  al ∈ emit_of' p → al = strings_of p.
Proof.
  destruct p as [[[al1 al2] i] j]. unfold emit_of.
  by intros [_ ->]%elem_of_if_singleton.
Qed.

(** A property of partials kept by every move holds of whatever is emitted. *)
Lemma trace_invariant (I : partial → Prop) :
  (∀ p q, I p → q ∈ next_of' p → I q) →
  ∀ fuel ps al, Forall I ps → al ∈ trace' fuel ps →
    ∃ p, I p ∧ al = strings_of p.
Proof.
  intros Hstep. induction fuel as [|fuel IH]; intros ps al Hps Hal.
  { by apply elem_of_nil in Hal. }
  rewrite Forall_forall in Hps.
  simpl in Hal. apply elem_of_app in Hal as [Hal|Hal].
  - apply list_elem_of_In, in_flat_map in Hal as (p & Hp%list_elem_of_In & Hal%list_elem_of_In).
    exists p. split; [by apply Hps|by apply elem_of_emit_of].
  - apply IH in Hal; [done|].
    apply Forall_forall. intros q Hq%list_elem_of_In%in_flat_map.
    destruct Hq as (p & Hp%list_elem_of_In & Hq%list_elem_of_In).
    eapply Hstep; [|done]. by apply Hps.
Qed.

(** The first string of a partial at row [i], without its gaps, is the block
    of [sequence1] that starts at index [i]. *)
Lemma degap_alignment1 (fuel : nat) (ls : list (nat * nat)) (al : alignment) :
  gap ∉ sequence1 → al ∈ trace' fuel (initial_partials ls) →
  substring_of (degap al.1) sequence1.
Proof.
  intros Hgap Hal.
  apply (trace_invariant
           (λ p, ∃ k, degap p.1.1.1 = take k (drop p.1.2 sequence1))) in Hal.
  - destruct Hal as (p & (k & Hk) & ->). simpl. rewrite Hk.
    apply take_drop_substring.
  - intros [[[al1 al2] i] j] q (k & Hk) Hq. simpl in Hk.
    apply next_of_cases in Hq as (c1 & c2 & Hi & Hj & H1 & H2 & _ & Hq).
    assert (c1 ≠ gap) as Hc1.
    { intros ->. apply Hgap. by eapply list_elem_of_lookup_2. }
    assert (drop (i - 1) sequence1 = c1 :: drop i sequence1) as Hdrop.
    { rewrite (drop_S _ c1 (i - 1)) by done. do 2 f_equal. lia. }
    destruct Hq as [->|[->| ->]]; simpl.
    + exists (S k). unfold degap. rewrite filter_cons_True by done.
      rewrite Hdrop. simpl. f_equal. exact Hk.
    + exists (S k). unfold degap. rewrite filter_cons_True by done.
      rewrite Hdrop. simpl. f_equal. exact Hk.
    + exists k. unfold degap. rewrite filter_cons_False; [exact Hk|].
      by intros ?.
  - apply Forall_forall. intros p Hp.
    apply list_elem_of_fmap in Hp as ([a b] & -> & _). by exists 0%nat.
Qed.

Lemma degap_alignment2 (fuel : nat) (ls : list (nat * nat)) (al : alignment) :
  gap ∉ sequence2 → al ∈ trace' fuel (initial_partials ls) →
  substring_of (degap al.2) sequence2.
Proof.
  intros Hgap Hal.
  apply (trace_invariant
           (λ p, ∃ k, degap p.1.1.2 = take k (drop p.2 sequence2))) in Hal.
  - destruct Hal as (p & (k & Hk) & ->). simpl. rewrite Hk.
    apply take_drop_substring.
  - intros [[[al1 al2] i] j] q (k & Hk) Hq. simpl in Hk.
    apply next_of_cases in Hq as (c1 & c2 & Hi & Hj & H1 & H2 & _ & Hq).
    assert (c2 ≠ gap) as Hc2.
    { intros ->. apply Hgap. by eapply list_elem_of_lookup_2. }
    assert (drop (j - 1) sequence2 = c2 :: drop j sequence2) as Hdrop.
    { rewrite (drop_S _ c2 (j - 1)) by done. do 2 f_equal. lia. }
    destruct Hq as [->|[->| ->]]; simpl.
    + exists (S k). unfold degap. rewrite filter_cons_True by done.
      rewrite Hdrop. simpl. f_equal. exact Hk.
    + exists k. unfold degap. rewrite filter_cons_False; [exact Hk|].
      by intros ?.
    + exists (S k). unfold degap. rewrite filter_cons_True by done.
      rewrite Hdrop. simpl. f_equal. exact Hk.
  - apply Forall_forall. intros p Hp.
    apply list_elem_of_fmap in Hp as ([a b] & -> & _). by exists 0%nat.
Qed.
End emitted.

(** C8, as the claim states it, fails when an input contains the gap
    symbol: the ["-"] of [sequence1] is copied into the alignment and deleted
    with the inserted gaps. *)
Lemma gap_in_input_breaks_substring :
  smith_waterman (py "AA-A") (py "AATA") default_scheme
  = Some (Ok (2, [(py "AA", py "AA"); (py "AA-A", py "AATA")]))
  ∧ degap (py "AA-A") = py "AAA"
  ∧ ¬ substring_of (degap (py "AA-A")) (py "AA-A").
Proof.
  split; [reflexivity|]. split; [reflexivity|].
  intros (pre & suf & H). vm_compute in H.
  destruct pre as [|? [|? [|? [|? [|? ?]]]]]; simplify_eq/=.
Qed.

(** C8 (amended): for every alignment pair returned by [smith_waterman],
    if [sequence1] does not contain the gap symbol then deleting the gap
    symbols of [alignment1] leaves a contiguous substring of [sequence1], and
    if [sequence2] does not contain the gap symbol then deleting the gap
    symbols of [alignment2] leaves a contiguous substring of [sequence2]. *)
Theorem alignments_are_substrings (sequence1 sequence2 : list ascii) (sch : ScoringScheme)
    (best : Q) (alignments : list alignment) (alignment1 alignment2 : list ascii) :
  smith_waterman sequence1 sequence2 sch = Some (Ok (best, alignments)) →
  (alignment1, alignment2) ∈ alignments →
  (gap ∉ sequence1 → substring_of (degap alignment1) sequence1)
  ∧ (gap ∉ sequence2 → substring_of (degap alignment2) sequence2).
Proof.
  intros Hsw Hal.
  apply smith_waterman_Ok_inv in Hsw as (A & locs & _ & Hfill & ->).
  split; intros Hgap.
  - by apply (degap_alignment1 _ _ _ _ _ _ Hfill _ _ _ Hgap Hal).
  - by apply (degap_alignment2 _ _ _ _ _ _ Hfill _ _ _ Hgap Hal).
Qed.

Lemma alignments_are_substrings_witness :
  substring_of (degap (py "CACACTA")) (py "ACACACTA")
  ∧ substring_of (degap (py "CACAC-A")) (py "AGCACACA").
Proof.
  destruct (alignments_are_substrings (py "ACACACTA") (py "AGCACACA") default_scheme 5
              [(py "ACACA", py "ACACA"); (py "CACAC", py "CACAC");
               (py "CACACTA", py "CACAC-A")]
              (py "CACACTA") (py "CACAC-A")) as [H1 H2].
  - reflexivity.
  - do 2 apply list_elem_of_further. apply list_elem_of_here.
  - split; [apply H1|apply H2]; vm_compute; intros H;
      repeat (apply elem_of_cons in H as [H|H]; [done|]); by apply elem_of_nil in H.
Defined.

Section distinct.
Variables (sequence1 sequence2 : list ascii) (sch : ScoringScheme).
Variables (A : list (list Q)) (best : Q) (locs : list (nat * nat)).
Hypothesis Hfill : FillInv sequence1 sequence2 sch (all_cells sequence1 sequence2) A best locs.
Hypothesis Hgap1 : gap ∉ sequence1.
Hypothesis Hgap2 : gap ∉ sequence2.

Local Abbreviation next_of' := (next_of sequence1 sequence2 sch A).
Local Abbreviation emit_of' := (emit_of A).
Local Abbreviation trace' := (trace sequence1 sequence2 sch A).

(** A successor extends both strings of its parent by one symbol. *)
Lemma next_of_strings (p q : partial) :
  q ∈ next_of' p →
  (tail q.1.1.1, tail q.1.1.2) = strings_of p
  ∧ length q.1.1.1 = S (length p.1.1.1).
Proof.
  destruct p as [[[al1 al2] i] j]. intros Hq.
  apply (next_of_cases _ _ _ _ _ _ Hfill) in Hq
    as (c1 & c2 & _ & _ & _ & _ & _ & [->|[->| ->]]); done.
Qed.

(** The successors of one partial differ in their strings: the inputs hold
    no gap symbol, so a move is read off the first column. *)
Lemma NoDup_next_of (p : partial) : NoDup (strings_of <$> next_of' p).
Proof.
  destruct p as [[[al1 al2] i] j]. unfold next_of.
  destruct (Qeq_bool (cell A i j) 0); [constructor|].
  destruct (sequence1 !! (i - 1)%nat) as [c1|] eqn:H1; [|constructor].
  destruct (sequence2 !! (j - 1)%nat) as [c2|] eqn:H2; [|constructor].
  destruct (score sch [c1] [c2]) as [s|]; [|constructor].
  assert (c1 ≠ gap) as Hc1.
  { intros ->. apply Hgap1. by eapply list_elem_of_lookup_2. }
  assert (c2 ≠ gap) as Hc2.
  { intros ->. apply Hgap2. by eapply list_elem_of_lookup_2. }
  destruct (Qeq_bool _ _), (Qeq_bool _ _), (Qeq_bool _ _); simpl;
    unfold strings_of; simpl;
    rewrite ?NoDup_cons, ?elem_of_cons, ?elem_of_nil, ?NoDup_nil;
    intuition congruence.
Qed.

Lemma NoDup_flat_next (ps : list partial) :
  NoDup (strings_of <$> ps) → NoDup (strings_of <$> flat_map next_of' ps).
Proof.
  induction ps as [|p ps IH]; intros Hnd; [constructor|].
  simpl in *. apply NoDup_cons in Hnd as [Hp Hps].
  rewrite fmap_app. apply NoDup_app. split_and!.
  - apply NoDup_next_of.
  - intros x Hx Hx'.
    apply list_elem_of_fmap in Hx as (q & -> & Hq).
    apply list_elem_of_fmap in Hx' as (q' & Heq & Hq').
    apply list_elem_of_In, in_flat_map in Hq' as (p' & Hp'%list_elem_of_In & Hq'%list_elem_of_In).
    apply next_of_strings in Hq as [Hq _], Hq' as [Hq' _].
    apply Hp. apply list_elem_of_fmap. exists p'. split; [|done].
    rewrite <- Hq, <- Hq'. unfold strings_of in Heq.
    injection Heq as E1 E2. by rewrite E1, E2.
  - by apply IH.
Qed.

Lemma NoDup_flat_emit (ps : list partial) :
  NoDup (strings_of <$> ps) → NoDup (flat_map emit_of' ps).
Proof.
  induction ps as [|p ps IH]; intros Hnd; [constructor|].
  simpl in *. apply NoDup_cons in Hnd as [Hp Hps].
  apply NoDup_app. split_and!.
  - destruct p as [[[al1 al2] i] j]. unfold emit_of.
    destruct (Qeq_bool _ _); [apply NoDup_singleton|constructor].
  - intros x Hx%elem_of_emit_of Hx'. subst x. apply Hp.
    apply list_elem_of_In, in_flat_map in Hx' as (p' & Hp'%list_elem_of_In & Hx'%list_elem_of_In).
    apply elem_of_emit_of in Hx'. rewrite Hx'. by apply list_elem_of_fmap_2.
  - by apply IH.
Qed.

(** Partials whose strings are distinct and of one length emit distinct
    alignments: a round emits strings of that length, later rounds longer
    ones. *)
Lemma trace_NoDup (fuel : nat) (ps : list partial) (L : nat) :
  NoDup (strings_of <$> ps) → (∀ p, p ∈ ps → length p.1.1.1 = L) →
  NoDup (trace' fuel ps) ∧ ∀ al, al ∈ trace' fuel ps → (L ≤ length al.1)%nat.
Proof.
  revert ps L. induction fuel as [|fuel IH]; intros ps L Hnd Hlen.
  { split; [constructor|]. intros al []%elem_of_nil. }
  destruct (IH (flat_map next_of' ps) (S L)) as [IH1 IH2].
  { by apply NoDup_flat_next. }
  { intros q Hq%list_elem_of_In%in_flat_map.
    destruct Hq as (p & Hp%list_elem_of_In & Hq%list_elem_of_In).
    apply next_of_strings in Hq as [_ ->]. f_equal. by apply Hlen. }
  assert (Hemit : ∀ al, al ∈ flat_map emit_of' ps → length al.1 = L).
  { intros al Hal%list_elem_of_In%in_flat_map.
    destruct Hal as (p & Hp%list_elem_of_In & Hal%list_elem_of_In).
    apply elem_of_emit_of in Hal as ->. by apply Hlen. }
  simpl. split.
  - apply NoDup_app. split_and!; [by apply NoDup_flat_emit| |done].
    intros al Hal Hal'. apply Hemit in Hal. apply IH2 in Hal'. lia.
  - intros al [Hal|Hal]%elem_of_app.
    + apply Hemit in Hal. lia.
    + apply IH2 in Hal. lia.
Qed.

Lemma trace_single_NoDup (fuel i j : nat) :
  NoDup (trace' fuel (initial_partials [(i, j)])).
Proof.
  apply (trace_NoDup fuel _ 0).
  - simpl. apply NoDup_singleton.
  - by intros p ->%list_elem_of_singleton.
Qed.
End distinct.

(** The rounds treat the partials independently of one another. *)
Lemma trace_app (sequence1 sequence2 : list ascii) (sch : ScoringScheme)
    (A : list (list Q)) (fuel : nat) (ps qs : list partial) :
  trace sequence1 sequence2 sch A fuel (ps ++ qs)
  ≡ₚ trace sequence1 sequence2 sch A fuel ps ++ trace sequence1 sequence2 sch A fuel qs.
Proof.
  revert ps qs. induction fuel as [|fuel IH]; intros ps qs; [done|].
  simpl. rewrite !flat_map_app, IH.
  rewrite <- !app_assoc. f_equiv.
  rewrite !app_assoc. f_equiv. apply Permutation_app_comm.
Qed.

Lemma trace_per_location (sequence1 sequence2 : list ascii) (sch : ScoringScheme)
    (A : list (list Q)) (fuel : nat) (ls : list (nat * nat)) :
  trace sequence1 sequence2 sch A fuel (initial_partials ls)
  ≡ₚ concat ((λ loc, trace sequence1 sequence2 sch A fuel (initial_partials [loc])) <$> ls).
Proof.
  induction ls as [|loc ls IH].
  - simpl. by rewrite trace_nil.
  - change (initial_partials (loc :: ls))
      with (initial_partials [loc] ++ initial_partials ls).
    by rewrite trace_app, IH.
Qed.

(** C2, as the claim states it, fails: the result is a list, and a pair
    reached from two best locations is returned twice. *)
Lemma same_alignment_returned_twice :
  smith_waterman (py "A") (py "AA") default_scheme
  = Some (Ok (1, [(py "A", py "A"); (py "A", py "A")]))
  ∧ ¬ NoDup [(py "A", py "A"); (py "A", py "A")].
Proof.
  split; [reflexivity|].
  intros [H _]%NoDup_cons. apply H, list_elem_of_here.
Qed.

(** C2 (amended): when neither input contains the gap symbol, the returned
    list is, up to order, the concatenation over the best locations of the
    alignments traced back from each of them, and the alignments traced back
    from one best location are pairwise distinct.  So a pair occurs at most
    once per best location, and the result has no duplicates when the best
    score is attained at a single cell. *)
Theorem alignments_distinct_per_best_location (sequence1 sequence2 : list ascii)
    (sch : ScoringScheme) (best : Q) (alignments : list alignment) :
  gap ∉ sequence1 → gap ∉ sequence2 →
  smith_waterman sequence1 sequence2 sch = Some (Ok (best, alignments)) →
  ∃ A locs per,
    populate sequence1 sequence2 sch = Ok (A, best, locs)
    ∧ Forall2 (λ loc als,
         backtrace (length sequence1 + length sequence2 + 2) A sequence1 sequence2
           sch (gap_penalty sch) (initial_partials [loc]) []
         = Some (Ok als)
         ∧ NoDup als) locs per
    ∧ alignments ≡ₚ concat per
    ∧ (length locs = 1%nat → NoDup alignments).
Proof.
  intros Hgap1 Hgap2 Hsw.
  apply smith_waterman_Ok_inv in Hsw as (A & locs & Hpop & Hfill & ->).
  set (fuel := (length sequence1 + length sequence2 + 2)%nat).
  set (from := λ loc, trace sequence1 sequence2 sch A fuel (initial_partials [loc])).
  exists A, locs, (from <$> locs). split_and!.
  - done.
  - apply Forall2_fmap_r, Forall_Forall2_diag, Forall_forall.
    intros [i j] Hloc. split.
    + rewrite (backtrace_trace _ _ _ _ _ _ Hfill); [done|].
      apply initial_partials_in_range; [|lia].
      intros a b [= -> ->]%list_elem_of_singleton.
      apply (fi_interior _ _ _ _ _ _ _ Hfill).
      rewrite (fi_locs _ _ _ _ _ _ _ Hfill) in Hloc.
      by apply list_elem_of_filter in Hloc as [_ ?].
    + by apply (trace_single_NoDup _ _ _ _ _ _ Hfill).
  - apply trace_per_location.
  - intros Hone. destruct locs as [|[i j] [|? ?]]; try done.
    by apply (trace_single_NoDup _ _ _ _ _ _ Hfill).
Qed.

Lemma alignments_distinct_per_best_location_witness :
  ∃ A locs per,
    populate (py "A") (py "AA") default_scheme = Ok (A, 1, locs)
    ∧ Forall2 (λ loc als,
         backtrace (length (py "A") + length (py "AA") + 2) A (py "A") (py "AA")
           default_scheme (gap_penalty default_scheme) (initial_partials [loc]) []
         = Some (Ok als)
         ∧ NoDup als) locs per
    ∧ [(py "A", py "A"); (py "A", py "A")] ≡ₚ concat per
    ∧ (length locs = 1%nat → NoDup [(py "A", py "A"); (py "A", py "A")]).
Proof.
  apply (alignments_distinct_per_best_location (py "A") (py "AA") default_scheme).
  - vm_compute. intros H.
    repeat (apply elem_of_cons in H as [H|H]; [done|]); by apply elem_of_nil in H.
  - vm_compute. intros H.
    repeat (apply elem_of_cons in H as [H|H]; [done|]); by apply elem_of_nil in H.
  - reflexivity.
Defined.

(** ** C9 and C4: loading a matrix *)

Lemma for_each_keep_app {X S : Type} (body : X → S → S * option exn)
    (xs ys : list X) (st : S) :
  for_each_keep body (xs ++ ys) st
  = match for_each_keep body xs st with
    | (st', None) => for_each_keep body ys st'
    | (st', Some e) => (st', Some e)
    end.
Proof.
  revert st. induction xs as [|x xs IH]; intros st; simpl; [done|].
  destruct (body x st) as [st' [e|]]; [done|apply IH].
Qed.

Lemma cell_zeros (n i j : nat) : cell (zeros n) i j = 0.
Proof. apply cell_replicate. Qed.

Lemma matrix_get_cell (mx : list (list Q)) (n i j : nat) :
  dims mx n n → (i < n)%nat → (j < n)%nat → matrix_get mx i j = Ok (cell mx i j).
Proof. apply A_get_ok. Qed.

Section load_matrix_facts.
Variable float : list ascii → option Q.
Variables (idx : gmap (list ascii) nat) (n : nat).

(** A data line the loader accepts: a known symbol whose row exists,
    followed by at most [n] numeric fields. *)
Definition row_ok (line : list ascii) : Prop :=
  ∃ symbol vals i,
    split line = symbol :: vals ∧ idx !! symbol = Some i ∧ (i < n)%nat
    ∧ (length vals ≤ n)%nat ∧ Forall (λ val, is_Some (float val)) vals.

(** The line supplies a value for entry [(a, b)]. *)
Definition supplies (line : list ascii) (a b : nat) : Prop :=
  ∃ symbol vals,
    split line = symbol :: vals ∧ idx !! symbol = Some a ∧ (b < length vals)%nat.

(** What the lines [lines] leave in entry [(a, b)] of a matrix of zeros: the
    value that [float] reads from the field of the last line that supplies
    the entry, or the 0.0 of [np.zeros] when no line supplies it. *)
Definition stored_by (lines : list (list ascii)) (a b : nat) (q : Q) : Prop :=
  ((∀ line, line ∈ lines → ¬ supplies line a b) ∧ q = 0)
  ∨ ∃ before line after symbol vals val,
      lines = before ++ line :: after
      ∧ split line = symbol :: vals ∧ idx !! symbol = Some a
      ∧ vals !! b = Some val ∧ float val = Some q
      ∧ ∀ l, l ∈ after → ¬ supplies l a b.

Lemma store_values_ok (i : nat) (vals : list (list ascii)) (o : nat) (mx : list (list Q)) :
  dims mx n n → (i < n)%nat → (o + length vals ≤ n)%nat →
  Forall (λ val, is_Some (float val)) vals →
  ∃ mx',
    for_each_keep (store_value float i) (zip (seq o (length vals)) vals) mx = (mx', None)
    ∧ dims mx' n n
    ∧ (∀ a b, ¬ (a = i ∧ (o ≤ b < o + length vals)%nat) → cell mx' a b = cell mx a b)
    ∧ (∀ k val v, vals !! k = Some val → float val = Some v →
         cell mx' i (o + k) = v).
Proof.
  revert o mx. induction vals as [|val vals IH]; intros o mx Hd Hi Ho Hvals.
  { by exists mx. }
  apply Forall_cons in Hvals as [[v Hv] Hvals]. simpl in *.
  rewrite Hv.
  destruct (A_set_ok mx n n i o v) as (mx1 & -> & Hd1 & Hc1 & Ho1); [done|lia..|].
  destruct (IH (S o) mx1) as (mx' & -> & Hd' & Ho' & Hc'); [done|done|lia|done|].
  exists mx'. split_and!; try done.
  - intros a b Hab. rewrite Ho' by lia. apply Ho1. intros [= -> ->]. lia.
  - intros [|k] val' v' Hk Hv'; simpl in Hk.
    + simplify_eq. rewrite Nat.add_0_r, Ho' by lia. done.
    + replace (o + S k)%nat with (S o + k)%nat by lia. by eapply Hc'.
Qed.

Lemma load_row_ok (line : list ascii) (mx : list (list Q)) :
  dims mx n n → row_ok line →
  ∃ mx',
    load_row float idx line mx = (mx', None)
    ∧ dims mx' n n
    ∧ ∀ a b, ¬ supplies line a b → cell mx' a b = cell mx a b.
Proof.
  intros Hd (symbol & vals & i & Hsplit & Hsym & Hi & Hlen & Hvals).
  unfold load_row. rewrite Hsplit, Hsym.
  destruct (store_values_ok i vals 0 mx) as (mx' & Hrun & Hd' & Ho' & _);
    [done|done|lia|done|].
  exists mx'. split_and!; try done.
  intros a b Hab. apply Ho'. intros [-> Hb]. apply Hab.
  exists symbol, vals. split_and!; [done|done|lia].
Qed.

Lemma load_rows_ok (lines : list (list ascii)) (mx : list (list Q)) :
  dims mx n n → Forall row_ok lines →
  ∃ mx',
    for_each_keep (load_row float idx) lines mx = (mx', None)
    ∧ dims mx' n n
    ∧ ∀ a b, (∀ line, line ∈ lines → ¬ supplies line a b) →
        cell mx' a b = cell mx a b.
Proof.
  revert mx. induction lines as [|line lines IH]; intros mx Hd Hok.
  { by exists mx. }
  apply Forall_cons in Hok as [Hline Hlines]. simpl.
  destruct (load_row_ok line mx Hd Hline) as (mx1 & -> & Hd1 & Ho1).
  destruct (IH mx1 Hd1 Hlines) as (mx' & -> & Hd' & Ho').
  exists mx'. split_and!; try done.
  intros a b Hab. rewrite Ho'.
  - apply Ho1, Hab. by left.
  - intros l Hl. apply Hab. by right.
Qed.

(** A line the loader accepts leaves its values in its row. *)
Lemma load_row_value (line symbol : list ascii) (vals : list (list ascii))
    (mx : list (list Q)) (i k : nat) (val : list ascii) (v : Q) :
  dims mx n n → row_ok line →
  split line = symbol :: vals → idx !! symbol = Some i →
  vals !! k = Some val → float val = Some v →
  ∃ mx', load_row float idx line mx = (mx', None) ∧ dims mx' n n ∧ cell mx' i k = v.
Proof.
  intros Hd (symbol' & vals' & i' & Hsplit' & Hsym' & Hi & Hlen & Hvals)
    Hsplit Hsym Hk Hv.
  rewrite Hsplit in Hsplit'. injection Hsplit' as <- <-.
  rewrite Hsym in Hsym'. injection Hsym' as <-.
  unfold load_row. rewrite Hsplit, Hsym.
  destruct (store_values_ok i vals 0 mx) as (mx' & Hrun & Hd' & _ & Hc);
    [done|done|lia|done|].
  exists mx'. split_and!; try done. by apply (Hc k val v).
Qed.
(** Lines the loader accepts leave in every entry what the last line that
    supplies it holds, and 0 where no line supplies it. *)
Lemma load_rows_stored (lines : list (list ascii)) :
  Forall row_ok lines →
  ∃ mx,
    for_each_keep (load_row float idx) lines (zeros n) = (mx, None)
    ∧ dims mx n n
    ∧ ∀ a b q, stored_by lines a b q → cell mx a b = q.
Proof.
  intros Hok.
  destruct (load_rows_ok lines (zeros n)) as (mx & Hrun & Hd & Hout);
    [apply dims_replicate|done|].
  exists mx. split; [done|]. split; [done|].
  intros a b q [[Hno Hq]|(before & line & after & symbol & vals & val & Hl & Hsplit
                           & Hsym & Hval & Hq & Hafter)].
  - rewrite Hq, (Hout a b Hno). apply cell_zeros.
  - rewrite Hl in Hok, Hrun.
    apply Forall_app in Hok as [Hbefore Hrest].
    apply Forall_cons in Hrest as [Hline Hafter_ok].
    rewrite for_each_keep_app in Hrun.
    destruct (load_rows_ok before (zeros n)) as (mx1 & Hrun1 & Hd1 & _);
      [apply dims_replicate|done|].
    rewrite Hrun1 in Hrun. simpl in Hrun.
    destruct (load_row_value line symbol vals mx1 a b val q)
      as (mx2 & Hrun2 & Hd2 & Hc2); try done.
    rewrite Hrun2 in Hrun.
    destruct (load_rows_ok after mx2) as (mx3 & Hrun3 & Hd3 & Hout3); [done|done|].
    rewrite Hrun3 in Hrun. injection Hrun as <-.
    by rewrite (Hout3 a b Hafter).
Qed.

(** Whatever happens, the matrix keeps its shape. *)
Lemma store_value_dims (i : nat) (jval : nat * list ascii) (mx : list (list Q)) :
  dims mx n n → dims (store_value float i jval mx).1 n n.
Proof.
  intros Hd. destruct jval as [j val]. unfold store_value.
  destruct (float val) as [v|]; [|done].
  unfold A_set. destruct (mx !! i) as [r|] eqn:Hr; [|done].
  case_bool_decide as Hj; [|done]. simpl.
  destruct (A_set_ok mx n n i j v) as (mx' & Hset & Hd' & _); [done| | |].
  - by apply lookup_lt_Some in Hr; destruct Hd as [<- _].
  - destruct Hd as [_ Hd]. by rewrite <- (Hd _ _ Hr).
  - unfold A_set in Hset. rewrite Hr, bool_decide_eq_true_2 in Hset by done.
    by simplify_eq.
Qed.

Lemma for_each_keep_preserves {X S : Type} (body : X → S → S * option exn)
    (P : S → Prop) (xs : list X) (st : S) :
  (∀ x s, P s → P (body x s).1) → P st → P (for_each_keep body xs st).1.
Proof.
  intros Hbody. revert st. induction xs as [|x xs IH]; intros st Hst; [done|].
  simpl. specialize (Hbody x st Hst).
  destruct (body x st) as [st' [e|]]; [done|by apply IH].
Qed.

Lemma load_row_dims (line : list ascii) (mx : list (list Q)) :
  dims mx n n → dims (load_row float idx line mx).1 n n.
Proof.
  intros Hd. unfold load_row.
  destruct (split line) as [|symbol row]; [done|].
  destruct (idx !! symbol) as [i|]; [|done].
  apply for_each_keep_preserves; [|done].
  intros jval s. apply store_value_dims.
Qed.

Lemma load_rows_dims (lines : list (list ascii)) (mx : list (list Q)) :
  dims mx n n → dims (for_each_keep (load_row float idx) lines mx).1 n n.
Proof.
  intros Hd. apply (for_each_keep_preserves _ (λ s, dims s n n)); [|done].
  intros line s. apply load_row_dims.
Qed.
End load_matrix_facts.

Lemma skip_comments_raises (headline : list ascii) (f : list (list ascii)) (e : exn) :
  skip_comments headline f = Raise e → e = IndexError.
Proof.
  revert headline. induction f as [|line f IH]; intros headline.
  - destruct headline as [|c ?]; simpl; [congruence|].
    case_bool_decide; congruence.
  - destruct headline as [|c ?]; simpl; [congruence|].
    case_bool_decide; [apply IH|congruence].
Qed.

Lemma read_header_raises (f : list (list ascii)) (e : exn) :
  read_header f = Raise e → e = IndexError.
Proof.
  unfold read_header. destruct (readline f). apply skip_comments_raises.
Qed.

(** [load_matrix] once the header has been read. *)
Lemma load_matrix_header (float : list ascii → option Q) (f : list (list ascii))
    (self : ScoringScheme) (headline : list ascii) (rows : list (list ascii)) :
  read_header f = Ok (headline, rows) →
  load_matrix float f self
  = (mkScoringScheme (match_score self) (mismatch_penalty self) (gap_penalty self)
       (gap_start_penalty self) (Some (header_index headline))
       (Some (for_each_keep (load_row float (header_index headline)) rows
                (zeros (size (header_index headline)))).1),
     (for_each_keep (load_row float (header_index headline)) rows
        (zeros (size (header_index headline)))).2).
Proof.
  intros Hh. unfold load_matrix. rewrite Hh.
  by destruct (for_each_keep _ _ _).
Qed.

Lemma score_matrix_entry (sch : ScoringScheme) (idx : gmap (list ascii) nat)
    (mx : list (list Q)) (n : nat) (a b : ascii) (ia ib : nat) :
  scoring_matrix sch = Some mx → index_by_symbol sch = Some idx → dims mx n n →
  a ≠ gap → b ≠ gap → idx !! [a] = Some ia → idx !! [b] = Some ib →
  (ia < n)%nat → (ib < n)%nat →
  score sch [a] [b] = Ok (0 + cell mx ia ib).
Proof.
  intros Hm Hidx Hd Ha Hb Hia Hib Hlta Hltb.
  rewrite score_single. unfold score_column.
  rewrite (bool_decide_eq_false_2 (a = gap)) by done.
  rewrite (bool_decide_eq_false_2 (b = gap)) by done. simpl.
  rewrite Hm, Hidx, Hia, Hib.
  by rewrite (matrix_get_cell mx n) by done.
Qed.

(** C9: a matrix file whose data lines leave out the rows of some header
    symbols, or give a row fewer values than the header has symbols, loads
    without an exception; every entry of the matrix that no line supplies
    keeps the 0.0 of [np.zeros], and scoring the two symbols of such an entry
    returns 0.0. *)
Theorem missing_entries_default_to_zero (float : list ascii → option Q)
    (f : list (list ascii)) (self : ScoringScheme)
    (headline : list ascii) (rows : list (list ascii)) :
  read_header f = Ok (headline, rows) →
  Forall (row_ok float (header_index headline) (size (header_index headline))) rows →
  ∃ sch,
    load_matrix float f self = (sch, None)
    ∧ index_by_symbol sch = Some (header_index headline)
    ∧ ∀ a b ia ib,
        a ≠ gap → b ≠ gap →
        header_index headline !! [a] = Some ia →
        header_index headline !! [b] = Some ib →
        (ia < size (header_index headline))%nat →
        (ib < size (header_index headline))%nat →
        (∀ line, line ∈ rows → ¬ supplies (header_index headline) line ia ib) →
        ∃ q, score sch [a] [b] = Ok q ∧ q == 0.
Proof.
  intros Hh Hrows. rewrite (load_matrix_header float f self headline rows Hh).
  set (idx := header_index headline) in *. set (n := size idx) in *.
  destruct (load_rows_ok float idx n rows (zeros n)) as (mx & Hrun & Hd & Hout);
    [apply dims_replicate|done|].
  rewrite Hrun. simpl. eexists. split; [reflexivity|]. split; [done|].
  intros a b ia ib Ha Hb Hia Hib Hlta Hltb Hmiss.
  rewrite (score_matrix_entry _ idx mx n a b ia ib) by done.
  eexists. split; [reflexivity|].
  rewrite (Hout ia ib Hmiss), cell_zeros. lra.
Qed.

Lemma missing_entries_default_to_zero_witness :
  ∃ sch,
    load_matrix decimal_float [py "A B C" ++ nl; py "A 1 2" ++ nl] default_scheme
    = (sch, None)
    ∧ (∃ q, score sch (py "B") (py "A") = Ok q ∧ q == 0)
    ∧ (∃ q, score sch (py "A") (py "C") = Ok q ∧ q == 0).
Proof.
  destruct (missing_entries_default_to_zero decimal_float
              [py "A B C" ++ nl; py "A 1 2" ++ nl] default_scheme
              (py "A B C" ++ nl) [py "A 1 2" ++ nl])
    as (sch & Hload & _ & Hscore).
  - reflexivity.
  - apply Forall_singleton. exists (py "A"), [py "1"; py "2"], 0%nat.
    split_and!; [reflexivity|reflexivity|vm_compute; lia|vm_compute; lia|].
    repeat constructor; by eexists.
  - exists sch. split; [done|]. split.
    + apply (Hscore "B"%char "A"%char 1%nat 0%nat);
        [done|done|reflexivity|reflexivity|vm_compute; lia|vm_compute; lia|].
      intros line ->%list_elem_of_singleton (symbol & vals & Hs & Hi & _).
      vm_compute in Hs. injection Hs as <- <-. vm_compute in Hi. discriminate.
    + apply (Hscore "A"%char "C"%char 0%nat 2%nat);
        [done|done|reflexivity|reflexivity|vm_compute; lia|vm_compute; lia|].
      intros line ->%list_elem_of_singleton (symbol & vals & Hs & _ & Hl).
      vm_compute in Hs. injection Hs as <- <-. simpl in Hl. lia.
Defined.

(** C4, as the claim states it, fails: a non-numeric field in the first data
    line raises [ValueError], and the scheme, which had no matrix, is left
    with the index of the new header and with a matrix that holds the value
    read before the bad field.  A header line without symbols does not make
    the load fail either. *)
Lemma load_matrix_keeps_partial_matrix :
  (∃ sch,
     load_matrix decimal_float [py "A B" ++ nl; py "A 1 x" ++ nl] default_scheme
     = (sch, Some ValueError)
     ∧ index_by_symbol sch = Some (header_index (py "A B" ++ nl))
     ∧ scoring_matrix sch = Some [[1; 0]; [0; 0]]
     ∧ index_by_symbol sch ≠ index_by_symbol default_scheme
     ∧ scoring_matrix sch ≠ scoring_matrix default_scheme)
  ∧ (load_matrix decimal_float [nl] default_scheme).2 = None.
Proof.
  split; [|reflexivity].
  eexists. split; [reflexivity|]. split; [reflexivity|]. split; [reflexivity|].
  split; discriminate.
Qed.

(** C4 (amended): [load_matrix] fails fast, but it is atomic only when no
    header line is found: then it raises [IndexError] and leaves the scheme
    unchanged.  Once the header line has been read, [index_by_symbol] is the
    index of the new header and [scoring_matrix] is a new square matrix,
    whether or not a later line fails.  The first data line whose symbol is
    not in the header raises [KeyError]; the first non-numeric field raises
    [ValueError].  In both cases the values stored before the failure stay
    in the matrix: every entry holds what the lines before the failing one
    stored in it (the field of the last of them that supplies the entry, or
    0.0 when none does), except that after a [ValueError] the entries of the
    failing line's row hold the fields of that line read before the bad
    one. *)
Theorem load_matrix_failure (float : list ascii → option Q)
    (f : list (list ascii)) (self : ScoringScheme) :
  (∀ e, read_header f = Raise e →
     e = IndexError ∧ load_matrix float f self = (self, Some e))
  ∧ (∀ headline rows, read_header f = Ok (headline, rows) →
       (∃ mx e,
          load_matrix float f self
          = (mkScoringScheme (match_score self) (mismatch_penalty self)
               (gap_penalty self) (gap_start_penalty self)
               (Some (header_index headline)) (Some mx), e)
          ∧ dims mx (size (header_index headline)) (size (header_index headline)))
       ∧ (∀ good bad rest symbol vals,
            rows = good ++ bad :: rest →
            Forall (row_ok float (header_index headline) (size (header_index headline)))
              good →
            split bad = symbol :: vals →
            header_index headline !! symbol = None →
            (load_matrix float f self).2 = Some KeyError
            ∧ ∃ mx,
                scoring_matrix (load_matrix float f self).1 = Some mx
                ∧ ∀ a b q, stored_by float (header_index headline) good a b q →
                    cell mx a b = q)
       ∧ (∀ good bad rest symbol okvals val vals i,
            rows = good ++ bad :: rest →
            Forall (row_ok float (header_index headline) (size (header_index headline)))
              good →
            split bad = symbol :: okvals ++ val :: vals →
            header_index headline !! symbol = Some i →
            (i < size (header_index headline))%nat →
            (length okvals ≤ size (header_index headline))%nat →
            Forall (λ v, is_Some (float v)) okvals →
            float val = None →
            (load_matrix float f self).2 = Some ValueError
            ∧ ∃ mx,
                scoring_matrix (load_matrix float f self).1 = Some mx
                ∧ (∀ k v w, okvals !! k = Some v → float v = Some w →
                     cell mx i k = w)
                ∧ (∀ a b q, ¬ (a = i ∧ (b < length okvals)%nat) →
                     stored_by float (header_index headline) good a b q →
                     cell mx a b = q))).
Proof.
  split.
  - intros e He. split; [by eapply read_header_raises|].
    unfold load_matrix. by rewrite He.
  - intros headline rows Hh.
    rewrite (load_matrix_header float f self headline rows Hh).
    set (idx := header_index headline). set (n := size idx).
    split_and!.
    + eexists _, _. split; [reflexivity|].
      apply load_rows_dims, dims_replicate.
    + intros good bad rest symbol vals -> Hgood Hsplit Hsym. simpl.
      destruct (load_rows_stored float idx n good Hgood) as (mx & Hrun & _ & Hst).
      rewrite for_each_keep_app, Hrun. simpl.
      unfold load_row. rewrite Hsplit, Hsym. simpl.
      split; [done|]. by exists mx.
    + intros good bad rest symbol okvals val vals i -> Hgood Hsplit Hsym Hi Hlen
        Hok Hval. simpl.
      destruct (load_rows_stored float idx n good Hgood) as (mx & Hrun & Hd & Hst).
      rewrite for_each_keep_app, Hrun. simpl.
      unfold load_row at 1 3. rewrite Hsplit, Hsym.
      unfold enumerate. rewrite length_app. simpl.
      rewrite seq_app, zip_with_app by (by rewrite length_seq).
      rewrite for_each_keep_app.
      destruct (store_values_ok float n i okvals 0 mx) as (mx' & -> & _ & Hout & Hc);
        [done|done|lia|done|].
      simpl. rewrite Hval. simpl. split; [done|].
      exists mx'. split; [done|]. split.
      * intros k v w Hk Hv. by apply (Hc k v w).
      * intros a b q Hab Hq. rewrite Hout; [by apply Hst|].
        intros [-> ?]. apply Hab. split; [done|lia].
Qed.

Lemma load_matrix_failure_witness :
  (IndexError = IndexError
   ∧ load_matrix decimal_float [py "# no header" ++ nl] default_scheme
     = (default_scheme, Some IndexError))
  ∧ ((load_matrix decimal_float
        [py "A B" ++ nl; py "A 1 2" ++ nl; py "C 3 4" ++ nl] default_scheme).2
     = Some KeyError
     ∧ ∃ mx,
         scoring_matrix
           (load_matrix decimal_float
              [py "A B" ++ nl; py "A 1 2" ++ nl; py "C 3 4" ++ nl] default_scheme).1
         = Some mx
         ∧ cell mx 0 1 = 2 ∧ cell mx 1 0 = 0)
  ∧ ((load_matrix decimal_float
        [py "A B" ++ nl; py "A 1 2" ++ nl; py "B 7 x" ++ nl] default_scheme).2
     = Some ValueError
     ∧ ∃ mx,
         scoring_matrix
           (load_matrix decimal_float
              [py "A B" ++ nl; py "A 1 2" ++ nl; py "B 7 x" ++ nl] default_scheme).1
         = Some mx
         ∧ cell mx 1 0 = 7 ∧ cell mx 0 1 = 2 ∧ cell mx 1 1 = 0).
Proof.
  assert (Forall (row_ok decimal_float (header_index (py "A B" ++ nl))
                    (size (header_index (py "A B" ++ nl)))) [py "A 1 2" ++ nl])
    as Hgood.
  { apply Forall_singleton. exists (py "A"), [py "1"; py "2"], 0%nat.
    split_and!; [reflexivity|reflexivity|vm_compute; lia|vm_compute; lia|].
    repeat constructor; by eexists. }
  assert (∀ a b, ¬ supplies (header_index (py "A B" ++ nl)) (py "A 1 2" ++ nl) a b
                 ↔ ¬ (a = 0%nat ∧ (b < 2)%nat)) as Hsup.
  { intros a b. split; intros Hno.
    - intros [-> Hb]. apply Hno. exists (py "A"), [py "1"; py "2"].
      split_and!; [reflexivity|reflexivity|done].
    - intros (symbol & vals & Hs & Hi & Hl). apply Hno.
      vm_compute in Hs. injection Hs as <- <-. vm_compute in Hi.
      injection Hi as <-. done. }
  assert (stored_by decimal_float (header_index (py "A B" ++ nl))
            [py "A 1 2" ++ nl] 0 1 2) as H01.
  { right. exists [], (py "A 1 2" ++ nl), [], (py "A"), [py "1"; py "2"], (py "2").
    split_and!; try reflexivity. by intros l ?%elem_of_nil. }
  assert (∀ b, stored_by decimal_float (header_index (py "A B" ++ nl))
                 [py "A 1 2" ++ nl] 1 b 0) as H1.
  { intros b. left. split; [|done].
    intros line ->%list_elem_of_singleton. apply Hsup. lia. }
  split; [|split].
  - apply (proj1 (load_matrix_failure decimal_float [py "# no header" ++ nl]
                    default_scheme)).
    reflexivity.
  - destruct (proj1 (proj2 (proj2 (load_matrix_failure decimal_float
                                     [py "A B" ++ nl; py "A 1 2" ++ nl; py "C 3 4" ++ nl]
                                     default_scheme)
                              (py "A B" ++ nl) [py "A 1 2" ++ nl; py "C 3 4" ++ nl]
                              eq_refl))
                [py "A 1 2" ++ nl] (py "C 3 4" ++ nl) [] (py "C") [py "3"; py "4"])
      as (He & mx & Hmx & Hst);
      [reflexivity|exact Hgood|reflexivity|reflexivity|].
    split; [exact He|]. exists mx. split; [exact Hmx|]. split.
    + by apply Hst.
    + by apply Hst.
  - destruct (proj2 (proj2 (proj2 (load_matrix_failure decimal_float
                                     [py "A B" ++ nl; py "A 1 2" ++ nl; py "B 7 x" ++ nl]
                                     default_scheme)
                              (py "A B" ++ nl) [py "A 1 2" ++ nl; py "B 7 x" ++ nl]
                              eq_refl))
                [py "A 1 2" ++ nl] (py "B 7 x" ++ nl) [] (py "B") [py "7"] (py "x") []
                1%nat)
      as (He & mx & Hmx & Hrow & Hst);
      [reflexivity|exact Hgood|reflexivity|reflexivity|vm_compute; lia
      |vm_compute; lia| |reflexivity|].
    { repeat constructor. by eexists. }
    split; [exact He|]. exists mx. split; [exact Hmx|]. split; [|split].
    + by apply (Hrow 0%nat (py "7") 7).
    + apply Hst; [lia|done].
    + apply Hst; [simpl; lia|done].
Defined.

(** * Further properties of the engine *)

(** X1: the [while len(partials) > 0] loop of the backtrace always finishes:
    for every pair of sequences and every scheme, [smith_waterman] returns
    or raises within the [len(sequence1) + len(sequence2) + 2] rounds the
    model allows, because every move lowers [i + j] and row 0 and column 0
    hold 0. *)
Theorem backtrace_always_finishes (sequence1 sequence2 : list ascii) (sch : ScoringScheme) :
  smith_waterman sequence1 sequence2 sch ≠ None.
Proof.
  pose proof (smith_waterman_outcome sequence1 sequence2 sch) as H.
  destruct (populate sequence1 sequence2 sch) as [[[A best] locs]|e];
    by rewrite H.
Qed.

Lemma populate_Ok_inv (sequence1 sequence2 : list ascii) (sch : ScoringScheme)
    (A : list (list Q)) (best : Q) (locs : list (nat * nat)) :
  populate sequence1 sequence2 sch = Ok (A, best, locs) →
  FillInv sequence1 sequence2 sch (all_cells sequence1 sequence2) A best locs.
Proof.
  intros Hpop. pose proof (populate_outcome sequence1 sequence2 sch) as H.
  by rewrite Hpop in H.
Qed.

Lemma A_get_cell (A : list (list Q)) (i j : nat) (v : Q) :
  A_get A i j = Ok v → cell A i j = v.
Proof. unfold cell. by intros ->. Qed.

(** X2: after the fill the matrix has [len(sequence1) + 1] rows of
    [len(sequence2) + 1] entries, row 0 and column 0 hold 0, and no entry is
    negative. *)
Theorem dp_matrix_shape_and_floor (sequence1 sequence2 : list ascii) (sch : ScoringScheme)
    (A : list (list Q)) (best : Q) (locs : list (nat * nat)) :
  populate sequence1 sequence2 sch = Ok (A, best, locs) →
  length A = (length sequence1 + 1)%nat
  ∧ (∀ row, row ∈ A → length row = (length sequence2 + 1)%nat)
  ∧ (∀ j, (j ≤ length sequence2)%nat → A_get A 0 j = Ok 0)
  ∧ (∀ i, (i ≤ length sequence1)%nat → A_get A i 0 = Ok 0)
  ∧ (∀ i j v, A_get A i j = Ok v → 0 <= v).
Proof.
  intros Hfill%populate_Ok_inv.
  pose proof (fi_dims _ _ _ _ _ _ _ Hfill) as Hd.
  split_and!.
  - apply Hd.
  - intros row [i Hi]%list_elem_of_lookup. by apply (proj2 Hd i).
  - intros j Hj. rewrite (A_get_ok A _ _ 0 j Hd) by lia.
    f_equal. apply (populate_boundary _ _ _ _ _ _ Hfill). by left.
  - intros i Hi. rewrite (A_get_ok A _ _ i 0 Hd) by lia.
    f_equal. apply (populate_boundary _ _ _ _ _ _ Hfill). by right.
  - intros i j v <-%A_get_cell. apply (cell_nonneg _ _ _ _ _ _ Hfill).
Qed.

Lemma dp_matrix_shape_and_floor_witness :
  length [[0; 0]; [0; 0]; [0; 1]] = (length (py "-A") + 1)%nat
  ∧ (∀ row, row ∈ [[0; 0]; [0; 0]; [0; 1]] → length row = (length (py "A") + 1)%nat)
  ∧ (∀ j, (j ≤ length (py "A"))%nat → A_get [[0; 0]; [0; 0]; [0; 1]] 0 j = Ok 0)
  ∧ (∀ i, (i ≤ length (py "-A"))%nat → A_get [[0; 0]; [0; 0]; [0; 1]] i 0 = Ok 0)
  ∧ (∀ i j v, A_get [[0; 0]; [0; 0]; [0; 1]] i j = Ok v → 0 <= v).
Proof.
  apply (dp_matrix_shape_and_floor (py "-A") (py "A") default_scheme
           [[0; 0]; [0; 0]; [0; 1]] 1 [(2, 1)%nat]).
  reflexivity.
Defined.

(** X3: after the fill every interior cell holds the value of the recurrence
    on the finished matrix: the maximum of the diagonal neighbour plus the
    pairwise score of the two symbols, the upper and the left neighbour plus
    the gap penalty, and 0. *)
Theorem dp_matrix_recurrence (sequence1 sequence2 : list ascii) (sch : ScoringScheme)
    (A : list (list Q)) (best : Q) (locs : list (nat * nat)) (i j : nat) :
  populate sequence1 sequence2 sch = Ok (A, best, locs) →
  (1 ≤ i ≤ length sequence1)%nat → (1 ≤ j ≤ length sequence2)%nat →
  ∃ c1 c2 s d u l,
    sequence1 !! (i - 1)%nat = Some c1 ∧ sequence2 !! (j - 1)%nat = Some c2
    ∧ score sch [c1] [c2] = Ok s
    ∧ A_get A (i - 1) (j - 1) = Ok d ∧ A_get A (i - 1) j = Ok u
    ∧ A_get A i (j - 1) = Ok l
    ∧ A_get A i j
      = Ok (max4 (d + s) (u + gap_penalty sch) (l + gap_penalty sch) 0).
Proof.
  intros Hfill%populate_Ok_inv Hi Hj.
  pose proof (fi_dims _ _ _ _ _ _ _ Hfill) as Hd.
  destruct (fi_rec _ _ _ _ _ _ _ Hfill i j) as (c1 & c2 & s & H1 & H2 & Hs & Hc).
  { apply elem_of_rows. lia. }
  exists c1, c2, s, (cell A (i - 1) (j - 1)), (cell A (i - 1) j), (cell A i (j - 1)).
  split_and!; try done.
  - apply (A_get_ok A _ _ _ _ Hd); lia.
  - apply (A_get_ok A _ _ _ _ Hd); lia.
  - apply (A_get_ok A _ _ _ _ Hd); lia.
  - rewrite <- Hc. apply (A_get_ok A _ _ _ _ Hd); lia.
Qed.

Lemma dp_matrix_recurrence_witness :
  ∃ c1 c2 s d u l,
    py "-A" !! (2 - 1)%nat = Some c1 ∧ py "A" !! (1 - 1)%nat = Some c2
    ∧ score default_scheme [c1] [c2] = Ok s
    ∧ A_get [[0; 0]; [0; 0]; [0; 1]] (2 - 1) (1 - 1) = Ok d
    ∧ A_get [[0; 0]; [0; 0]; [0; 1]] (2 - 1) 1 = Ok u
    ∧ A_get [[0; 0]; [0; 0]; [0; 1]] 2 (1 - 1) = Ok l
    ∧ A_get [[0; 0]; [0; 0]; [0; 1]] 2 1
      = Ok (max4 (d + s) (u + gap_penalty default_scheme)
              (l + gap_penalty default_scheme) 0).
Proof.
  apply (dp_matrix_recurrence (py "-A") (py "A") default_scheme
           [[0; 0]; [0; 0]; [0; 1]] 1 [(2, 1)%nat] 2 1);
    [reflexivity|simpl; lia|simpl; lia].
Defined.

(** X4: [best_score] is never negative and bounds every entry of the
    matrix; it is the initial 0.0 or the value of an interior cell; and
    [best_locations] lists, in the order of the sweep and without
    repetition, exactly the interior cells whose value equals [best_score]. *)
Theorem best_score_is_maximum (sequence1 sequence2 : list ascii) (sch : ScoringScheme)
    (A : list (list Q)) (best : Q) (locs : list (nat * nat)) :
  populate sequence1 sequence2 sch = Ok (A, best, locs) →
  0 <= best
  ∧ (∀ i j v, A_get A i j = Ok v → v <= best)
  ∧ (best = 0
     ∨ ∃ i j, (1 ≤ i ≤ length sequence1)%nat ∧ (1 ≤ j ≤ length sequence2)%nat
              ∧ A_get A i j = Ok best)
  ∧ locs = filter (λ ij, cell A ij.1 ij.2 == best) (all_cells sequence1 sequence2)
  ∧ NoDup locs.
Proof.
  intros Hfill%populate_Ok_inv.
  pose proof (fi_dims _ _ _ _ _ _ _ Hfill) as Hd.
  split_and!.
  - apply (fi_best_nonneg _ _ _ _ _ _ _ Hfill).
  - intros i j v <-%A_get_cell. apply (cell_le_best _ _ _ _ _ _ Hfill).
  - destruct (fi_best_attained _ _ _ _ _ _ _ Hfill) as [?|(a & b & Hab & Hbest)];
      [by left|right].
    apply elem_of_rows in Hab as [Ha Hb]. exists a, b.
    split; [done|]. split; [done|].
    rewrite Hbest. apply (A_get_ok A _ _ _ _ Hd); lia.
  - apply (fi_locs _ _ _ _ _ _ _ Hfill).
  - rewrite (fi_locs _ _ _ _ _ _ _ Hfill). apply NoDup_filter.
    unfold all_cells, rows.
    generalize (length sequence1). intros k.
    induction k as [|k IH]; [constructor|].
    rewrite seq_S, flat_map_app. simpl. rewrite app_nil_r.
    apply NoDup_app. split_and!; [done| |].
    + intros [a b] Hab%elem_of_rows Hab'%elem_of_row_prefix. lia.
    + apply NoDup_fmap_2; [by intros ?? [= ->]|]. apply NoDup_seq.
Qed.

Lemma best_score_is_maximum_witness :
  0 <= 1
  ∧ (∀ i j v, A_get [[0; 0]; [0; 0]; [0; 1]] i j = Ok v → v <= 1)
  ∧ (1 = 0
     ∨ ∃ i j, (1 ≤ i ≤ length (py "-A"))%nat ∧ (1 ≤ j ≤ length (py "A"))%nat
              ∧ A_get [[0; 0]; [0; 0]; [0; 1]] i j = Ok 1)
  ∧ [(2, 1)%nat]
    = filter (λ ij, cell [[0; 0]; [0; 0]; [0; 1]] ij.1 ij.2 == 1)
        (all_cells (py "-A") (py "A"))
  ∧ NoDup [(2, 1)%nat].
Proof.
  apply (best_score_is_maximum (py "-A") (py "A") default_scheme).
  reflexivity.
Defined.

(** X5: the array accesses of the engine never fail.  [smith_waterman]
    returns a result exactly when the scorer accepts every pair of a symbol
    of [sequence1] and a symbol of [sequence2], and an exception it raises is
    one the scorer raises on such a pair. *)
Theorem smith_waterman_raises_what_score_raises (sequence1 sequence2 : list ascii)
    (sch : ScoringScheme) :
  ((∃ best alignments,
      smith_waterman sequence1 sequence2 sch = Some (Ok (best, alignments)))
   ↔ (∀ c1 c2, c1 ∈ sequence1 → c2 ∈ sequence2 → ∃ s, score sch [c1] [c2] = Ok s))
  ∧ (∀ e, smith_waterman sequence1 sequence2 sch = Some (Raise e) →
       ∃ c1 c2, c1 ∈ sequence1 ∧ c2 ∈ sequence2 ∧ score sch [c1] [c2] = Raise e).
Proof.
  pose proof (smith_waterman_outcome sequence1 sequence2 sch) as Hout.
  pose proof (populate_outcome sequence1 sequence2 sch) as Hpop.
  split; [split|].
  - intros (best & alignments & Hsw) c1 c2 [i Hi]%list_elem_of_lookup
      [j Hj]%list_elem_of_lookup.
    apply smith_waterman_Ok_inv in Hsw as (A & locs & _ & Hfill & _).
    destruct (fi_rec _ _ _ _ _ _ _ Hfill (S i) (S j)) as (d1 & d2 & s & H1 & H2 & Hs & _).
    { apply elem_of_rows. apply lookup_lt_Some in Hi, Hj. lia. }
    simpl in H1, H2. rewrite Nat.sub_0_r in H1, H2. simplify_eq. eauto.
  - intros Hscore.
    destruct (populate_Ok sequence1 sequence2 sch Hscore) as (A & best & locs & Hp & _).
    rewrite Hp in Hout. eauto.
  - intros e Hsw.
    destruct (populate sequence1 sequence2 sch) as [[[A best] locs]|e'].
    + rewrite Hout in Hsw. done.
    + rewrite Hout in Hsw. by simplify_eq.
Qed.

Lemma rows_empty_sequence2 (k : nat) : rows [] k = [].
Proof. induction k as [|k IH]; [done|]. by rewrite rows_S, IH. Qed.

(** X6: when either sequence is empty, [smith_waterman] returns the best
    score 0.0 and no alignment, whatever the scheme. *)
Theorem empty_sequence_result (sequence : list ascii) (sch : ScoringScheme) :
  smith_waterman [] sequence sch = Some (Ok (0, []))
  ∧ smith_waterman sequence [] sch = Some (Ok (0, [])).
Proof.
  split.
  { pose proof (smith_waterman_outcome [] sequence sch) as Hout.
    simpl in Hout. by rewrite trace_nil in Hout. }
  pose proof (smith_waterman_outcome sequence [] sch) as Hout.
  pose proof (populate_outcome sequence [] sch) as Hpop.
  destruct (populate sequence [] sch) as [[[A best] locs]|e].
  - simpl in Hpop.
    assert (locs = []) as ->.
    { rewrite (fi_locs _ _ _ _ _ _ _ Hpop). unfold all_cells.
      by rewrite rows_empty_sequence2. }
    assert (best = 0) as ->.
    { destruct (fi_best_attained _ _ _ _ _ _ _ Hpop) as [?|(a & b & Hab & _)];
        [done|].
      unfold all_cells in Hab. rewrite rows_empty_sequence2 in Hab.
      by apply elem_of_nil in Hab. }
    rewrite Hout. by rewrite trace_nil.
  - destruct Hpop as (c1 & c2 & _ & H2 & _). by apply elem_of_nil in H2.
Qed.

(** ** The moves of the backtrace, with their equations *)

Section moves.
Variables (sequence1 sequence2 : list ascii) (sch : ScoringScheme).
Variables (A : list (list Q)) (best : Q) (locs : list (nat * nat)).
Hypothesis Hfill : FillInv sequence1 sequence2 sch (all_cells sequence1 sequence2) A best locs.

Local Abbreviation next_of' := (next_of sequence1 sequence2 sch A).
Local Abbreviation emit_of' := (emit_of A).
Local Abbreviation trace' := (trace sequence1 sequence2 sch A).
Local Abbreviation g := (gap_penalty sch).

(** A move leaves a non-zero cell for a neighbour whose value explains it. *)
Lemma next_of_moves (al1 al2 : list ascii) (i j : nat) (q : partial) :
  q ∈ next_of' (al1, al2, i, j) →
  ∃ c1 c2 s,
    (1 ≤ i ≤ length sequence1)%nat ∧ (1 ≤ j ≤ length sequence2)%nat
    ∧ sequence1 !! (i - 1)%nat = Some c1 ∧ sequence2 !! (j - 1)%nat = Some c2
    ∧ score sch [c1] [c2] = Ok s
    ∧ ((q = (c1 :: al1, c2 :: al2, (i - 1)%nat, (j - 1)%nat)
        ∧ cell A i j == cell A (i - 1) (j - 1) + s)
       ∨ (q = (c1 :: al1, gap :: al2, (i - 1)%nat, j)
          ∧ cell A i j == cell A (i - 1) j + g)
       ∨ (q = (gap :: al1, c2 :: al2, i, (j - 1)%nat)
          ∧ cell A i j == cell A i (j - 1) + g)).
Proof.
  unfold next_of. destruct (Qeq_bool (cell A i j) 0) eqn:Hz.
  { intros []%elem_of_nil. }
  destruct (nonzero_interior _ _ _ _ _ _ Hfill i j Hz) as [Hi Hj].
  destruct (sequence1 !! (i - 1)%nat) as [c1|]; [|intros []%elem_of_nil].
  destruct (sequence2 !! (j - 1)%nat) as [c2|]; [|intros []%elem_of_nil].
  destruct (score sch [c1] [c2]) as [s|] eqn:Hs; [|intros []%elem_of_nil].
  intros Hq. exists c1, c2, s.
  do 5 (split; [done|]).
  apply elem_of_app in Hq as [Hq|Hq%elem_of_app].
  - apply elem_of_if_singleton in Hq as [Heq%Qeq_bool_iff ->]. by left.
  - destruct Hq as [Hq|Hq];
      apply elem_of_if_singleton in Hq as [Heq%Qeq_bool_iff ->]; auto.
Qed.

Lemma elem_of_emit_of_zero (al1 al2 : list ascii) (i j : nat) (al : alignment) :
  al ∈ emit_of' (al1, al2, i, j) → al = (al1, al2) ∧ cell A i j == 0.
Proof.
  unfold emit_of. by intros [Hz%Qeq_bool_iff ->]%elem_of_if_singleton.
Qed.

(** As [trace_invariant], remembering that a partial is flushed on a cell
    whose value is 0. *)
Lemma trace_invariant_zero (I : partial → Prop) :
  (∀ p q, I p → q ∈ next_of' p → I q) →
  ∀ fuel ps al, Forall I ps → al ∈ trace' fuel ps →
    ∃ al1 al2 i j, I (al1, al2, i, j) ∧ al = (al1, al2) ∧ cell A i j == 0.
Proof.
  intros Hstep. induction fuel as [|fuel IH]; intros ps al Hps Hal.
  { by apply elem_of_nil in Hal. }
  rewrite Forall_forall in Hps.
  simpl in Hal. apply elem_of_app in Hal as [Hal|Hal].
  - apply list_elem_of_In, in_flat_map in Hal
      as ([[[al1 al2] i] j] & Hp%list_elem_of_In & Hal%list_elem_of_In).
    apply elem_of_emit_of_zero in Hal as [-> Hz].
    exists al1, al2, i, j. split; [by apply Hps|done].
  - apply IH in Hal; [done|].
    apply Forall_forall. intros q Hq%list_elem_of_In%in_flat_map.
    destruct Hq as (p & Hp%list_elem_of_In & Hq%list_elem_of_In).
    eapply Hstep; [|done]. by apply Hps.
Qed.

(** The partials of the first round sit on cells that hold the best score. *)
Lemma initial_partials_best (p : partial) :
  p ∈ initial_partials locs →
  p.1.1.1 = [] ∧ p.1.1.2 = [] ∧ cell A p.1.2 p.2 == best.
Proof.
  intros ([i j] & -> & Hij)%list_elem_of_fmap. simpl.
  rewrite (fi_locs _ _ _ _ _ _ _ Hfill) in Hij.
  by apply list_elem_of_filter in Hij as [? _].
Qed.

End moves.

(** X7: the two strings of a returned alignment have the same length, and
    each holds only gap symbols and symbols of its input; when neither input
    contains the gap symbol, no column holds a gap in both strings. *)
Theorem alignment_columns (sequence1 sequence2 : list ascii) (sch : ScoringScheme)
    (best : Q) (alignments : list alignment) (alignment1 alignment2 : list ascii) :
  smith_waterman sequence1 sequence2 sch = Some (Ok (best, alignments)) →
  (alignment1, alignment2) ∈ alignments →
  length alignment1 = length alignment2
  ∧ (∀ c, c ∈ alignment1 → c = gap ∨ c ∈ sequence1)
  ∧ (∀ c, c ∈ alignment2 → c = gap ∨ c ∈ sequence2)
  ∧ (gap ∉ sequence1 → gap ∉ sequence2 →
       ∀ k, ¬ (alignment1 !! k = Some gap ∧ alignment2 !! k = Some gap)).
Proof.
  intros Hsw Hal.
  apply smith_waterman_Ok_inv in Hsw as (A & locs & _ & Hfill & ->).
  apply (trace_invariant _ _ _ _
           (λ p, length p.1.1.1 = length p.1.1.2
                 ∧ (∀ c, c ∈ p.1.1.1 → c = gap ∨ c ∈ sequence1)
                 ∧ (∀ c, c ∈ p.1.1.2 → c = gap ∨ c ∈ sequence2)
                 ∧ (gap ∉ sequence1 → gap ∉ sequence2 →
                      ∀ k, ¬ (p.1.1.1 !! k = Some gap ∧ p.1.1.2 !! k = Some gap))))
    in Hal.
  - destruct Hal as ([[[al1 al2] i] j] & HI & Heq). unfold strings_of in Heq.
    simpl in *. by simplify_eq.
  - intros [[[al1 al2] i] j] q (Hlen & H1 & H2 & Hgg) Hq. simpl in *.
    apply (next_of_cases _ _ _ _ _ _ Hfill) in Hq
      as (c1 & c2 & _ & _ & Hc1%list_elem_of_lookup_2 & Hc2%list_elem_of_lookup_2
          & _ & Hq).
    assert (∀ (x : list ascii) (c : ascii) (al : list ascii),
              (∀ c, c ∈ al → c = gap ∨ c ∈ x) → (c = gap ∨ c ∈ x) →
              ∀ c', c' ∈ c :: al → c' = gap ∨ c' ∈ x) as Hcons.
    { intros x c al Hall Hc c' [->|?]%elem_of_cons; auto. }
    destruct Hq as [->|[->| ->]]; simpl; split_and!;
      try (by f_equal); try (apply Hcons; auto).
    + intros Hg1 Hg2 [|k]; simpl; [|by apply Hgg].
      intros [[= ->] _]. done.
    + intros Hg1 Hg2 [|k]; simpl; [|by apply Hgg].
      intros [[= ->] _]. done.
    + intros Hg1 Hg2 [|k]; simpl; [|by apply Hgg].
      intros [_ [= ->]]. done.
  - apply Forall_forall. intros p ([a b] & -> & _)%list_elem_of_fmap. simpl.
    split_and!; try done.
    + intros c []%elem_of_nil.
    + intros c []%elem_of_nil.
    + intros _ _ k [Hk _]. by rewrite lookup_nil in Hk.
Qed.

Lemma alignment_columns_witness :
  length (py "CACACTA") = length (py "CACAC-A")
  ∧ (∀ c, c ∈ py "CACACTA" → c = gap ∨ c ∈ py "ACACACTA")
  ∧ (∀ c, c ∈ py "CACAC-A" → c = gap ∨ c ∈ py "AGCACACA")
  ∧ (gap ∉ py "ACACACTA" → gap ∉ py "AGCACACA" →
       ∀ k, ¬ (py "CACACTA" !! k = Some gap ∧ py "CACAC-A" !! k = Some gap)).
Proof.
  apply (alignment_columns (py "ACACACTA") (py "AGCACACA") default_scheme 5
           [(py "ACACA", py "ACACA"); (py "CACAC", py "CACAC");
            (py "CACACTA", py "CACAC-A")]).
  - reflexivity.
  - do 2 apply list_elem_of_further. apply list_elem_of_here.
Defined.

(** ** Scoring a returned alignment again *)

Lemma gap_start_term_zero (sch : ScoringScheme) (s : list ascii) (i : nat) :
  gap_start_penalty sch == 0 → gap_start_term sch s i == 0.
Proof.
  intros Hz. unfold gap_start_term. by destruct (_ && _).
Qed.

(** Without a start penalty a column adds the same amount wherever it
    stands. *)
Lemma score_column_shift (sch : ScoringScheme) (s1 s2 t1 t2 : list ascii)
    (i i' : nat) (c1 c2 : ascii) (sc sc' δ : Q) :
  gap_start_penalty sch == 0 → sc' == sc + δ →
  match score_column sch t1 t2 i' c1 c2 sc', score_column sch s1 s2 i c1 c2 sc with
  | Ok x', Ok x => x' == x + δ
  | Raise e', Raise e => e' = e
  | _, _ => False
  end.
Proof.
  intros Hz Hsc. unfold score_column.
  pose proof (gap_start_term_zero sch s1 i Hz).
  pose proof (gap_start_term_zero sch s2 i Hz).
  pose proof (gap_start_term_zero sch t1 i' Hz).
  pose proof (gap_start_term_zero sch t2 i' Hz).
  destruct (bool_decide (c1 = gap)), (bool_decide (c2 = gap)); simpl;
    try done; try lra.
  destruct (scoring_matrix sch) as [mx|]; [|lra].
  destruct (index_by_symbol sch) as [idx|]; [|done].
  destruct (idx !! [c1]) as [row|]; [|done].
  destruct (idx !! [c2]) as [col|]; [|done].
  destruct (matrix_get mx row col) as [v|e]; simpl; [lra|done].
Qed.

Lemma score_loop_shift (sch : ScoringScheme) (s1 s2 t1 t2 : list ascii)
    (cols : list (ascii * ascii)) (i i' : nat) (sc sc' δ : Q) :
  gap_start_penalty sch == 0 → sc' == sc + δ →
  match score_loop sch t1 t2 i' cols sc', score_loop sch s1 s2 i cols sc with
  | Ok x', Ok x => x' == x + δ
  | Raise e', Raise e => e' = e
  | _, _ => False
  end.
Proof.
  intros Hz. revert i i' sc sc'.
  induction cols as [|[c1 c2] cols IH]; intros i i' sc sc' Hsc; simpl; [done|].
  pose proof (score_column_shift sch s1 s2 t1 t2 i i' c1 c2 sc sc' δ Hz Hsc) as Hcol.
  destruct (score_column sch t1 t2 i' c1 c2 sc') as [x'|e'],
    (score_column sch s1 s2 i c1 c2 sc) as [x|e]; simpl; try done.
  by apply IH.
Qed.

(** Without a start penalty, a new first column adds its pairwise score. *)
Lemma score_cons (sch : ScoringScheme) (a1 a2 : list ascii) (c1 c2 : ascii) (v r : Q) :
  gap_start_penalty sch == 0 →
  score sch [c1] [c2] = Ok v → score sch a1 a2 = Ok r →
  ∃ r', score sch (c1 :: a1) (c2 :: a2) = Ok r' ∧ r' == v + r.
Proof.
  intros Hz Hv Hr. rewrite score_single in Hv. unfold score in *. simpl.
  pose proof (score_column_shift sch [c1] [c2] (c1 :: a1) (c2 :: a2) 0 0 c1 c2 0 0 0
                Hz ltac:(lra)) as Hcol.
  rewrite Hv in Hcol.
  destruct (score_column sch (c1 :: a1) (c2 :: a2) 0 c1 c2 0) as [x|e]; [|done].
  simpl.
  pose proof (score_loop_shift sch a1 a2 (c1 :: a1) (c2 :: a2) (zip a1 a2) 0 1 0 x x
                Hz ltac:(lra)) as Hloop.
  rewrite Hr in Hloop.
  destruct (score_loop sch (c1 :: a1) (c2 :: a2) 1 (zip a1 a2) x) as [r'|e]; [|done].
  exists r'. split; [done|]. lra.
Qed.

(** X8: when [gap_start_penalty] is 0 and neither input contains the gap
    symbol, scoring a returned alignment with [ScoringScheme.score] gives
    [best_score] again: the returned alignments are alignments that produce
    the returned score. *)
Theorem returned_alignments_score_best (sequence1 sequence2 : list ascii)
    (sch : ScoringScheme) (best : Q) (alignments : list alignment)
    (alignment1 alignment2 : list ascii) :
  gap_start_penalty sch == 0 → gap ∉ sequence1 → gap ∉ sequence2 →
  smith_waterman sequence1 sequence2 sch = Some (Ok (best, alignments)) →
  (alignment1, alignment2) ∈ alignments →
  ∃ r, score sch alignment1 alignment2 = Ok r ∧ r == best.
Proof.
  intros Hz Hg1 Hg2 Hsw Hal.
  apply smith_waterman_Ok_inv in Hsw as (A & locs & _ & Hfill & ->).
  apply (trace_invariant_zero _ _ _ _
           (λ p, ∃ r, score sch p.1.1.1 p.1.1.2 = Ok r
                      ∧ r + cell A p.1.2 p.2 == best)) in Hal.
  - destruct Hal as (al1 & al2 & i & j & (r & Hr & Hsum) & [= -> ->] & Hzero).
    simpl in *. exists r. split; [done|]. lra.
  - intros [[[al1 al2] i] j] q (r & Hr & Hsum) Hq. simpl in *.
    apply (next_of_moves _ _ _ _ _ _ Hfill) in Hq
      as (c1 & c2 & s & _ & _ & Hc1%list_elem_of_lookup_2 & Hc2%list_elem_of_lookup_2
          & Hs & Hq).
    assert (c1 ≠ gap) as Hn1 by (by intros ->).
    assert (c2 ≠ gap) as Hn2 by (by intros ->).
    destruct Hq as [[-> Heq]|[[-> Heq]|[-> Heq]]]; simpl.
    + destruct (score_cons sch al1 al2 c1 c2 s r Hz Hs Hr) as (r' & Hr' & Hv).
      exists r'. split; [done|]. lra.
    + destruct (score_one_gap sch c1 gap) as (v & Hv & Hvg); [by right|].
      destruct (score_cons sch al1 al2 c1 gap v r Hz Hv Hr) as (r' & Hr' & Hv').
      exists r'. split; [done|]. lra.
    + destruct (score_one_gap sch gap c2) as (v & Hv & Hvg); [by left|].
      destruct (score_cons sch al1 al2 gap c2 v r Hz Hv Hr) as (r' & Hr' & Hv').
      exists r'. split; [done|]. lra.
  - apply Forall_forall. intros p Hp.
    destruct (initial_partials_best _ _ _ _ _ _ Hfill p Hp) as (-> & -> & Hb).
    exists 0. split; [done|]. lra.
Qed.

Lemma returned_alignments_score_best_witness :
  ∃ r, score default_scheme (py "CACACTA") (py "CACAC-A") = Ok r ∧ r == 5.
Proof.
  apply (returned_alignments_score_best (py "ACACACTA") (py "AGCACACA") default_scheme 5
           [(py "ACACA", py "ACACA"); (py "CACAC", py "CACAC");
            (py "CACACTA", py "CACAC-A")]).
  - done.
  - vm_compute. intros H.
    repeat (apply elem_of_cons in H as [H|H]; [done|]); by apply elem_of_nil in H.
  - vm_compute. intros H.
    repeat (apply elem_of_cons in H as [H|H]; [done|]); by apply elem_of_nil in H.
  - reflexivity.
  - do 2 apply list_elem_of_further. apply list_elem_of_here.
Defined.

(** ** The first column of a returned alignment *)

(** X9: with a negative gap penalty and inputs that do not contain the gap
    symbol, no returned alignment begins with a gap.  The first column of an
    alignment is written by the last move of its backtrace, and the partial
    is flushed on the cell that move arrives at, which holds 0.  A gap move
    is taken only when the cell it leaves equals its neighbour plus the gap
    penalty; with the neighbour at 0 that sum is the gap penalty itself,
    which is negative, and no cell is negative.  So a partial is never
    flushed right after a gap move.  Nothing is stated about the last
    column: in floating point the sum of a cell and the gap penalty can
    round back to the cell, a neighbour of a best cell then ties it, and the
    alignment traced from there ends with a gap. *)
Theorem alignments_do_not_begin_with_gap (sequence1 sequence2 : list ascii)
    (sch : ScoringScheme) (best : Q) (alignments : list alignment)
    (alignment1 alignment2 : list ascii) :
  gap_penalty sch < 0 → gap ∉ sequence1 → gap ∉ sequence2 →
  smith_waterman sequence1 sequence2 sch = Some (Ok (best, alignments)) →
  (alignment1, alignment2) ∈ alignments →
  head alignment1 ≠ Some gap ∧ head alignment2 ≠ Some gap.
Proof.
  intros Hneg Hg1 Hg2 Hsw Hal.
  apply smith_waterman_Ok_inv in Hsw as (A & locs & _ & Hfill & ->).
  apply (trace_invariant_zero _ _ _ _
           (λ p, head p.1.1.1 = Some gap ∨ head p.1.1.2 = Some gap →
                 ¬ cell A p.1.2 p.2 == 0)) in Hal.
  - destruct Hal as (al1 & al2 & i & j & Hhead & [= -> ->] & Hzero).
    simpl in *. split; intros Hh; apply Hhead; auto.
  - intros [[[al1 al2] i] j] q _ Hq. simpl in *.
    apply (next_of_moves _ _ _ _ _ _ Hfill) in Hq
      as (c1 & c2 & s & _ & _ & Hc1%list_elem_of_lookup_2 & Hc2%list_elem_of_lookup_2
          & Hs & Hq).
    assert (c1 ≠ gap) as Hn1 by (by intros ->).
    assert (c2 ≠ gap) as Hn2 by (by intros ->).
    pose proof (cell_nonneg _ _ _ _ _ _ Hfill i j) as Hnn.
    destruct Hq as [[-> Heq]|[[-> Heq]|[-> Heq]]]; simpl.
    + intros [[= ?]|[= ?]]; done.
    + intros _ Hz. lra.
    + intros _ Hz. lra.
  - apply Forall_forall. intros p Hp.
    destruct (initial_partials_best _ _ _ _ _ _ Hfill p Hp) as (-> & -> & Hb).
    intros [?|?]; done.
Qed.

Lemma alignments_do_not_begin_with_gap_witness :
  head (py "CACACTA") ≠ Some gap ∧ head (py "CACAC-A") ≠ Some gap.
Proof.
  apply (alignments_do_not_begin_with_gap (py "ACACACTA") (py "AGCACACA")
           default_scheme 5
           [(py "ACACA", py "ACACA"); (py "CACAC", py "CACAC");
            (py "CACACTA", py "CACAC-A")]).
  - done.
  - vm_compute. intros H.
    repeat (apply elem_of_cons in H as [H|H]; [done|]); by apply elem_of_nil in H.
  - vm_compute. intros H.
    repeat (apply elem_of_cons in H as [H|H]; [done|]); by apply elem_of_nil in H.
  - reflexivity.
  - do 2 apply list_elem_of_further. apply list_elem_of_here.
Defined.

(** X10: when the best score is positive, no returned alignment is the
    empty pair.  A partial starts with two empty strings on a cell that
    holds the best score and is flushed only on a cell that holds 0, so at
    least one move lies in between, and every move adds a column to both
    strings.  Nothing is stated about the list being non-empty: a NaN score
    makes cells that equal nothing, and the list can then be empty. *)
Theorem positive_best_alignments_nonempty (sequence1 sequence2 : list ascii)
    (sch : ScoringScheme) (best : Q) (alignments : list alignment)
    (alignment1 alignment2 : list ascii) :
  0 < best →
  smith_waterman sequence1 sequence2 sch = Some (Ok (best, alignments)) →
  (alignment1, alignment2) ∈ alignments →
  alignment1 ≠ [] ∧ alignment2 ≠ [].
Proof.
  intros Hpos Hsw Hal.
  apply smith_waterman_Ok_inv in Hsw as (A & locs & _ & Hfill & ->).
  apply (trace_invariant_zero _ _ _ _
           (λ p, length p.1.1.1 = length p.1.1.2
                 ∧ (p.1.1.1 = [] → cell A p.1.2 p.2 == best))) in Hal.
  - destruct Hal as (al1 & al2 & i & j & (Hlen & Hstart) & [= -> ->] & Hzero).
    simpl in *. destruct al1 as [|x al1].
    + specialize (Hstart eq_refl). lra.
    + by destruct al2.
  - intros [[[al1 al2] i] j] q (Hlen & Hstart) Hq. simpl in *.
    apply (next_of_cases _ _ _ _ _ _ Hfill) in Hq
      as (c1 & c2 & _ & _ & _ & _ & _ & [->|[->| ->]]); simpl;
      (split; [by f_equal|done]).
  - apply Forall_forall. intros p Hp.
    by destruct (initial_partials_best _ _ _ _ _ _ Hfill p Hp) as (-> & -> & Hb).
Qed.

Lemma positive_best_alignments_nonempty_witness :
  py "A" ≠ [] ∧ py "A" ≠ [].
Proof.
  apply (positive_best_alignments_nonempty (py "A") (py "A") default_scheme 1
           [(py "A", py "A")] (py "A") (py "A"));
    [done|reflexivity|apply list_elem_of_here].
Defined.

(** * Further properties of the scorer *)

Lemma zip_take_min {X Y : Type} (l : list X) (k : list Y) :
  zip l k = zip (take (length l `min` length k) l) (take (length l `min` length k) k).
Proof.
  revert k. induction l as [|x l IH]; intros [|y k]; simpl; try done.
  by rewrite <- IH.
Qed.

(** X11: [ScoringScheme.score] stops at the end of the shorter sequence:
    the score of two sequences is the score of their prefixes of the common
    length, and what follows is never looked at. *)
Theorem score_stops_at_shorter (sch : ScoringScheme) (sequence1 sequence2 : list ascii) :
  score sch sequence1 sequence2
  = score sch (take (length sequence1 `min` length sequence2) sequence1)
      (take (length sequence1 `min` length sequence2) sequence2).
Proof.
  unfold score. rewrite <- zip_take_min.
  set (k := length sequence1 `min` length sequence2).
  rewrite <- (take_drop k sequence1) at 1.
  rewrite <- (take_drop k sequence2) at 1.
  apply score_loop_prefix.
  - rewrite length_zip_with, length_take. lia.
  - rewrite length_zip_with, length_take. lia.
Qed.

Lemma score_column_no_matrix (sch : ScoringScheme) (s1 s2 : list ascii) (i : nat)
    (c1 c2 : ascii) (sc : Q) :
  scoring_matrix sch = None →
  (c1 = gap ∧ c2 = gap ∧ score_column sch s1 s2 i c1 c2 sc = Raise ValueError)
  ∨ (¬ (c1 = gap ∧ c2 = gap) ∧ ∃ x, score_column sch s1 s2 i c1 c2 sc = Ok x).
Proof.
  intros Hm. unfold score_column. rewrite Hm.
  destruct (bool_decide_reflect (c1 = gap)), (bool_decide_reflect (c2 = gap));
    simpl; [by left|right..]; (split; [by intros [? ?]|eauto]).
Qed.

Lemma score_loop_no_matrix (sch : ScoringScheme) (s1 s2 : list ascii)
    (cols : list (ascii * ascii)) (i : nat) (sc : Q) :
  scoring_matrix sch = None →
  (score_loop sch s1 s2 i cols sc = Raise ValueError
   ∧ ∃ k, cols !! k = Some (gap, gap))
  ∨ ((∃ r, score_loop sch s1 s2 i cols sc = Ok r)
     ∧ ∀ k, cols !! k ≠ Some (gap, gap)).
Proof.
  intros Hm. revert i sc.
  induction cols as [|[c1 c2] cols IH]; intros i sc; simpl.
  { right. split; [eauto|]. intros k. by rewrite lookup_nil. }
  destruct (score_column_no_matrix sch s1 s2 i c1 c2 sc Hm)
    as [(-> & -> & ->)|(Hng & x & ->)]; simpl.
  - left. split; [done|]. by exists 0%nat.
  - destruct (IH (S i) x) as [[-> [k Hk]]|[Hok Hno]].
    + left. split; [done|]. by exists (S k).
    + right. split; [done|]. intros [|k]; simpl; [|apply Hno].
      intros [= -> ->]. by apply Hng.
Qed.

(** X12: without a matrix the only exception of [ScoringScheme.score] is
    the [ValueError] for two gaps, and it is raised exactly when some column
    holds the gap symbol in both sequences; otherwise a score is returned. *)
Theorem score_without_matrix_errors (sch : ScoringScheme) (sequence1 sequence2 : list ascii) :
  scoring_matrix sch = None →
  (∀ e, score sch sequence1 sequence2 = Raise e → e = ValueError)
  ∧ (score sch sequence1 sequence2 = Raise ValueError
     ↔ ∃ k, sequence1 !! k = Some gap ∧ sequence2 !! k = Some gap)
  ∧ ((∃ r, score sch sequence1 sequence2 = Ok r)
     ↔ ∀ k, ¬ (sequence1 !! k = Some gap ∧ sequence2 !! k = Some gap)).
Proof.
  intros Hm. unfold score.
  assert (∀ k, zip sequence1 sequence2 !! k = Some (gap, gap)
               ↔ sequence1 !! k = Some gap ∧ sequence2 !! k = Some gap) as Hzip.
  { intros k. rewrite lookup_zip_with_Some. split.
    - intros (x & y & [= -> ->] & ? & ?). done.
    - intros [? ?]. by exists gap, gap. }
  destruct (score_loop_no_matrix sch sequence1 sequence2 (zip sequence1 sequence2)
              0 0 Hm) as [[Hr [k Hk]]|[[r Hr] Hno]]; rewrite Hr.
  - split_and!.
    + by intros e [= <-].
    + split; [|done]. intros _. exists k. by apply Hzip.
    + split; [by intros [? ?]|]. intros Hall. destruct (Hall k). by apply Hzip.
  - split_and!.
    + done.
    + split; [done|]. intros [k Hk%Hzip]. by destruct (Hno k).
    + split; [|by eauto]. intros _ k Hk%Hzip. by destruct (Hno k).
Qed.

Lemma score_without_matrix_errors_witness :
  (∀ e, score default_scheme (py "A-C") (py "G-C") = Raise e → e = ValueError)
  ∧ (score default_scheme (py "A-C") (py "G-C") = Raise ValueError
     ↔ ∃ k, py "A-C" !! k = Some gap ∧ py "G-C" !! k = Some gap)
  ∧ ((∃ r, score default_scheme (py "A-C") (py "G-C") = Ok r)
     ↔ ∀ k, ¬ (py "A-C" !! k = Some gap ∧ py "G-C" !! k = Some gap)).
Proof.
  apply (score_without_matrix_errors default_scheme (py "A-C") (py "G-C")).
  reflexivity.
Defined.

Lemma score_column_swap (sch : ScoringScheme) (s1 s2 : list ascii) (i : nat)
    (c1 c2 : ascii) (sc : Q) :
  scoring_matrix sch = None →
  score_column sch s1 s2 i c1 c2 sc = score_column sch s2 s1 i c2 c1 sc.
Proof.
  intros Hm. unfold score_column. rewrite Hm.
  destruct (bool_decide_reflect (c1 = gap)), (bool_decide_reflect (c2 = gap));
    simpl; try done.
  destruct (bool_decide_reflect (c1 = c2)), (bool_decide_reflect (c2 = c1));
    congruence.
Qed.

Lemma score_loop_swap (sch : ScoringScheme) (s1 s2 t1 t2 : list ascii) (i : nat) (sc : Q) :
  scoring_matrix sch = None →
  score_loop sch s1 s2 i (zip t1 t2) sc = score_loop sch s2 s1 i (zip t2 t1) sc.
Proof.
  intros Hm. revert t2 i sc.
  induction t1 as [|c1 t1 IH]; intros [|c2 t2] i sc; simpl; try done.
  rewrite (score_column_swap sch s1 s2 i c1 c2 sc Hm).
  destruct (score_column sch s2 s1 i c2 c1 sc); simpl; [apply IH|done].
Qed.

(** X13: without a matrix the scorer is symmetric: exchanging the two
    sequences gives the same score, or the same exception. *)
Theorem score_symmetric_without_matrix (sch : ScoringScheme)
    (sequence1 sequence2 : list ascii) :
  scoring_matrix sch = None →
  score sch sequence1 sequence2 = score sch sequence2 sequence1.
Proof. intros Hm. unfold score. by apply score_loop_swap. Qed.

Lemma score_symmetric_without_matrix_witness :
  score (mkScoringScheme 1 (-1) (-1) (-5) None None) (py "AC-G") (py "-CTG")
  = score (mkScoringScheme 1 (-1) (-1) (-5) None None) (py "-CTG") (py "AC-G").
Proof.
  apply (score_symmetric_without_matrix (mkScoringScheme 1 (-1) (-1) (-5) None None)).
  reflexivity.
Defined.

(** * Further properties of the matrix loader *)

Lemma skip_comments_unfold (h : list ascii) (f : list (list ascii)) :
  skip_comments h f
  = match h with
    | [] => Raise IndexError
    | c :: _ =>
        if bool_decide (c = "#"%char)
        then match f with
             | [] => Raise IndexError
             | line :: f' => skip_comments line f'
             end
        else Ok (h, f)
    end.
Proof. by destruct f. Qed.

Lemma skip_comments_spec (f : list (list ascii)) (h headline : list ascii)
    (rest : list (list ascii)) :
  skip_comments h f = Ok (headline, rest)
  ↔ ∃ comments,
      h :: f = comments ++ headline :: rest
      ∧ Forall (λ line, head line = Some "#"%char) comments
      ∧ headline ≠ [] ∧ head headline ≠ Some "#"%char.
Proof.
  split.
  - revert h. induction f as [|line f IH]; intros h; rewrite skip_comments_unfold.
    + destruct h as [|c h]; [done|]. case_bool_decide as Hc; [done|].
      intros [= <- <-]. exists []. split_and!; try done. simpl. congruence.
    + destruct h as [|c h]; [done|]. case_bool_decide as Hc.
      * intros (cs & Heq & Hcs & Hne & Hh)%IH. exists ((c :: h) :: cs).
        split_and!; try done; [by rewrite Heq|]. constructor; [|done].
        simpl. by subst.
      * intros [= <- <-]. exists []. split_and!; try done. simpl. congruence.
  - intros (comments & Heq & Hcs & Hne & Hh). revert h f Heq.
    induction Hcs as [|x cs Hx Hcs IH]; intros h f Heq; rewrite skip_comments_unfold.
    + simpl in Heq. injection Heq as -> ->.
      destruct headline as [|c hl]; [done|].
      rewrite bool_decide_eq_false_2; [done|]. intros ->. by apply Hh.
    + simpl in Heq. injection Heq as -> ->.
      destruct x as [|c x]; [done|]. simpl in Hx. injection Hx as ->.
      rewrite bool_decide_eq_true_2 by done.
      destruct cs as [|y cs]; simpl; by apply IH.
Qed.

(** X14: the header is the first line that does not begin with ["#"], and
    it must not be empty: [read_header] returns [headline] and the lines
    [rest] after it exactly when the file is a run of lines that begin with
    ["#"], then [headline], then [rest].  In every other case (no such line
    before the end of the file) the loader raises [IndexError]. *)
Theorem read_header_skips_comments (f : list (list ascii)) (headline : list ascii)
    (rest : list (list ascii)) :
  (read_header f = Ok (headline, rest)
   ↔ ∃ comments,
       f = comments ++ headline :: rest
       ∧ Forall (λ line, head line = Some "#"%char) comments
       ∧ headline ≠ [] ∧ head headline ≠ Some "#"%char)
  ∧ (∀ e, read_header f = Raise e → e = IndexError).
Proof.
  split; [|apply read_header_raises].
  unfold read_header. destruct f as [|line f]; simpl.
  - split; [done|]. by intros ([|? ?] & ? & _).
  - apply skip_comments_spec.
Qed.

Lemma A_set_out_of_range (n : nat) (mx : list (list Q)) (i j : nat) (v : Q) :
  dims mx n n → (n ≤ i ∨ n ≤ j)%nat → A_set mx i j v = Raise IndexError.
Proof.
  intros [Hlen Hrow] Hout. unfold A_set.
  destruct (mx !! i) as [r|] eqn:Hr; [|done].
  rewrite bool_decide_eq_false_2; [done|].
  rewrite (Hrow _ _ Hr). apply lookup_lt_Some in Hr. lia.
Qed.

(** X15: what a file gives is what the scorer returns.  If every data line
    is one the loader accepts, and [line] is the last line that supplies the
    entry in the row of [a] and the column of [b], then after the load
    [score(a, b)] is the value [float] reads from the field of [line] in that
    column. *)
Theorem loaded_entry_is_scored (float : list ascii → option Q)
    (f : list (list ascii)) (self : ScoringScheme)
    (headline : list ascii) (before after : list (list ascii))
    (line symbol : list ascii) (vals : list (list ascii))
    (a b : ascii) (ia ib : nat) (val : list ascii) (v : Q) :
  read_header f = Ok (headline, before ++ line :: after) →
  Forall (row_ok float (header_index headline) (size (header_index headline)))
    (before ++ line :: after) →
  split line = symbol :: vals →
  header_index headline !! symbol = Some ia →
  vals !! ib = Some val → float val = Some v →
  (∀ l, l ∈ after → ¬ supplies (header_index headline) l ia ib) →
  a ≠ gap → b ≠ gap →
  header_index headline !! [a] = Some ia →
  header_index headline !! [b] = Some ib →
  ∃ sch q, load_matrix float f self = (sch, None) ∧ score sch [a] [b] = Ok q ∧ q == v.
Proof.
  intros Hh Hrows Hsplit Hsym Hval Hv Hafter Ha Hb Hia Hib.
  rewrite (load_matrix_header float f self headline _ Hh).
  set (idx := header_index headline) in *. set (n := size idx) in *.
  apply Forall_app in Hrows as [Hbefore Hrest].
  apply Forall_cons in Hrest as [Hline Hafter_ok].
  assert (ia < n ∧ ib < n)%nat as [Hlta Hltb].
  { destruct Hline as (symbol' & vals' & i' & Hs' & Hi' & ? & ? & _).
    rewrite Hsplit in Hs'. injection Hs' as <- <-.
    rewrite Hsym in Hi'. injection Hi' as <-.
    apply lookup_lt_Some in Hval. lia. }
  rewrite for_each_keep_app.
  destruct (load_rows_ok float idx n before (zeros n)) as (mx1 & -> & Hd1 & _);
    [apply dims_replicate|done|].
  simpl.
  destruct (load_row_value float idx n line symbol vals mx1 ia ib val v)
    as (mx2 & -> & Hd2 & Hc2); try done.
  destruct (load_rows_ok float idx n after mx2) as (mx3 & -> & Hd3 & Hout);
    [done|done|].
  simpl. eexists _, _. split; [reflexivity|].
  rewrite (score_matrix_entry _ idx mx3 n a b ia ib) by done.
  split; [reflexivity|].
  rewrite (Hout ia ib Hafter), Hc2. lra.
Qed.

Lemma loaded_entry_is_scored_witness :
  ∃ sch q,
    load_matrix decimal_float
      [py "# scores" ++ nl; py "A C" ++ nl; py "A 2 -1.5" ++ nl; py "C -1.5 3" ++ nl]
      default_scheme = (sch, None)
    ∧ score sch [ "A"%char ] [ "C"%char ] = Ok q ∧ q == -15 # 10.
Proof.
  apply (loaded_entry_is_scored decimal_float
           [py "# scores" ++ nl; py "A C" ++ nl; py "A 2 -1.5" ++ nl; py "C -1.5 3" ++ nl]
           default_scheme (py "A C" ++ nl) [] [py "C -1.5 3" ++ nl]
           (py "A 2 -1.5" ++ nl) (py "A") [py "2"; py "-1.5"]
           "A"%char "C"%char 0 1 (py "-1.5") (-15 # 10)).
  - reflexivity.
  - repeat constructor.
    + exists (py "A"), [py "2"; py "-1.5"], 0%nat.
      split_and!; [reflexivity|reflexivity|vm_compute; lia|vm_compute; lia|].
      repeat constructor; by eexists.
    + exists (py "C"), [py "-1.5"; py "3"], 1%nat.
      split_and!; [reflexivity|reflexivity|vm_compute; lia|vm_compute; lia|].
      repeat constructor; by eexists.
  - reflexivity.
  - reflexivity.
  - reflexivity.
  - reflexivity.
  - intros l ->%list_elem_of_singleton (symbol & vals & Hs & Hi & _).
    vm_compute in Hs. injection Hs as <- <-. vm_compute in Hi. discriminate.
  - done.
  - done.
  - reflexivity.
  - reflexivity.
Defined.

Lemma store_values_overflow (float : list ascii → option Q) (n i : nat)
    (vals : list (list ascii)) (o : nat) (mx : list (list Q)) :
  dims mx n n → Forall (λ val, is_Some (float val)) vals → (o ≤ n)%nat →
  ((n ≤ i)%nat ∧ vals ≠ []) ∨ (n < o + length vals)%nat →
  (for_each_keep (store_value float i) (zip (seq o (length vals)) vals) mx).2
  = Some IndexError.
Proof.
  revert o mx. induction vals as [|val vals IH]; intros o mx Hd Hvals Hon Hout.
  { simpl in Hout. destruct Hout as [[_ ?]|?]; [done|lia]. }
  apply Forall_cons in Hvals as [[v Hv] Hvals]. simpl. rewrite Hv.
  destruct (decide (i < n ∧ o < n)%nat) as [[Hi Ho]|Hno].
  - destruct (A_set_ok mx n n i o v) as (mx1 & -> & Hd1 & _); [done|lia..|].
    apply IH; [done|done|lia|]. right. simpl in Hout.
    destruct Hout as [[? _]|?]; lia.
  - rewrite (A_set_out_of_range n mx i o v Hd) by lia. done.
Qed.

(** X16: the loader does not skip a blank data line and does not ignore
    surplus fields.  After data lines it accepts, a line that holds only
    white space raises [IndexError] (the [pop] from an empty list), and so
    does a line of numeric fields that has more fields than the header has
    symbols, or whose symbol is indexed past the matrix. *)
Theorem load_matrix_row_bounds (float : list ascii → option Q)
    (f : list (list ascii)) (self : ScoringScheme)
    (headline : list ascii) (good rest : list (list ascii)) (bad : list ascii) :
  read_header f = Ok (headline, good ++ bad :: rest) →
  Forall (row_ok float (header_index headline) (size (header_index headline))) good →
  (split bad = [] → (load_matrix float f self).2 = Some IndexError)
  ∧ (∀ symbol vals i,
       split bad = symbol :: vals →
       header_index headline !! symbol = Some i →
       Forall (λ val, is_Some (float val)) vals →
       ((size (header_index headline) ≤ i)%nat ∧ vals ≠ [])
       ∨ (size (header_index headline) < length vals)%nat →
       (load_matrix float f self).2 = Some IndexError).
Proof.
  intros Hh Hgood.
  rewrite (load_matrix_header float f self headline _ Hh). simpl.
  set (idx := header_index headline) in *. set (n := size idx) in *.
  rewrite for_each_keep_app.
  destruct (load_rows_ok float idx n good (zeros n)) as (mx & -> & Hd & _);
    [apply dims_replicate|done|].
  simpl. split.
  - intros Hsplit. unfold load_row. by rewrite Hsplit.
  - intros symbol vals i Hsplit Hsym Hvals Hout.
    unfold load_row at 1. rewrite Hsplit, Hsym.
    pose proof (store_values_overflow float n i vals 0 mx Hd Hvals ltac:(lia) Hout)
      as Hrow.
    unfold enumerate.
    destruct (for_each_keep (store_value float i) (zip (seq 0 (length vals)) vals) mx)
      as [mx' [e|]]; simpl in *; by simplify_eq.
Qed.

Lemma load_matrix_row_bounds_witness :
  (load_matrix decimal_float [py "A C" ++ nl; py "A 1 2" ++ nl; nl] default_scheme).2
  = Some IndexError
  ∧ (load_matrix decimal_float [py "A C" ++ nl; py "A 1 2 3" ++ nl] default_scheme).2
    = Some IndexError.
Proof.
  split.
  - apply (proj1 (load_matrix_row_bounds decimal_float
                    [py "A C" ++ nl; py "A 1 2" ++ nl; nl] default_scheme
                    (py "A C" ++ nl) [py "A 1 2" ++ nl] [] nl eq_refl
                    ltac:(repeat constructor;
                          exists (py "A"), [py "1"; py "2"], 0%nat;
                          split_and!;
                          [reflexivity|reflexivity|vm_compute; lia|vm_compute; lia|];
                          repeat constructor; by eexists))).
    reflexivity.
  - apply (proj2 (load_matrix_row_bounds decimal_float
                    [py "A C" ++ nl; py "A 1 2 3" ++ nl] default_scheme
                    (py "A C" ++ nl) [] [] (py "A 1 2 3" ++ nl) eq_refl
                    ltac:(constructor))
             (py "A") [py "1"; py "2"; py "3"] 0%nat).
    + reflexivity.
    + reflexivity.
    + repeat constructor; by eexists.
    + right. vm_compute. lia.
Defined.

(** ** [str.split] *)

Lemma split_go_tokens (s cur tok : list ascii) :
  Forall (λ c, isspace c = false) cur →
  tok ∈ split_go cur s →
  tok ≠ [] ∧ Forall (λ c, isspace c = false) tok.
Proof.
  revert cur. induction s as [|c s IH]; intros cur Hcur; simpl.
  - destruct cur as [|x cur]; [by intros ?%elem_of_nil|].
    by intros ->%list_elem_of_singleton.
  - destruct (isspace c) eqn:Hc.
    + destruct cur as [|x cur]; [by apply IH|].
      intros [->|Htok]%elem_of_cons; [done|]. by apply (IH []).
    + apply IH. apply Forall_app. split; [done|]. by apply Forall_singleton.
Qed.

Lemma lstrip_no_space (c : ascii) (s : list ascii) :
  isspace c = false → lstrip (c :: s) = c :: s.
Proof. intros Hc. simpl. by rewrite Hc. Qed.

Lemma strip_token (tok : list ascii) :
  Forall (λ c, isspace c = false) tok → strip tok = tok.
Proof.
  intros Htok. unfold strip.
  destruct tok as [|c tok]; [done|].
  apply Forall_cons in Htok as [Hc Htok]. rewrite (lstrip_no_space c tok Hc).
  assert (Forall (λ c, isspace c = false) (reverse (c :: tok))) as Hrev.
  { apply Forall_reverse. by constructor. }
  destruct (reverse (c :: tok)) as [|x r] eqn:Hr.
  { apply (f_equal length) in Hr. rewrite length_reverse in Hr. done. }
  apply Forall_cons in Hrev as [Hx _]. rewrite (lstrip_no_space x r Hx).
  by rewrite <- Hr, reverse_involutive.
Qed.

Lemma split_go_word (tok rest cur : list ascii) :
  Forall (λ c, isspace c = false) tok →
  split_go cur (tok ++ rest) = split_go (cur ++ tok) rest.
Proof.
  revert cur. induction tok as [|c tok IH]; intros cur Htok; simpl.
  - by rewrite app_nil_r.
  - apply Forall_cons in Htok as [-> Htok].
    rewrite IH by done. by rewrite <- app_assoc.
Qed.

(** X17: the words that [str.split()] returns are not empty and hold no
    white space, so the [strip()] the loader applies to each header symbol
    changes nothing; and splitting words that were written each followed by a
    white-space character gives the words back. *)
Theorem split_words (s : list ascii) (words : list (list ascii)) (sep : ascii) :
  (∀ tok, tok ∈ split s →
     tok ≠ [] ∧ Forall (λ c, isspace c = false) tok ∧ strip tok = tok)
  ∧ (isspace sep = true →
     Forall (λ tok, tok ≠ [] ∧ Forall (λ c, isspace c = false) tok) words →
     split (flat_map (λ tok, tok ++ [sep]) words) = words).
Proof.
  split.
  - intros tok Htok. apply split_go_tokens in Htok as [Hne Hns]; [|done].
    split_and!; try done. by apply strip_token.
  - intros Hsep Hwords. unfold split.
    induction Hwords as [|tok words [Hne Hns] Hwords IH]; [done|].
    simpl. rewrite <- app_assoc, split_go_word by done. simpl. rewrite Hsep.
    destruct tok as [|c tok]; [done|]. by rewrite IH.
Qed.

Lemma split_words_witness :
  split (flat_map (λ tok, tok ++ [" "%char]) [py "A"; py "-1.5"; py "Gly"])
  = [py "A"; py "-1.5"; py "Gly"].
Proof.
  apply (proj2 (split_words [] [py "A"; py "-1.5"; py "Gly"] " "%char)).
  - reflexivity.
  - repeat constructor; done.
Defined.

(** ** The index of the header *)

Lemma enumerate_snoc {X : Type} (xs : list X) (x : X) :
  enumerate (xs ++ [x]) = enumerate xs ++ [(length xs, x)].
Proof.
  unfold enumerate. rewrite length_app. simpl.
  rewrite seq_app, zip_with_app by (by rewrite length_seq). done.
Qed.

Lemma header_index_split (headline : list ascii) :
  strip <$> split headline = split headline.
Proof.
  assert (∀ l : list (list ascii), Forall (λ t, strip t = t) l → strip <$> l = l) as Hid.
  { induction 1 as [|t l Ht Hl IH]; [done|]. by rewrite fmap_cons, Ht, IH. }
  apply Hid, Forall_forall. intros tok Htok.
  apply split_go_tokens in Htok as [_ Hns]; [|done]. by apply strip_token.
Qed.

(** The dict comprehension over the words [ts]. *)
Lemma index_of_words_snoc (ts : list (list ascii)) (t : list ascii) :
  foldl (λ d '(i, symbol), <[strip symbol := i]> d) (∅ : gmap (list ascii) nat)
    (enumerate (ts ++ [t]))
  = <[strip t := length ts]>
      (foldl (λ d '(i, symbol), <[strip symbol := i]> d) ∅ (enumerate ts)).
Proof. by rewrite enumerate_snoc, foldl_snoc. Qed.

Lemma index_of_words_lookup (ts : list (list ascii)) (key : list ascii) (k : nat) :
  foldl (λ d '(i, symbol), <[strip symbol := i]> d) (∅ : gmap (list ascii) nat)
    (enumerate ts) !! key = Some k
  ↔ (strip <$> ts) !! k = Some key
    ∧ ∀ k', (k < k')%nat → (strip <$> ts) !! k' ≠ Some key.
Proof.
  revert k. induction ts as [|t ts IH] using rev_ind; intros k.
  { simpl. rewrite lookup_empty. split; [done|]. by intros [? _]. }
  rewrite index_of_words_snoc, lookup_insert_Some, fmap_app. simpl.
  assert (length (strip <$> ts) = length ts) as Hlen by apply length_fmap.
  split.
  - intros [[<- <-]|[Hne Hprev]].
    + split.
      * rewrite lookup_app_r by lia. by rewrite Hlen, Nat.sub_diag.
      * intros k' Hk'. rewrite lookup_ge_None_2; [done|].
        rewrite length_app. simpl. lia.
    + apply IH in Hprev as [Hk Hlast].
      pose proof (lookup_lt_Some _ _ _ Hk) as Hlt.
      split; [by rewrite lookup_app_l|].
      intros k' Hk'. destruct (decide (k' < length ts)%nat) as [Hin|Hout].
      * rewrite lookup_app_l by lia. by apply Hlast.
      * rewrite lookup_app_r by lia.
        destruct (k' - length (strip <$> ts))%nat eqn:Hd; simpl; [congruence|].
        by rewrite lookup_nil.
  - intros [Hk Hlast].
    destruct (decide (strip t = key)) as [Heq|Hne].
    + left. split; [done|].
      destruct (decide (k < length ts)%nat) as [Hlt|Hge].
      * destruct (Hlast (length ts) Hlt).
        rewrite lookup_app_r by lia. by rewrite Hlen, Nat.sub_diag, Heq.
      * apply lookup_lt_Some in Hk. rewrite length_app in Hk. simpl in Hk. lia.
    + right. split; [done|]. apply IH.
      assert (k < length ts)%nat as Hlt.
      { destruct (decide (k < length ts)%nat) as [|Hge]; [done|].
        rewrite lookup_app_r in Hk by lia.
        destruct (k - length (strip <$> ts))%nat eqn:Hd; simpl in Hk; [congruence|].
        by rewrite lookup_nil in Hk. }
      rewrite lookup_app_l in Hk by lia. split; [done|].
      intros k' Hk' Hkey. apply (Hlast k' Hk').
      apply lookup_lt_Some in Hkey as Hlt'. by rewrite lookup_app_l.
Qed.

Lemma index_of_words_size (ts : list (list ascii)) :
  (size (foldl (λ d '(i, symbol), <[strip symbol := i]> d)
           (∅ : gmap (list ascii) nat) (enumerate ts)) ≤ length ts)%nat
  ∧ (NoDup (strip <$> ts) →
     size (foldl (λ d '(i, symbol), <[strip symbol := i]> d)
             (∅ : gmap (list ascii) nat) (enumerate ts)) = length ts).
Proof.
  induction ts as [|t ts [IHle IHeq]] using rev_ind.
  { split; [|intros _]; simpl; by rewrite map_size_empty. }
  rewrite index_of_words_snoc, map_size_insert, length_app. simpl.
  split.
  - destruct (_ !! strip t); simpl; lia.
  - rewrite fmap_app. simpl. intros (Hnd & Hnew & _)%NoDup_app.
    rewrite IHeq by done.
    destruct (_ !! strip t) as [k|] eqn:Hk; simpl; [|lia].
    apply index_of_words_lookup in Hk as [Hk%list_elem_of_lookup_2 _].
    destruct (Hnew _ Hk). apply list_elem_of_here.
Qed.

Lemma header_index_last (headline symbol : list ascii) (k : nat) :
  header_index headline !! symbol = Some k
  ↔ split headline !! k = Some symbol
    ∧ ∀ k', (k < k')%nat → split headline !! k' ≠ Some symbol.
Proof.
  unfold header_index.
  pose proof (index_of_words_lookup (split headline) symbol k) as Hlookup.
  by rewrite header_index_split in Hlookup.
Qed.

Lemma header_index_distinct (headline : list ascii) :
  NoDup (split headline) →
  size (header_index headline) = length (split headline)
  ∧ ∀ symbol k, header_index headline !! symbol = Some k
                ↔ split headline !! k = Some symbol.
Proof.
  intros Hnd. split.
  - unfold header_index.
    apply (proj2 (index_of_words_size (split headline))).
    by rewrite header_index_split.
  - intros symbol k. rewrite header_index_last. split; [by intros [? _]|].
    intros Hk. split; [done|]. intros k' Hk' Hk2.
    pose proof (NoDup_lookup _ _ _ _ Hnd Hk Hk2). lia.
Qed.

(** X18: the header's index maps each symbol to the position of its last
    occurrence among the words of the header line, and never has more
    entries than the header has words.  When the words are distinct, symbol
    number [k] has index [k] and [n_symbols] is the number of words, so every
    index lies inside the matrix. *)
Theorem header_index_positions (headline : list ascii) :
  (∀ symbol k,
     header_index headline !! symbol = Some k
     ↔ split headline !! k = Some symbol
       ∧ ∀ k', (k < k')%nat → split headline !! k' ≠ Some symbol)
  ∧ (size (header_index headline) ≤ length (split headline))%nat
  ∧ (NoDup (split headline) →
       size (header_index headline) = length (split headline)
       ∧ (∀ symbol k, header_index headline !! symbol = Some k
                      ↔ split headline !! k = Some symbol)
       ∧ ∀ symbol k, header_index headline !! symbol = Some k →
           (k < size (header_index headline))%nat).
Proof.
  split; [apply header_index_last|]. split.
  - unfold header_index. apply index_of_words_size.
  - intros Hnd. destruct (header_index_distinct headline Hnd) as [Hsize Hpos].
    split_and!; [done|done|].
    intros symbol k Hk%Hpos%lookup_lt_Some. by rewrite Hsize.
Qed.

Lemma header_index_positions_witness :
  size (header_index (py "A C G T" ++ nl)) = length (split (py "A C G T" ++ nl))
  ∧ (∀ symbol k, header_index (py "A C G T" ++ nl) !! symbol = Some k
                 ↔ split (py "A C G T" ++ nl) !! k = Some symbol)
  ∧ ∀ symbol k, header_index (py "A C G T" ++ nl) !! symbol = Some k →
      (k < size (header_index (py "A C G T" ++ nl)))%nat.
Proof.
  apply (proj2 (proj2 (header_index_positions (py "A C G T" ++ nl)))).
  apply (bool_decide_unpack _). by vm_compute.
Defined.

(** ** get_symbols *)

(** Body of [for symbol, index in self.index_by_symbol.items()]:
    [symbols[index] = symbol].  The array has dtype [str], that is one
    character per entry, so numpy keeps the first character of [symbol];
    an index past the end raises [IndexError]. *)
Definition set_symbol (item : list ascii * nat) (symbols : list (list ascii))
  : result (list (list ascii)) :=
  let '(symbol, index) := item in
  if bool_decide (index < length symbols)%nat
  then Ok (<[index := take 1 symbol]> symbols)
  else Raise IndexError.

(** The loop of [get_symbols] over the items of the dict, in the order
    [items] in which the dict yields them, starting from
    [np.empty(n, dtype=str)].  [np.empty] leaves the entries unspecified;
    the model starts them as empty strings. *)
Definition get_symbols_from (items : list (list ascii * nat)) (n : nat)
  : result (list (list ascii)) :=
  for_each set_symbol items (replicate n []).

(** [ScoringScheme.get_symbols].  A [gmap] lists its items in an order of
    its own, not in the insertion order of a Python dict; for an index
    built from a header of distinct symbols the result is the same for every
    order of the items. *)
Definition get_symbols (self : ScoringScheme) : result (option (list (list ascii))) :=
  match scoring_matrix self with
  | None => Ok None
  | Some _ =>
      match index_by_symbol self with
      | None => Raise TypeError
      | Some idx =>
          symbols ← get_symbols_from (map_to_list idx) (size idx);
          Ok (Some symbols)
      end
  end.

Lemma set_symbols_spec (ts : list (list ascii)) (items : list (list ascii * nat))
    (symbols : list (list ascii)) :
  (∀ t k, (t, k) ∈ items → ts !! k = Some t) →
  length symbols = length ts →
  ∃ symbols',
    for_each set_symbol items symbols = Ok symbols'
    ∧ length symbols' = length ts
    ∧ ∀ j, (∀ t, (t, j) ∈ items → symbols' !! j = Some (take 1 t))
           ∧ ((∀ t, (t, j) ∉ items) → symbols' !! j = symbols !! j).
Proof.
  revert symbols. induction items as [|[t k] items IH]; intros symbols Hitems Hlen.
  { exists symbols. split; [done|]. split; [done|]. intros j. split; [|done].
    intros t' []%elem_of_nil. }
  assert (ts !! k = Some t) as Hk by (apply Hitems; left).
  simpl. rewrite bool_decide_eq_true_2
    by (rewrite Hlen; by eapply lookup_lt_Some).
  rewrite bind_Ok.
  destruct (IH (<[k := take 1 t]> symbols)) as (symbols' & -> & Hlen' & Hj).
  { intros t' k' Hin. apply Hitems. by right. }
  { by rewrite length_insert. }
  exists symbols'. split_and!; try done. intros j. split.
  - intros t' [[= -> ->]|Hin]%elem_of_cons; [|by apply (proj1 (Hj j))].
    destruct (decide ((t, k) ∈ items)) as [Hin|Hno].
    + by apply (proj1 (Hj k)).
    + rewrite (proj2 (Hj k)).
      * apply list_lookup_insert_eq. rewrite Hlen. by eapply lookup_lt_Some.
      * intros t'' Hin. apply Hno.
        assert (ts !! k = Some t'') by (apply Hitems; by right). congruence.
  - intros Hno. rewrite (proj2 (Hj j)).
    + apply list_lookup_insert_ne. intros ->. apply (Hno t). by left.
    + intros t' Hin. apply (Hno t'). by right.
Qed.

(** X19: after [load_matrix] has read a header of distinct symbols,
    [get_symbols] returns the symbols in header order, each cut to its first
    character by the one-character [str] array, whatever the order in which
    the dict yields its items; and without a matrix it returns [None]. *)
Theorem get_symbols_after_load (float : list ascii → option Q)
    (f : list (list ascii)) (self : ScoringScheme)
    (headline : list ascii) (rows : list (list ascii)) :
  (scoring_matrix self = None → get_symbols self = Ok None)
  ∧ (read_header f = Ok (headline, rows) → NoDup (split headline) →
     get_symbols (load_matrix float f self).1 = Ok (Some (take 1 <$> split headline))
     ∧ ∀ items, items ≡ₚ map_to_list (header_index headline) →
         get_symbols_from items (size (header_index headline))
         = Ok (take 1 <$> split headline)).
Proof.
  split.
  { intros Hm. unfold get_symbols. by rewrite Hm. }
  intros Hh Hnd.
  destruct (header_index_distinct headline Hnd) as [Hsize Hlookup].
  assert (∀ items, items ≡ₚ map_to_list (header_index headline) →
            get_symbols_from items (size (header_index headline))
            = Ok (take 1 <$> split headline)) as Hany.
  { intros items Hperm. unfold get_symbols_from.
    assert (∀ t k, (t, k) ∈ items ↔ split headline !! k = Some t) as Hitems.
    { intros t k. rewrite Hperm, elem_of_map_to_list. apply Hlookup. }
    destruct (set_symbols_spec (split headline) items
                (replicate (size (header_index headline)) []))
      as (symbols' & -> & Hlen & Hj).
    { intros t k. apply Hitems. }
    { by rewrite length_replicate. }
    f_equal. apply list_eq. intros j. rewrite list_lookup_fmap.
    destruct (split headline !! j) as [t|] eqn:Ht; simpl.
    - apply (proj1 (Hj j)). by apply Hitems.
    - apply lookup_ge_None. rewrite Hlen. by apply lookup_ge_None. }
  split; [|done].
  rewrite (load_matrix_header float f self headline rows Hh). simpl.
  unfold get_symbols. simpl. by rewrite Hany.
Qed.

Lemma get_symbols_after_load_witness :
  get_symbols (load_matrix decimal_float [py "Ala C" ++ nl; py "C 1 2" ++ nl]
                 default_scheme).1
  = Ok (Some [py "A"; py "C"])
  ∧ ∀ items, items ≡ₚ map_to_list (header_index (py "Ala C" ++ nl)) →
      get_symbols_from items (size (header_index (py "Ala C" ++ nl)))
      = Ok [py "A"; py "C"].
Proof.
  apply (proj2 (get_symbols_after_load decimal_float
                  [py "Ala C" ++ nl; py "C 1 2" ++ nl] default_scheme
                  (py "Ala C" ++ nl) [py "C 1 2" ++ nl])).
  - reflexivity.
  - apply (bool_decide_unpack _). by vm_compute.
Defined.

(** ** main *)

Definition set_match_score (x : Q) (sch : ScoringScheme) : ScoringScheme :=
  mkScoringScheme x (mismatch_penalty sch) (gap_penalty sch)
    (gap_start_penalty sch) (index_by_symbol sch) (scoring_matrix sch).

Definition set_mismatch_penalty (x : Q) (sch : ScoringScheme) : ScoringScheme :=
  mkScoringScheme (match_score sch) x (gap_penalty sch)
    (gap_start_penalty sch) (index_by_symbol sch) (scoring_matrix sch).

(** The part of [main] that builds the scheme from the parsed arguments
    ([None] for an option that was not given; [matrix_file] is the content of
    the file named by [--matrix-file]): the scheme, and the exception of
    [load_matrix] if it raised one. *)
Definition main_scoring_scheme (float : list ascii → option Q)
    (gap_penalty match_score mismatch_penalty : option Q)
    (matrix_file : option (list (list ascii))) : ScoringScheme * option exn :=
  let scoring_scheme := default_scheme in
  let scoring_scheme :=
    match gap_penalty with
    | Some x => set_gap_penalty (- Qabs x) scoring_scheme
    | None => scoring_scheme
    end in
  let scoring_scheme :=
    match match_score with
    | Some x => set_match_score x scoring_scheme
    | None => scoring_scheme
    end in
  let scoring_scheme :=
    match mismatch_penalty with
    | Some x => set_mismatch_penalty (- Qabs x) scoring_scheme
    | None => scoring_scheme
    end in
  match matrix_file with
  | Some f => load_matrix float f scoring_scheme
  | None => (scoring_scheme, None)
  end.

(** What [main] computes before it prints: the result of [smith_waterman]
    on the two sequences with that scheme. *)
Definition main_alignment (float : list ascii → option Q)
    (sequence1 sequence2 : list ascii)
    (gap_penalty match_score mismatch_penalty : option Q)
    (matrix_file : option (list (list ascii)))
  : option (result (Q * list alignment)) :=
  match main_scoring_scheme float gap_penalty match_score mismatch_penalty
          matrix_file with
  | (_, Some e) => Some (Raise e)
  | (scoring_scheme, None) => smith_waterman sequence1 sequence2 scoring_scheme
  end.

Lemma Qabs_opp_eq (x : Q) : Qabs (- x) = Qabs x.
Proof. destruct x as [p q]. unfold Qabs, Qopp. simpl. by rewrite Z.abs_opp. Qed.

Lemma load_matrix_parameters (float : list ascii → option Q) (f : list (list ascii))
    (self : ScoringScheme) :
  match_score (load_matrix float f self).1 = match_score self
  ∧ mismatch_penalty (load_matrix float f self).1 = mismatch_penalty self
  ∧ gap_penalty (load_matrix float f self).1 = gap_penalty self
  ∧ gap_start_penalty (load_matrix float f self).1 = gap_start_penalty self.
Proof.
  unfold load_matrix. destruct (read_header f) as [[headline rows]|e]; [|done].
  by destruct (for_each_keep _ _ _).
Qed.

(** Without a matrix the engine returns unless both inputs hold a gap. *)
Lemma smith_waterman_no_matrix_returns (sequence1 sequence2 : list ascii)
    (sch : ScoringScheme) :
  scoring_matrix sch = None →
  (∃ best alignments,
     smith_waterman sequence1 sequence2 sch = Some (Ok (best, alignments)))
  ↔ ¬ (gap ∈ sequence1 ∧ gap ∈ sequence2).
Proof.
  intros Hm. split.
  - intros (best & alignments & Hsw) [[i Hi]%list_elem_of_lookup [j Hj]%list_elem_of_lookup].
    apply smith_waterman_Ok_inv in Hsw as (A & locs & _ & Hfill & _).
    destruct (fi_rec _ _ _ _ _ _ _ Hfill (S i) (S j)) as (d1 & d2 & s & H1 & H2 & Hs & _).
    { apply elem_of_rows. apply lookup_lt_Some in Hi, Hj. lia. }
    simpl in H1, H2. rewrite Nat.sub_0_r in H1, H2. simplify_eq.
  - intros Hgap.
    destruct (populate_Ok sequence1 sequence2 sch) as (A & best & locs & Hpop & _).
    { intros c1 c2 H1 H2. apply score_no_matrix_Ok; [done|].
      intros [-> ->]. by apply Hgap. }
    pose proof (smith_waterman_outcome sequence1 sequence2 sch) as Hout.
    rewrite Hpop in Hout. eauto.
Qed.

(** X20: the scheme that [main] builds never has a positive gap or
    mismatch penalty: a value given on the command line is used as
    [-abs(value)], so its sign does not matter.  Without [--matrix-file] the
    alignment call of [main] returns a result unless both sequences contain
    the gap symbol. *)
Theorem main_penalties_are_negated (float : list ascii → option Q)
    (sequence1 sequence2 : list ascii)
    (gap_penalty_arg match_score_arg mismatch_penalty_arg : option Q)
    (matrix_file : option (list (list ascii))) :
  (∀ x y,
     main_scoring_scheme float (Some (- x)) match_score_arg (Some (- y)) matrix_file
     = main_scoring_scheme float (Some x) match_score_arg (Some y) matrix_file)
  ∧ (gap_penalty
       (main_scoring_scheme float gap_penalty_arg match_score_arg mismatch_penalty_arg
          matrix_file).1 <= 0
     ∧ mismatch_penalty
         (main_scoring_scheme float gap_penalty_arg match_score_arg
            mismatch_penalty_arg matrix_file).1 <= 0)
  ∧ ((∃ best alignments,
        main_alignment float sequence1 sequence2 gap_penalty_arg match_score_arg
          mismatch_penalty_arg None = Some (Ok (best, alignments)))
     ↔ ¬ (gap ∈ sequence1 ∧ gap ∈ sequence2)).
Proof.
  split; [|split].
  - intros x y. unfold main_scoring_scheme. by rewrite !Qabs_opp_eq.
  - unfold main_scoring_scheme.
    set (sch := match mismatch_penalty_arg with
                | Some x => set_mismatch_penalty (- Qabs x) _
                | None => _
                end).
    assert (gap_penalty sch <= 0 ∧ mismatch_penalty sch <= 0) as [Hg Hm].
    { subst sch.
      destruct gap_penalty_arg as [x|], match_score_arg as [z|],
        mismatch_penalty_arg as [y|]; simpl;
        try pose proof (Qabs_nonneg x); try pose proof (Qabs_nonneg y);
        split; lra. }
    destruct matrix_file as [f|]; [|done].
    destruct (load_matrix_parameters float f sch) as (_ & -> & -> & _). done.
  - unfold main_alignment, main_scoring_scheme.
    apply smith_waterman_no_matrix_returns.
    by destruct gap_penalty_arg, match_score_arg, mismatch_penalty_arg.
Qed.

(** ** Exchanging the two sequences *)

Lemma max4_swap (a b c d : Q) : max4 a b c d == max4 a c b d.
Proof.
  pose proof (max4_ge a b c d) as (? & ? & ? & ?).
  pose proof (max4_ge a c b d) as (? & ? & ? & ?).
  apply Qle_antisym.
  - destruct (max4_cases a b c d) as [->|[->|[->| ->]]]; lra.
  - destruct (max4_cases a c b d) as [->|[->|[->| ->]]]; lra.
Qed.

Lemma score_pair_symmetric (sch : ScoringScheme) (c1 c2 : ascii) :
  scoring_matrix sch = None → score sch [c1] [c2] = score sch [c2] [c1].
Proof. intros Hm. unfold score. by apply score_loop_swap. Qed.

Section exchange.
Variables (sequence1 sequence2 : list ascii) (sch : ScoringScheme).
Variables (A1 A2 : list (list Q)) (best1 best2 : Q) (locs1 locs2 : list (nat * nat)).
Hypothesis Hm : scoring_matrix sch = None.
Hypothesis Hfill1 :
  FillInv sequence1 sequence2 sch (all_cells sequence1 sequence2) A1 best1 locs1.
Hypothesis Hfill2 :
  FillInv sequence2 sequence1 sch (all_cells sequence2 sequence1) A2 best2 locs2.

(** The matrix of the exchanged call is the transposed matrix. *)
Lemma cell_transposed (a b : nat) : cell A1 a b == cell A2 b a.
Proof.
  remember (a + b)%nat as k eqn:Hk. revert a b Hk.
  induction (lt_wf k) as [k _ IH]. intros a b ->.
  destruct (cell_cases _ _ _ _ _ _ Hfill1 a b)
    as [[[Ha Hb] (c1 & c2 & s1 & H1 & H2 & Hs1 & ->)]|[Hout ->]].
  - destruct (cell_cases _ _ _ _ _ _ Hfill2 b a)
      as [[_ (c2' & c1' & s2 & H2' & H1' & Hs2 & ->)]|[Hout _]].
    2:{ destruct Hout. by split. }
    simplify_eq.
    assert (s1 = s2) as ->.
    { pose proof (score_pair_symmetric sch c1 c2 Hm) as Hsym. congruence. }
    pose proof (IH (a - 1 + (b - 1))%nat ltac:(lia) _ _ eq_refl).
    pose proof (IH (a - 1 + b)%nat ltac:(lia) _ _ eq_refl).
    pose proof (IH (a + (b - 1))%nat ltac:(lia) _ _ eq_refl).
    rewrite max4_swap. apply max4_Qeq; lra.
  - destruct (cell_cases _ _ _ _ _ _ Hfill2 b a) as [[[Hb Ha] _]|[_ ->]]; [|done].
    destruct Hout. by split.
Qed.

Lemma best_exchanged_le : best1 <= best2.
Proof.
  destruct (fi_best_attained _ _ _ _ _ _ _ Hfill1) as [Hb|(a & b & _ & Hb)];
    rewrite Hb.
  - apply (fi_best_nonneg _ _ _ _ _ _ _ Hfill2).
  - pose proof (cell_transposed a b).
    pose proof (cell_le_best _ _ _ _ _ _ Hfill2 b a). lra.
Qed.
End exchange.

(** X21: without a matrix the best score does not depend on the order of
    the two sequences: if [smith_waterman] returns for [(sequence1,
    sequence2)] it returns for [(sequence2, sequence1)] with an equal best
    score (the DP matrix is transposed). *)
Theorem best_score_symmetric_without_matrix (sequence1 sequence2 : list ascii)
    (sch : ScoringScheme) (best1 : Q) (alignments1 : list alignment) :
  scoring_matrix sch = None →
  smith_waterman sequence1 sequence2 sch = Some (Ok (best1, alignments1)) →
  ∃ best2 alignments2,
    smith_waterman sequence2 sequence1 sch = Some (Ok (best2, alignments2))
    ∧ best1 == best2.
Proof.
  intros Hm Hsw1.
  assert (∃ best2 alignments2,
            smith_waterman sequence2 sequence1 sch = Some (Ok (best2, alignments2)))
    as (best2 & alignments2 & Hsw2).
  { apply smith_waterman_no_matrix_returns; [done|]. intros [H2 H1].
    apply (proj1 (smith_waterman_no_matrix_returns sequence1 sequence2 sch Hm));
      eauto. }
  exists best2, alignments2. split; [done|].
  apply smith_waterman_Ok_inv in Hsw1 as (A1 & locs1 & _ & Hfill1 & _).
  apply smith_waterman_Ok_inv in Hsw2 as (A2 & locs2 & _ & Hfill2 & _).
  apply Qle_antisym.
  - by apply (best_exchanged_le sequence1 sequence2 sch A1 A2 best1 best2 locs1 locs2).
  - by apply (best_exchanged_le sequence2 sequence1 sch A2 A1 best2 best1 locs2 locs1).
Qed.

Lemma best_score_symmetric_without_matrix_witness :
  ∃ best2 alignments2,
    smith_waterman (py "AGCACACA") (py "ACACACTA") default_scheme
    = Some (Ok (best2, alignments2))
    ∧ 5 == best2.
Proof.
  apply (best_score_symmetric_without_matrix (py "ACACACTA") (py "AGCACACA")
           default_scheme 5
           [(py "ACACA", py "ACACA"); (py "CACAC", py "CACAC");
            (py "CACACTA", py "CACAC-A")]);
    reflexivity.
Defined.
